(** * Wallet core of chaincoin: a shallow embedding of [src/wallet/wallet.h]

    The development follows the header top-down: integer and string helpers,
    the order-position helpers, the merkle and wallet transaction records with
    their serialization, accounting entries, the rescan reservation, and then
    the parts of the wallet whose bodies live outside the header (key pool,
    spend index), which are modelled from the specification. *)

From Stdlib Require Import ZArith Lia Ascii String List Bool Sorted.
From stdpp Require Import base gmap strings list fin_maps fin_sets.

Local Open Scope string_scope.
Local Open Scope Z_scope.
Local Set Warnings "-clear-no-such-hyp".

(** ** Machine integers *)

Definition INT64_MAX : Z := 9223372036854775807.
Definition INT64_MIN : Z := -9223372036854775808.
Definition UINT32_MOD : Z := 4294967296.

Definition in_int64 (z : Z) : Prop := INT64_MIN <= z <= INT64_MAX.

(** Conversion of a 64-bit value to [unsigned int], as the cast
    [(unsigned int)x] does. *)
Definition to_uint32 (z : Z) : Z := z mod UINT32_MOD.

(** ** Characters and decimal text *)

Definition ord (c : ascii) : Z := Z.of_N (N_of_ascii c).
Definition chr (z : Z) : ascii := ascii_of_N (Z.to_N z).

Definition is_digit (c : ascii) : bool := (48 <=? ord c) && (ord c <=? 57).

(** The characters C's [isspace] accepts in the "C" locale. *)
Definition isspace (c : ascii) : bool :=
  (ord c =? 32) || ((9 <=? ord c) && (ord c <=? 13)).

(** Decimal digits of a non-negative number, most significant first,
    pushed in front of [acc]. Twenty rounds cover every 64-bit value. *)
Fixpoint utostr_aux (fuel : nat) (n : Z) (acc : string) : string :=
  match fuel with
  | O => acc
  | S f =>
      let acc' := String (chr (48 + n mod 10)) acc in
      if n / 10 =? 0 then acc' else utostr_aux f (n / 10) acc'
  end.

(** Modelled from the spec: [strprintf("%u", n)] of tinyformat.h, which is not
    under src/; the reserved key "timesmart" holds the decimal text of the
    unsigned value. *)
Definition utostr (n : Z) : string := utostr_aux 20 n "".

(** Modelled from the spec: [i64tostr] of utilstrencodings, which is not under
    src/ ([strprintf("%d", n)]); the reserved key "n" holds the decimal text of
    the order position, with a leading minus sign for negative values. *)
Definition i64tostr (n : Z) : string :=
  if n <? 0 then String "-" (utostr (- n)) else utostr n.

Fixpoint skip_space (s : string) : string :=
  match s with
  | String c r => if isspace c then skip_space r else s
  | EmptyString => s
  end.

Fixpoint parse_digits (s : string) (acc : Z) : Z :=
  match s with
  | String c r =>
      if is_digit c then parse_digits r (acc * 10 + (ord c - 48)) else acc
  | EmptyString => acc
  end.

Definition clamp_int64 (z : Z) : Z :=
  if z <? INT64_MIN then INT64_MIN
  else if INT64_MAX <? z then INT64_MAX else z.

(** Modelled from the spec: [atoi64] of utilstrencodings, which is not under
    src/ ([strtoll(psz, nullptr, 10)]): leading white space is skipped, an
    optional sign is read, the longest run of decimal digits is converted,
    the value saturates at the 64-bit bounds, and text without digits gives 0. *)
Definition atoi64 (s : string) : Z :=
  match skip_space s with
  | String "-" r => clamp_int64 (- parse_digits r 0)
  | String "+" r => clamp_int64 (parse_digits r 0)
  | r => clamp_int64 (parse_digits r 0)
  end.

(** ** Order position helpers (wallet.h, ReadOrderPos / WriteOrderPos) *)

Abbreviation mapValue_t := (gmap string string).

(** [ReadOrderPos]: the map is only read (the key exists whenever
    [mapValue["n"]] is evaluated), so only the new [nOrderPos] is returned. *)
Definition ReadOrderPos (mapValue : mapValue_t) : Z :=
  match mapValue !! "n" with
  | None => -1
  | Some v => atoi64 v
  end.

Definition WriteOrderPos (nOrderPos : Z) (mapValue : mapValue_t) : mapValue_t :=
  if nOrderPos =? -1 then mapValue
  else <["n" := i64tostr nOrderPos]> mapValue.

(** *** Facts on string concatenation *)

Lemma string_app_nil (b : string) : "" +:+ b = b.
Proof. reflexivity. Qed.

Lemma string_app_cons (x : ascii) (a b : string) :
  String x a +:+ b = String x (a +:+ b).
Proof. reflexivity. Qed.

Lemma string_app_assoc (a b c : string) : (a +:+ b) +:+ c = a +:+ (b +:+ c).
Proof.
  induction a as [|x a IH]; [reflexivity|].
  rewrite !string_app_cons. by rewrite IH.
Qed.

Lemma string_app_empty_r (s : string) : s +:+ "" = s.
Proof.
  induction s as [|c s IH]; [reflexivity|].
  rewrite string_app_cons. by rewrite IH.
Qed.

Lemma string_length_app (a b : string) :
  String.length (a +:+ b) = (String.length a + String.length b)%nat.
Proof.
  induction a as [|x a IH]; [reflexivity|].
  rewrite string_app_cons. simpl. by rewrite IH.
Qed.

(** *** Decimal text reads back *)

Lemma ord_chr (z : Z) : 0 <= z < 256 -> ord (chr z) = z.
Proof.
  intros Hz. unfold ord, chr.
  rewrite N_ascii_embedding by lia. lia.
Qed.

Lemma digit_is_digit (d : Z) : 0 <= d < 10 -> is_digit (chr (48 + d)) = true.
Proof.
  intros Hd. unfold is_digit. rewrite ord_chr by lia.
  apply andb_true_iff; split; apply Z.leb_le; lia.
Qed.

Lemma digit_not_space (d : Z) : 0 <= d < 10 -> isspace (chr (48 + d)) = false.
Proof.
  intros Hd. unfold isspace. rewrite ord_chr by lia.
  apply orb_false_iff; split.
  - apply Z.eqb_neq; lia.
  - apply andb_false_iff; right. apply Z.leb_gt; lia.
Qed.

Lemma digit_not_sign (d : Z) :
  0 <= d < 10 -> chr (48 + d) <> "-"%char /\ chr (48 + d) <> "+"%char.
Proof.
  intros Hd.
  assert (Hminus : ord "-"%char = 45) by reflexivity.
  assert (Hplus : ord "+"%char = 43) by reflexivity.
  split; intros E; apply (f_equal ord) in E;
    rewrite ord_chr in E by lia; lia.
Qed.

(** What [utostr_aux] produces: a non-empty run of digits in front of [acc]
    which [parse_digits] folds back into the number. *)
Lemma utostr_aux_spec (fuel : nat) :
  forall n acc, 0 <= n < 10 ^ Z.of_nat (S fuel) ->
  exists d ds k,
    utostr_aux (S fuel) n acc = String (chr (48 + d)) (ds +:+ acc) /\
    0 <= d < 10 /\ 0 <= k /\
    forall a rest,
      parse_digits (String (chr (48 + d)) (ds +:+ rest)) a =
      parse_digits rest (a * 10 ^ k + n).
Proof.
  induction fuel as [|f IH]; intros n acc Hn;
    assert (Hmod : 0 <= n mod 10 < 10) by (apply Z.mod_pos_bound; lia);
    pose proof (Z.div_mod n 10 ltac:(lia)) as Hdm;
    cbn [utostr_aux]; destruct (Z.eqb_spec (n / 10) 0) as [Hq|Hq].
  1, 3: exists (n mod 10), "", 1; repeat split; try lia;
      intros a rest; rewrite string_app_nil; cbn [parse_digits];
      rewrite digit_is_digit, ord_chr by lia; f_equal; lia.
  - exfalso. change (10 ^ Z.of_nat 1) with 10 in Hn.
    assert (n / 10 = 0) by (apply Z.div_small; lia). lia.
  - assert (Hdiv : 0 <= n / 10 < 10 ^ Z.of_nat (S f)).
    { split; [apply Z.div_pos; lia|].
      apply Z.div_lt_upper_bound; [lia|].
      rewrite (Nat2Z.inj_succ (S f)), Z.pow_succ_r in Hn by lia. lia. }
    destruct (IH (n / 10) (String (chr (48 + n mod 10)) acc) Hdiv)
      as (d & ds & k & Heq & Hd & Hk & Hparse).
    exists d, (ds +:+ String (chr (48 + n mod 10)) ""), (k + 1).
    repeat split; try lia.
    + cbn [utostr_aux] in Heq. rewrite Heq. f_equal.
      by rewrite string_app_assoc.
    + intros a rest.
      rewrite string_app_assoc, string_app_cons, string_app_nil.
      rewrite Hparse. cbn [parse_digits].
      rewrite digit_is_digit, ord_chr by lia.
      f_equal. rewrite Z.pow_add_r by lia. lia.
Qed.

Lemma utostr_head (n : Z) :
  0 <= n < 10 ^ 20 ->
  exists d ds, utostr n = String (chr (48 + d)) ds /\ 0 <= d < 10 /\
               parse_digits (utostr n) 0 = n.
Proof.
  intros Hn. unfold utostr.
  destruct (utostr_aux_spec 19 n "" Hn) as (d & ds & k & Heq & Hd & Hk & Hp).
  exists d, (ds +:+ ""). repeat split; try lia; [exact Heq|].
  rewrite Heq, Hp. cbn. lia.
Qed.

Lemma atoi64_digits (d : Z) (ds : string) :
  0 <= d < 10 ->
  atoi64 (String (chr (48 + d)) ds) =
  clamp_int64 (parse_digits (String (chr (48 + d)) ds) 0).
Proof.
  intros Hd. unfold atoi64. cbn [skip_space].
  rewrite digit_not_space by lia.
  destruct (digit_not_sign d Hd) as [Hm Hp].
  destruct (chr (48 + d)) as [[] [] [] [] [] [] [] []] eqn:E;
    try reflexivity; congruence.
Qed.

Lemma atoi64_utostr (n : Z) : 0 <= n <= INT64_MAX -> atoi64 (utostr n) = n.
Proof.
  intros Hn. unfold INT64_MAX in Hn.
  destruct (utostr_head n) as (d & ds & Heq & Hd & Hval); [lia|].
  rewrite Heq in Hval |- *. rewrite atoi64_digits by lia. rewrite Hval.
  unfold clamp_int64, INT64_MIN, INT64_MAX.
  destruct (Z.ltb_spec n (-9223372036854775808)); [lia|].
  destruct (Z.ltb_spec 9223372036854775807 n); lia.
Qed.

Lemma atoi64_i64tostr (n : Z) : in_int64 n -> atoi64 (i64tostr n) = n.
Proof.
  unfold in_int64, INT64_MIN, INT64_MAX. intros Hn. unfold i64tostr.
  destruct (Z.ltb_spec n 0) as [Hneg|Hpos].
  - destruct (utostr_head (- n)) as (d & ds & Heq & Hd & Hval); [lia|].
    unfold atoi64. cbn [skip_space].
    replace (isspace "-") with false by reflexivity.
    rewrite Hval. unfold clamp_int64, INT64_MIN, INT64_MAX.
    destruct (Z.ltb_spec (- - n) (-9223372036854775808)); [lia|].
    destruct (Z.ltb_spec 9223372036854775807 (- - n)); lia.
  - apply atoi64_utostr. unfold INT64_MAX. lia.
Qed.

Example i64tostr_sample : i64tostr (-9223372036854775808) = "-9223372036854775808".
Proof. reflexivity. Qed.

Example atoi64_sample : atoi64 "  +42abc" = 42 /\ atoi64 "-7" = -7 /\ atoi64 "x" = 0.
Proof. repeat split. Qed.

Lemma ReadOrderPos_WriteOrderPos (n : Z) (m : mapValue_t) :
  in_int64 n -> n <> -1 -> ReadOrderPos (WriteOrderPos n m) = n.
Proof.
  intros Hn Hne. unfold WriteOrderPos, ReadOrderPos.
  destruct (Z.eqb_spec n (-1)); [done|].
  rewrite lookup_insert_eq. by apply atoi64_i64tostr.
Qed.

(** C10. Writing an order position [n >= 0] into a map without the key "n"
    and reading it back yields [n]; for [-1] the write leaves the map as it
    is and reading a map without "n" yields [-1]. *)
Theorem order_pos_roundtrip (m : mapValue_t) :
  m !! "n" = None ->
  (forall n, 0 <= n <= INT64_MAX -> ReadOrderPos (WriteOrderPos n m) = n) /\
  WriteOrderPos (-1) m = m /\
  ReadOrderPos m = -1.
Proof.
  intros Hm. split; [|split].
  - intros n Hn. apply ReadOrderPos_WriteOrderPos; [|lia].
    unfold in_int64, INT64_MIN. lia.
  - reflexivity.
  - unfold ReadOrderPos. by rewrite Hm.
Qed.

Lemma order_pos_roundtrip_witness :
  (forall n, 0 <= n <= INT64_MAX ->
     ReadOrderPos (WriteOrderPos n (∅ : mapValue_t)) = n) /\
  WriteOrderPos (-1) (∅ : mapValue_t) = ∅ /\
  ReadOrderPos (∅ : mapValue_t) = -1.
Proof. apply (order_pos_roundtrip ∅). reflexivity. Defined.

(** ** Transactions

    Modelled from the spec: primitives/transaction.h and uint256.h are not
    under src/. A hash is a 256-bit number (the null hash is 0), an outpoint
    is the pair (transaction id, output index), and a transaction is its id
    together with the outpoints its inputs reference and its outputs. *)

Abbreviation uint256 := Z.
Abbreviation COutPoint := (uint256 * Z)%type.

Record CTxOut := mkTxOut { nValue : Z; scriptPubKey : Z }.

Record CTransaction := mkTx {
  tx_hash : uint256;
  vin : list COutPoint;
  vout : list CTxOut
}.

Definition IsNull (h : uint256) : bool := h =? 0.

(** ** CMerkleTx *)

Module MerkleTx.

Record CMerkleTx := mk {
  tx : CTransaction;
  hashBlock : uint256;
  nIndex : Z
}.

Definition SetTx (arg : CTransaction) (m : CMerkleTx) : CMerkleTx :=
  {| tx := arg; hashBlock := hashBlock m; nIndex := nIndex m |}.

Definition Init (m : CMerkleTx) : CMerkleTx :=
  {| tx := tx m; hashBlock := 0; nIndex := -1 |}.

(** [explicit CMerkleTx(CTransactionRef arg)]: the members start out
    unspecified, then [SetTx] and [Init] run. *)
Definition make (arg : CTransaction) (start : CMerkleTx) : CMerkleTx :=
  Init (SetTx arg start).

Definition GetHash (m : CMerkleTx) : uint256 := tx_hash (tx m).

Section Abandon.
(** [ABANDON_HASH] is declared in the header and defined in wallet.cpp,
    which is not under src/; it is a parameter here. *)
Variable ABANDON_HASH : uint256.

Definition hashUnset (m : CMerkleTx) : bool :=
  IsNull (hashBlock m) || (hashBlock m =? ABANDON_HASH).

Definition isAbandoned (m : CMerkleTx) : bool := hashBlock m =? ABANDON_HASH.

Definition setAbandoned (m : CMerkleTx) : CMerkleTx :=
  {| tx := tx m; hashBlock := ABANDON_HASH; nIndex := nIndex m |}.

Lemma isAbandoned_iff (m : CMerkleTx) :
  isAbandoned m = true <-> hashBlock m = ABANDON_HASH.
Proof. unfold isAbandoned. apply Z.eqb_eq. Qed.

Lemma hashUnset_iff (m : CMerkleTx) :
  hashUnset m = true <-> hashBlock m = 0 \/ hashBlock m = ABANDON_HASH.
Proof.
  unfold hashUnset, IsNull. rewrite orb_true_iff, !Z.eqb_eq. reflexivity.
Qed.

Lemma setAbandoned_abandoned (m : CMerkleTx) :
  isAbandoned (setAbandoned m) = true /\ hashUnset (setAbandoned m) = true.
Proof.
  split; [apply isAbandoned_iff | apply hashUnset_iff; right]; reflexivity.
Qed.

(** The sentinel differs from the null hash (spec: null = unconfirmed,
    sentinel ABANDONED = abandoned). *)
Hypothesis ABANDON_HASH_not_null : ABANDON_HASH <> 0.

(** C5. [isAbandoned] holds exactly for the sentinel, [hashUnset] exactly
    for the null hash or the sentinel, both hold after [setAbandoned], and
    a record after [Init] has a null block hash and index -1: it is unset
    and not abandoned. *)
Theorem abandon_state (m : CMerkleTx) :
  (isAbandoned m = true <-> hashBlock m = ABANDON_HASH) /\
  (hashUnset m = true <-> hashBlock m = 0 \/ hashBlock m = ABANDON_HASH) /\
  isAbandoned (setAbandoned m) = true /\
  hashUnset (setAbandoned m) = true /\
  hashBlock (Init m) = 0 /\
  nIndex (Init m) = -1 /\
  hashUnset (Init m) = true /\
  isAbandoned (Init m) = false.
Proof.
  pose proof (setAbandoned_abandoned m) as [Ha Hu].
  repeat split; try apply isAbandoned_iff; try apply hashUnset_iff; auto.
  unfold isAbandoned. cbn [Init hashBlock]. apply Z.eqb_neq. auto.
Qed.
End Abandon.

Definition sample : CMerkleTx :=
  {| tx := mkTx 7 [(5, 0)] [mkTxOut 100 1]; hashBlock := 9; nIndex := 3 |}.

Lemma abandon_state_witness :
  (1 : uint256) <> 0 /\
  isAbandoned 1 (setAbandoned 1 sample) = true /\
  hashUnset 1 (Init sample) = true /\
  isAbandoned 1 (Init sample) = false.
Proof.
  split; [lia|].
  pose proof (abandon_state 1 ltac:(lia) sample) as H.
  tauto.
Defined.

End MerkleTx.

(** ** CWalletTx *)

Module WalletTx.
Import MerkleTx.

(** The base-class subobject is the field [merkle]; [pwallet] is the
    non-owning back pointer ([None] is [nullptr]). *)
Record CWalletTx := mk {
  merkle : CMerkleTx;
  pwallet : option nat;
  mapValue : mapValue_t;
  vOrderForm : list (string * string);
  fTimeReceivedIsTxTime : Z;
  nTimeReceived : Z;
  nTimeSmart : Z;
  fFromMe : Z;
  strFromAccount : string;
  nOrderPos : Z;
  (* memory only *)
  fDebitCached : bool;
  fCreditCached : bool;
  fImmatureCreditCached : bool;
  fAvailableCreditCached : bool;
  fAnonymizedCreditCached : bool;
  fDenomUnconfCreditCached : bool;
  fDenomConfCreditCached : bool;
  fWatchDebitCached : bool;
  fWatchCreditCached : bool;
  fImmatureWatchCreditCached : bool;
  fAvailableWatchCreditCached : bool;
  fChangeCached : bool;
  fInMempool : bool;
  nDebitCached : Z;
  nCreditCached : Z;
  nImmatureCreditCached : Z;
  nAvailableCreditCached : Z;
  nAnonymizedCreditCached : Z;
  nDenomUnconfCreditCached : Z;
  nDenomConfCreditCached : Z;
  nWatchDebitCached : Z;
  nWatchCreditCached : Z;
  nImmatureWatchCreditCached : Z;
  nAvailableWatchCreditCached : Z;
  nChangeCached : Z
}.

(** [CWalletTx::Init]: everything but the base-class subobject is reset. *)
Definition Init (pwalletIn : option nat) (w : CWalletTx) : CWalletTx :=
  {| merkle := merkle w;
     pwallet := pwalletIn;
     mapValue := ∅;
     vOrderForm := [];
     fTimeReceivedIsTxTime := 0;
     nTimeReceived := 0;
     nTimeSmart := 0;
     fFromMe := 0;
     strFromAccount := "";
     nOrderPos := -1;
     fDebitCached := false;
     fCreditCached := false;
     fImmatureCreditCached := false;
     fAvailableCreditCached := false;
     fAnonymizedCreditCached := false;
     fDenomUnconfCreditCached := false;
     fDenomConfCreditCached := false;
     fWatchDebitCached := false;
     fWatchCreditCached := false;
     fImmatureWatchCreditCached := false;
     fAvailableWatchCreditCached := false;
     fChangeCached := false;
     fInMempool := false;
     nDebitCached := 0;
     nCreditCached := 0;
     nImmatureCreditCached := 0;
     nAvailableCreditCached := 0;
     nAnonymizedCreditCached := 0;
     nDenomUnconfCreditCached := 0;
     nDenomConfCreditCached := 0;
     nWatchDebitCached := 0;
     nWatchCreditCached := 0;
     nImmatureWatchCreditCached := 0;
     nAvailableWatchCreditCached := 0;
     nChangeCached := 0 |}.

(** [CWalletTx::MarkDirty]: the twelve assignments of the body. *)
Definition MarkDirty (w : CWalletTx) : CWalletTx :=
  {| merkle := merkle w;
     pwallet := pwallet w;
     mapValue := mapValue w;
     vOrderForm := vOrderForm w;
     fTimeReceivedIsTxTime := fTimeReceivedIsTxTime w;
     nTimeReceived := nTimeReceived w;
     nTimeSmart := nTimeSmart w;
     fFromMe := fFromMe w;
     strFromAccount := strFromAccount w;
     nOrderPos := nOrderPos w;
     fDebitCached := false;
     fCreditCached := false;
     fImmatureCreditCached := false;
     fAvailableCreditCached := false;
     fAnonymizedCreditCached := false;
     fDenomUnconfCreditCached := false;
     fDenomConfCreditCached := false;
     fWatchDebitCached := false;
     fWatchCreditCached := false;
     fImmatureWatchCreditCached := false;
     fAvailableWatchCreditCached := false;
     fChangeCached := false;
     fInMempool := fInMempool w;
     nDebitCached := nDebitCached w;
     nCreditCached := nCreditCached w;
     nImmatureCreditCached := nImmatureCreditCached w;
     nAvailableCreditCached := nAvailableCreditCached w;
     nAnonymizedCreditCached := nAnonymizedCreditCached w;
     nDenomUnconfCreditCached := nDenomUnconfCreditCached w;
     nDenomConfCreditCached := nDenomConfCreditCached w;
     nWatchDebitCached := nWatchDebitCached w;
     nWatchCreditCached := nWatchCreditCached w;
     nImmatureWatchCreditCached := nImmatureWatchCreditCached w;
     nAvailableWatchCreditCached := nAvailableWatchCreditCached w;
     nChangeCached := nChangeCached w |}.

Definition set_pwallet (p : option nat) (w : CWalletTx) : CWalletTx :=
  mk (merkle w) p (mapValue w) (vOrderForm w) (fTimeReceivedIsTxTime w)
     (nTimeReceived w) (nTimeSmart w) (fFromMe w) (strFromAccount w)
     (nOrderPos w) (fDebitCached w) (fCreditCached w)
     (fImmatureCreditCached w) (fAvailableCreditCached w)
     (fAnonymizedCreditCached w) (fDenomUnconfCreditCached w)
     (fDenomConfCreditCached w) (fWatchDebitCached w) (fWatchCreditCached w)
     (fImmatureWatchCreditCached w) (fAvailableWatchCreditCached w)
     (fChangeCached w) (fInMempool w) (nDebitCached w) (nCreditCached w)
     (nImmatureCreditCached w) (nAvailableCreditCached w)
     (nAnonymizedCreditCached w) (nDenomUnconfCreditCached w)
     (nDenomConfCreditCached w) (nWatchDebitCached w) (nWatchCreditCached w)
     (nImmatureWatchCreditCached w) (nAvailableWatchCreditCached w)
     (nChangeCached w).

Definition BindWallet (pwalletIn : option nat) (w : CWalletTx) : CWalletTx :=
  MarkDirty (set_pwallet pwalletIn w).

(** [CWalletTx(pwalletIn, arg)]: base-class constructor, then [Init]. *)
Definition make (pwalletIn : option nat) (arg : CTransaction)
    (start : CWalletTx) : CWalletTx :=
  Init pwalletIn
    (mk (MerkleTx.make arg (merkle start)) (pwallet start) (mapValue start)
        (vOrderForm start) (fTimeReceivedIsTxTime start) (nTimeReceived start)
        (nTimeSmart start) (fFromMe start) (strFromAccount start)
        (nOrderPos start) (fDebitCached start) (fCreditCached start)
        (fImmatureCreditCached start) (fAvailableCreditCached start)
        (fAnonymizedCreditCached start) (fDenomUnconfCreditCached start)
        (fDenomConfCreditCached start) (fWatchDebitCached start)
        (fWatchCreditCached start) (fImmatureWatchCreditCached start)
        (fAvailableWatchCreditCached start) (fChangeCached start)
        (fInMempool start) (nDebitCached start) (nCreditCached start)
        (nImmatureCreditCached start) (nAvailableCreditCached start)
        (nAnonymizedCreditCached start) (nDenomUnconfCreditCached start)
        (nDenomConfCreditCached start) (nWatchDebitCached start)
        (nWatchCreditCached start) (nImmatureWatchCreditCached start)
        (nAvailableWatchCreditCached start) (nChangeCached start)).

(** The twelve validity flags of the cached amounts are all cleared. *)
Definition caches_invalid (w : CWalletTx) : Prop :=
  fDebitCached w = false /\ fCreditCached w = false /\
  fImmatureCreditCached w = false /\ fAvailableCreditCached w = false /\
  fAnonymizedCreditCached w = false /\ fDenomUnconfCreditCached w = false /\
  fDenomConfCreditCached w = false /\ fWatchDebitCached w = false /\
  fWatchCreditCached w = false /\ fImmatureWatchCreditCached w = false /\
  fAvailableWatchCreditCached w = false /\ fChangeCached w = false.

(** The fields that are not part of the balance cache agree. *)
Definition same_record_fields (a b : CWalletTx) : Prop :=
  merkle a = merkle b /\ pwallet a = pwallet b /\ mapValue a = mapValue b /\
  vOrderForm a = vOrderForm b /\
  fTimeReceivedIsTxTime a = fTimeReceivedIsTxTime b /\
  nTimeReceived a = nTimeReceived b /\ nTimeSmart a = nTimeSmart b /\
  fFromMe a = fFromMe b /\ strFromAccount a = strFromAccount b /\
  nOrderPos a = nOrderPos b.

(** The cached amounts themselves agree. *)
Definition same_cached_amounts (a b : CWalletTx) : Prop :=
  nDebitCached a = nDebitCached b /\ nCreditCached a = nCreditCached b /\
  nImmatureCreditCached a = nImmatureCreditCached b /\
  nAvailableCreditCached a = nAvailableCreditCached b /\
  nAnonymizedCreditCached a = nAnonymizedCreditCached b /\
  nDenomUnconfCreditCached a = nDenomUnconfCreditCached b /\
  nDenomConfCreditCached a = nDenomConfCreditCached b /\
  nWatchDebitCached a = nWatchDebitCached b /\
  nWatchCreditCached a = nWatchCreditCached b /\
  nImmatureWatchCreditCached a = nImmatureWatchCreditCached b /\
  nAvailableWatchCreditCached a = nAvailableWatchCreditCached b /\
  nChangeCached a = nChangeCached b.

(** The property as the specification words it: every validity flag and the
    mempool flag are cleared, the remaining fields are kept. *)
Definition MarkDirty_clears_mempool_flag (w : CWalletTx) : Prop :=
  caches_invalid (MarkDirty w) /\
  fInMempool (MarkDirty w) = false /\
  same_record_fields (MarkDirty w) w.

(** A transaction fresh from the constructor that has entered the mempool. *)
Definition wtx_blank : CWalletTx :=
  mk (MerkleTx.mk (mkTx 0 [] []) 0 (-1)) None ∅ [] 0 0 0 0 "" (-1)
     false false false false false false false false false false false false
     false 0 0 0 0 0 0 0 0 0 0 0 0.

Definition wtx_in_mempool : CWalletTx :=
  mk (MerkleTx.mk (mkTx 7 [(5, 0)] [mkTxOut 100 1]) 0 (-1)) (Some 1%nat) ∅ []
     0 0 0 1 "" (-1)
     true true false true false false false false false false false true
     true 0 100 0 100 0 0 0 0 0 0 0 0.

(** C1, as stated, fails: [MarkDirty] does not touch [fInMempool]. *)
Lemma MarkDirty_keeps_mempool_flag_cex :
  ~ MarkDirty_clears_mempool_flag wtx_in_mempool.
Proof. intros (_ & Hmem & _). discriminate Hmem. Qed.

(** C1, amended. [MarkDirty] clears the twelve validity flags of the cached
    amounts and leaves every other field as it was: the mempool flag, the
    cached amounts and all fields outside the cache. *)
Theorem MarkDirty_spec (w : CWalletTx) :
  caches_invalid (MarkDirty w) /\
  fInMempool (MarkDirty w) = fInMempool w /\
  same_cached_amounts (MarkDirty w) w /\
  same_record_fields (MarkDirty w) w.
Proof.
  unfold caches_invalid, same_cached_amounts, same_record_fields.
  destruct w; cbn. repeat split.
Qed.

End WalletTx.

(** ** Data streams

    serialize.h and streams.h are not under src/. A stream is modelled by the
    sequence of typed values written to it: [s << x] appends the value and
    [s >> x] takes a value of the type of [x] from the front, failing (the
    [std::ios_base::failure] of the original) when the stream is exhausted or
    holds something else. The stream carries its type and version flags. *)

Module Stream.

Inductive item :=
| it_tx (t : CTransaction)
| it_uint256 (h : uint256)
| it_vec_uint256 (v : list uint256)
| it_int (z : Z)
| it_uint (z : Z)
| it_int64 (z : Z)
| it_char (z : Z)
| it_string (str : string)
| it_mapValue (m : mapValue_t)
| it_vec_pair (v : list (string * string))
| it_vec_merkletx (v : list MerkleTx.CMerkleTx).

Record CDataStream := mk { nType : Z; nVersion : Z; vch : list item }.

Definition put (i : item) (s : CDataStream) : CDataStream :=
  {| nType := nType s; nVersion := nVersion s; vch := vch s ++ [i] |}.

Definition rest (r : list item) (s : CDataStream) : CDataStream :=
  {| nType := nType s; nVersion := nVersion s; vch := r |}.

Definition get_tx (s : CDataStream) : option (CTransaction * CDataStream) :=
  match vch s with it_tx t :: r => Some (t, rest r s) | _ => None end.

Definition get_uint256 (s : CDataStream) : option (uint256 * CDataStream) :=
  match vch s with it_uint256 h :: r => Some (h, rest r s) | _ => None end.

Definition get_vec_uint256 (s : CDataStream)
  : option (list uint256 * CDataStream) :=
  match vch s with it_vec_uint256 v :: r => Some (v, rest r s) | _ => None end.

Definition get_int (s : CDataStream) : option (Z * CDataStream) :=
  match vch s with it_int z :: r => Some (z, rest r s) | _ => None end.

Definition get_uint (s : CDataStream) : option (Z * CDataStream) :=
  match vch s with it_uint z :: r => Some (z, rest r s) | _ => None end.

Definition get_int64 (s : CDataStream) : option (Z * CDataStream) :=
  match vch s with it_int64 z :: r => Some (z, rest r s) | _ => None end.

Definition get_char (s : CDataStream) : option (Z * CDataStream) :=
  match vch s with it_char z :: r => Some (z, rest r s) | _ => None end.

Definition get_string (s : CDataStream) : option (string * CDataStream) :=
  match vch s with it_string v :: r => Some (v, rest r s) | _ => None end.

(** [s >> LIMITED_STRING(str, Limit)]: a string longer than [Limit] is
    refused ("String length limit exceeded"). *)
Definition get_limited_string (Limit : Z) (s : CDataStream)
  : option (string * CDataStream) :=
  match vch s with
  | it_string v :: r =>
      if Limit <? Z.of_nat (String.length v) then None else Some (v, rest r s)
  | _ => None
  end.

Definition get_mapValue (s : CDataStream) : option (mapValue_t * CDataStream) :=
  match vch s with it_mapValue m :: r => Some (m, rest r s) | _ => None end.

Definition get_vec_pair (s : CDataStream)
  : option (list (string * string) * CDataStream) :=
  match vch s with it_vec_pair v :: r => Some (v, rest r s) | _ => None end.

Definition get_vec_merkletx (s : CDataStream)
  : option (list MerkleTx.CMerkleTx * CDataStream) :=
  match vch s with it_vec_merkletx v :: r => Some (v, rest r s) | _ => None end.

Definition empty (type version : Z) : CDataStream :=
  {| nType := type; nVersion := version; vch := [] |}.

End Stream.

(** ** Serialization of CMerkleTx and CWalletTx *)

Module WalletTxSer.
Import MerkleTx WalletTx Stream.

(** [CMerkleTx::SerializationOp], writing: the merkle branch is a local,
    empty vector. *)
Definition SerializeMerkleTx (m : CMerkleTx) (s : CDataStream) : CDataStream :=
  let vMerkleBranch : list uint256 := [] in
  put (it_int (nIndex m))
    (put (it_vec_uint256 vMerkleBranch)
       (put (it_uint256 (hashBlock m)) (put (it_tx (tx m)) s))).

(** [CMerkleTx::SerializationOp], reading: the branch read is dropped. *)
Definition UnserializeMerkleTx (s : CDataStream)
  : option (CMerkleTx * CDataStream) :=
  '(t, s) ← get_tx s;
  '(h, s) ← get_uint256 s;
  '(vMerkleBranch, s) ← get_vec_uint256 s;
  '(i, s) ← get_int s;
  Some (MerkleTx.mk t h i, s).

(** The map written for a wallet transaction: the user map with the
    reserved keys added. *)
Definition mapValueCopy (w : CWalletTx) : mapValue_t :=
  let m := <["fromaccount" := strFromAccount w]> (mapValue w) in
  let m := WriteOrderPos (nOrderPos w) m in
  if nTimeSmart w =? 0 then m else <["timesmart" := utostr (nTimeSmart w)]> m.

Definition Serialize (w : CWalletTx) (s : CDataStream) : CDataStream :=
  let fSpent : Z := 0 in
  let s := SerializeMerkleTx (merkle w) s in
  let vUnused : list CMerkleTx := [] in
  put (it_char fSpent)
    (put (it_char (fFromMe w))
       (put (it_uint (nTimeReceived w))
          (put (it_uint (fTimeReceivedIsTxTime w))
             (put (it_vec_pair (vOrderForm w))
                (put (it_mapValue (mapValueCopy w))
                   (put (it_vec_merkletx vUnused) s)))))).

(** What [Unserialize] does once the values are read. In
    [strFromAccount = std::move(mapValue["fromaccount"])] the subscript
    creates the key when it is missing; the moved-from value is taken to be
    the empty string (the key is erased below in any case). *)
Definition finish_read (w0 : CWalletTx) (m : CMerkleTx) (mv : mapValue_t)
    (form : list (string * string)) (fTime nTime fFrom : Z) : CWalletTx :=
  let from := default "" (mv !! "fromaccount") in
  let mv1 := <["fromaccount" := ""]> mv in
  let pos := ReadOrderPos mv1 in
  let smart :=
    match mv1 !! "timesmart" with
    | Some v => to_uint32 (atoi64 v)
    | None => 0
    end in
  let mv2 :=
    delete "timesmart" (delete "n" (delete "spent" (delete "fromaccount" mv1))) in
  WalletTx.mk m (pwallet w0) mv2 form fTime nTime smart fFrom from pos
    (fDebitCached w0) (fCreditCached w0) (fImmatureCreditCached w0)
    (fAvailableCreditCached w0) (fAnonymizedCreditCached w0)
    (fDenomUnconfCreditCached w0) (fDenomConfCreditCached w0)
    (fWatchDebitCached w0) (fWatchCreditCached w0)
    (fImmatureWatchCreditCached w0) (fAvailableWatchCreditCached w0)
    (fChangeCached w0) (fInMempool w0) (nDebitCached w0) (nCreditCached w0)
    (nImmatureCreditCached w0) (nAvailableCreditCached w0)
    (nAnonymizedCreditCached w0) (nDenomUnconfCreditCached w0)
    (nDenomConfCreditCached w0) (nWatchDebitCached w0) (nWatchCreditCached w0)
    (nImmatureWatchCreditCached w0) (nAvailableWatchCreditCached w0)
    (nChangeCached w0).

Definition Unserialize (this : CWalletTx) (s : CDataStream)
  : option (CWalletTx * CDataStream) :=
  let w0 := WalletTx.Init None this in
  '(m, s) ← UnserializeMerkleTx s;
  '(vUnused, s) ← get_vec_merkletx s;
  '(mv, s) ← get_mapValue s;
  '(form, s) ← get_vec_pair s;
  '(fTime, s) ← get_uint s;
  '(nTime, s) ← get_uint s;
  '(fFrom, s) ← get_char s;
  '(fSpent, s) ← get_char s;
  Some (finish_read w0 m mv form fTime nTime fFrom, s).

(** The user-visible map: the four reserved keys are erased. *)
Definition user_map (m : mapValue_t) : mapValue_t :=
  delete "timesmart" (delete "n" (delete "spent" (delete "fromaccount" m))).

(** [r] carries the persistent fields of [w], the map without the
    reserved keys. *)
Definition restored (w r : CWalletTx) : Prop :=
  merkle r = merkle w /\
  mapValue r = user_map (mapValue w) /\
  vOrderForm r = vOrderForm w /\
  fTimeReceivedIsTxTime r = fTimeReceivedIsTxTime w /\
  nTimeReceived r = nTimeReceived w /\
  fFromMe r = fFromMe w /\
  strFromAccount r = strFromAccount w /\
  nOrderPos r = nOrderPos w /\
  nTimeSmart r = nTimeSmart w.

(** The values a wallet transaction puts on the stream, with the three
    legacy slots left open. *)
Definition wire (w : CWalletTx) (vMerkleBranch : list uint256)
    (vUnused : list CMerkleTx) (fSpent : Z) : list item :=
  [ it_tx (tx (merkle w)); it_uint256 (hashBlock (merkle w));
    it_vec_uint256 vMerkleBranch; it_int (nIndex (merkle w));
    it_vec_merkletx vUnused; it_mapValue (mapValueCopy w);
    it_vec_pair (vOrderForm w); it_uint (fTimeReceivedIsTxTime w);
    it_uint (nTimeReceived w); it_char (fFromMe w); it_char fSpent ].

(** The round trip as the claim words it, for one transaction. *)
Definition roundtrip_restores (w : CWalletTx) : Prop :=
  forall this type version,
  exists r s,
    Unserialize this (Serialize w (Stream.empty type version)) = Some (r, s) /\
    restored w r.

Lemma Serialize_wire (w : CWalletTx) (type version : Z) :
  Serialize w (Stream.empty type version) =
  Stream.mk type version (wire w [] [] 0).
Proof. reflexivity. Qed.

Lemma Unserialize_wire (this w : CWalletTx) (type version : Z)
    (mb : list uint256) (vu : list CMerkleTx) (spent : Z) :
  Unserialize this (Stream.mk type version (wire w mb vu spent)) =
  Some (finish_read (WalletTx.Init None this) (merkle w) (mapValueCopy w)
          (vOrderForm w) (fTimeReceivedIsTxTime w) (nTimeReceived w)
          (fFromMe w),
        Stream.empty type version).
Proof. destruct w as [[t h i]]; reflexivity. Qed.

Lemma mapValueCopy_fromaccount (w : CWalletTx) :
  mapValueCopy w !! "fromaccount" = Some (strFromAccount w).
Proof.
  unfold mapValueCopy, WriteOrderPos.
  destruct (nTimeSmart w =? 0), (nOrderPos w =? -1); by simplify_map_eq.
Qed.

Lemma mapValueCopy_n (w : CWalletTx) :
  mapValueCopy w !! "n" =
  if nOrderPos w =? -1 then mapValue w !! "n"
  else Some (i64tostr (nOrderPos w)).
Proof.
  unfold mapValueCopy, WriteOrderPos.
  destruct (nTimeSmart w =? 0), (nOrderPos w =? -1); by simplify_map_eq.
Qed.

Lemma mapValueCopy_timesmart (w : CWalletTx) :
  mapValueCopy w !! "timesmart" =
  if nTimeSmart w =? 0 then mapValue w !! "timesmart"
  else Some (utostr (nTimeSmart w)).
Proof.
  unfold mapValueCopy, WriteOrderPos.
  destruct (nTimeSmart w =? 0), (nOrderPos w =? -1); by simplify_map_eq.
Qed.

Lemma user_map_lookup (m : mapValue_t) (k : string) :
  user_map m !! k =
  if decide (k = "fromaccount" \/ k = "spent" \/ k = "n" \/ k = "timesmart")
  then None else m !! k.
Proof.
  unfold user_map. case_decide as Hk.
  - destruct Hk as [-> | [-> | [-> | ->]]]; by simplify_map_eq.
  - rewrite !lookup_delete_ne by (intros <-; tauto). done.
Qed.

Lemma user_map_mapValueCopy (w : CWalletTx) :
  user_map (<["fromaccount" := ""]> (mapValueCopy w)) = user_map (mapValue w).
Proof.
  apply map_eq; intros k. rewrite !user_map_lookup.
  case_decide as Hk; [done|].
  rewrite lookup_insert_ne by (intros <-; tauto).
  unfold mapValueCopy, WriteOrderPos.
  destruct (nTimeSmart w =? 0), (nOrderPos w =? -1);
    rewrite ?lookup_insert_ne by (intros <-; tauto); done.
Qed.

Lemma to_uint32_atoi64_utostr (n : Z) :
  0 <= n < UINT32_MOD -> to_uint32 (atoi64 (utostr n)) = n.
Proof.
  unfold UINT32_MOD. intros Hn.
  rewrite atoi64_utostr by (unfold INT64_MAX; lia).
  unfold to_uint32, UINT32_MOD. apply Z.mod_small. lia.
Qed.

(** What the reader makes of the map a writer produced. *)
Lemma finish_read_restored (w0 w : CWalletTx) :
  in_int64 (nOrderPos w) ->
  0 <= nTimeSmart w < UINT32_MOD ->
  (nOrderPos w = -1 -> mapValue w !! "n" = None) ->
  (nTimeSmart w = 0 -> mapValue w !! "timesmart" = None) ->
  restored w
    (finish_read w0 (merkle w) (mapValueCopy w) (vOrderForm w)
       (fTimeReceivedIsTxTime w) (nTimeReceived w) (fFromMe w)).
Proof.
  intros Hpos Hsmart Hn Hts. unfold restored, finish_read. cbn.
  repeat split.
  - apply user_map_mapValueCopy.
  - by rewrite mapValueCopy_fromaccount.
  - unfold ReadOrderPos.
    rewrite lookup_insert_ne by done. rewrite mapValueCopy_n.
    destruct (Z.eqb_spec (nOrderPos w) (-1)) as [E|E].
    + rewrite (Hn E). done.
    + by apply atoi64_i64tostr.
  - rewrite lookup_insert_ne by done. rewrite mapValueCopy_timesmart.
    destruct (Z.eqb_spec (nTimeSmart w) 0) as [E|E].
    + rewrite (Hts E). done.
    + by apply to_uint32_atoi64_utostr.
Qed.

(** A transaction whose user map holds the reserved key "n" while its order
    position is unset, and one whose map holds "timesmart" while its smart
    time is unset. *)
Definition wtx_with_n : CWalletTx :=
  WalletTx.mk (MerkleTx.mk (mkTx 7 [(5, 0)] [mkTxOut 100 1]) 0 (-1)) None
     {["n" := "7"]} [] 0 0 0 0 "" (-1)
     false false false false false false false false false false false false
     false 0 0 0 0 0 0 0 0 0 0 0 0.

Definition wtx_with_timesmart : CWalletTx :=
  WalletTx.mk (MerkleTx.mk (mkTx 7 [(5, 0)] [mkTxOut 100 1]) 0 (-1)) None
     {["timesmart" := "9"]} [] 0 0 0 0 "" 3
     false false false false false false false false false false false false
     false 0 0 0 0 0 0 0 0 0 0 0 0.

(** C4, as stated, fails: a reserved key already present in the user map is
    read back as the order position (7 instead of -1), respectively as the
    smart time (9 instead of 0). *)
Lemma wtx_roundtrip_cex :
  ~ roundtrip_restores wtx_with_n /\ ~ roundtrip_restores wtx_with_timesmart.
Proof.
  split; intros H;
    destruct (H wtx_blank 0 0) as (r & s & Hread & Hr);
    rewrite Serialize_wire, Unserialize_wire in Hread;
    injection Hread as <- <-;
    destruct Hr as (_ & _ & _ & _ & _ & _ & _ & Hpos & Hsmart);
    vm_compute in Hpos, Hsmart; discriminate.
Qed.

(** C4, amended. For a wallet transaction whose user map does not hold "n"
    while [nOrderPos] is -1 nor "timesmart" while [nTimeSmart] is 0,
    [Unserialize] applied to what [Serialize] wrote succeeds, consumes it all
    and restores the transaction, block hash, index, the map without the four
    reserved keys, order form, both time fields, [fFromMe], [strFromAccount],
    [nOrderPos] and [nTimeSmart]. The spent byte is written as 0 and the
    merkle branch and vtxPrev vectors are written empty; whatever a stream
    holds in these three places is discarded by the reader. *)
Theorem wtx_roundtrip (w this : CWalletTx) (type version : Z) :
  in_int64 (nOrderPos w) ->
  0 <= nTimeSmart w < UINT32_MOD ->
  (nOrderPos w = -1 -> mapValue w !! "n" = None) ->
  (nTimeSmart w = 0 -> mapValue w !! "timesmart" = None) ->
  Serialize w (Stream.empty type version) =
    Stream.mk type version (wire w [] [] 0) /\
  (exists r,
     Unserialize this (Serialize w (Stream.empty type version)) =
       Some (r, Stream.empty type version) /\
     restored w r) /\
  (forall mb vu spent,
     Unserialize this (Stream.mk type version (wire w mb vu spent)) =
     Unserialize this (Serialize w (Stream.empty type version))).
Proof.
  intros Hpos Hsmart Hn Hts. split; [apply Serialize_wire|]. split.
  - eexists. rewrite Serialize_wire, Unserialize_wire. split; [reflexivity|].
    by apply finish_read_restored.
  - intros mb vu spent. by rewrite Serialize_wire, !Unserialize_wire.
Qed.

Definition wtx_sample : CWalletTx :=
  WalletTx.mk (MerkleTx.mk (mkTx 7 [(5, 0)] [mkTxOut 100 1]) 9 3) (Some 1%nat)
     {["comment" := "rent"; "n" := "stale"]} [("k", "v")] 1 1540000000
     1540000001 1 "savings" 12
     true true false true false false false false false false false true
     true 0 100 0 100 0 0 0 0 0 0 0 0.

Lemma wtx_roundtrip_witness :
  exists r,
    Unserialize wtx_blank (Serialize wtx_sample (Stream.empty 0 0)) =
      Some (r, Stream.empty 0 0) /\
    restored wtx_sample r.
Proof.
  refine (proj1 (proj2 (wtx_roundtrip wtx_sample wtx_blank 0 0 _ _ _ _))).
  - vm_compute. split; discriminate.
  - vm_compute. split; [discriminate|reflexivity].
  - intros H. vm_compute in H. discriminate.
  - intros H. vm_compute in H. discriminate.
Defined.

End WalletTxSer.

(** ** Byte encoding of a string map

    [CAccountingEntry] embeds a serialized map in its comment string, so for
    this one type the bytes matter. Modelled from the spec: serialize.h is
    not under src/; the spec only calls this "an embedded sub-stream of
    map-values". The encoding below is the compact-size format: a size is one
    byte below 253 and otherwise a marker byte followed by 2, 4 or 8
    little-endian bytes; a string is its size followed by its bytes; a map is
    its size followed by the key and value of every entry. The reader
    refuses non-canonical sizes and sizes above [MAX_SIZE]. The entries are
    written in the iteration order of the map; reading back does not depend
    on that order. *)

Module Wire.

Definition MAX_SIZE : Z := 33554432.

Fixpoint write_le (k : nat) (n : Z) : string :=
  match k with
  | O => ""
  | S k' => String (chr (n mod 256)) (write_le k' (n / 256))
  end.

Fixpoint read_le (k : nat) (s : string) : option (Z * string) :=
  match k with
  | O => Some (0, s)
  | S k' =>
      match s with
      | String c r => '(v, r') ← read_le k' r; Some (ord c + 256 * v, r')
      | EmptyString => None
      end
  end.

Definition WriteCompactSize (n : Z) : string :=
  if n <? 253 then String (chr n) ""
  else if n <=? 65535 then String (chr 253) (write_le 2 n)
  else if n <=? 4294967295 then String (chr 254) (write_le 4 n)
  else String (chr 255) (write_le 8 n).

Definition ReadCompactSize (s : string) : option (Z * string) :=
  match s with
  | EmptyString => None
  | String c r =>
      let chSize := ord c in
      '(n, r) ←
        (if chSize <? 253 then Some (chSize, r)
         else if chSize =? 253 then
           '(v, r) ← read_le 2 r; if v <? 253 then None else Some (v, r)
         else if chSize =? 254 then
           '(v, r) ← read_le 4 r; if v <? 65536 then None else Some (v, r)
         else
           '(v, r) ← read_le 8 r;
           if v <? 4294967296 then None else Some (v, r));
      if MAX_SIZE <? n then None else Some (n, r)
  end.

(** [is.read(buf, n)]: the next [n] bytes, or failure at end of data. *)
Fixpoint read_bytes (n : nat) (s : string) : option (string * string) :=
  match n with
  | O => Some ("", s)
  | S k =>
      match s with
      | String c r => '(a, b) ← read_bytes k r; Some (String c a, b)
      | EmptyString => None
      end
  end.

Definition strlen (s : string) : Z := Z.of_nat (String.length s).

Definition ser_string (str : string) : string :=
  WriteCompactSize (strlen str) +:+ str.

Definition unser_string (s : string) : option (string * string) :=
  '(n, r) ← ReadCompactSize s; read_bytes (Z.to_nat n) r.

Definition ser_pair (kv : string * string) : string :=
  ser_string kv.1 +:+ ser_string kv.2.

Definition unser_pair (s : string) : option ((string * string) * string) :=
  '(k, r) ← unser_string s; '(v, r) ← unser_string r; Some ((k, v), r).

Fixpoint ser_pairs (l : list (string * string)) : string :=
  match l with
  | [] => ""
  | kv :: l' => ser_pair kv +:+ ser_pairs l'
  end.

(** [std::map::insert]: an entry whose key is present is left alone. *)
Definition map_insert (kv : string * string) (m : mapValue_t) : mapValue_t :=
  match m !! kv.1 with
  | Some _ => m
  | None => <[kv.1 := kv.2]> m
  end.

Fixpoint unser_pairs (n : nat) (s : string) (m : mapValue_t)
  : option (mapValue_t * string) :=
  match n with
  | O => Some (m, s)
  | S k => '(kv, r) ← unser_pair s; unser_pairs k r (map_insert kv m)
  end.

(** [std::map<std::string, std::string>] holds its entries sorted by key
    with [std::less<std::string>]: bytes are compared as unsigned values and
    a proper prefix comes first. *)
Fixpoint string_leb (a b : string) : bool :=
  match a, b with
  | EmptyString, _ => true
  | String _ _, EmptyString => false
  | String x a', String y b' =>
      if ord x <? ord y then true
      else if ord y <? ord x then false
      else string_leb a' b'
  end.

Fixpoint insert_sorted (kv : string * string) (l : list (string * string))
  : list (string * string) :=
  match l with
  | [] => [kv]
  | x :: l' =>
      if string_leb kv.1 x.1 then kv :: l else x :: insert_sorted kv l'
  end.

(** The entries of a map in the order the iteration visits them. *)
Definition sorted_entries (m : mapValue_t) : list (string * string) :=
  foldr insert_sorted [] (map_to_list m).

Definition ser_map (m : mapValue_t) : string :=
  WriteCompactSize (Z.of_nat (size m)) +:+ ser_pairs (sorted_entries m).

Definition unser_map (s : string) : option (mapValue_t * string) :=
  '(n, r) ← ReadCompactSize s; unser_pairs (Z.to_nat n) r ∅.

(** *** Reading back what was written *)

Lemma read_write_le (k : nat) :
  forall n rest, 0 <= n < 256 ^ Z.of_nat k ->
  read_le k (write_le k n +:+ rest) = Some (n, rest).
Proof.
  induction k as [|k IH]; intros n rest Hn.
  - change (256 ^ Z.of_nat 0) with 1 in Hn.
    assert (n = 0) as -> by lia. reflexivity.
  - cbn [write_le]. rewrite string_app_cons. cbn [read_le].
    rewrite Nat2Z.inj_succ, Z.pow_succ_r in Hn by lia.
    rewrite IH.
    + cbn. rewrite ord_chr by (apply Z.mod_pos_bound; lia).
      do 2 f_equal. pose proof (Z.div_mod n 256). lia.
    + split; [apply Z.div_pos; lia|].
      apply Z.div_lt_upper_bound; lia.
Qed.

Lemma ReadCompactSize_Write (n : Z) (rest : string) :
  0 <= n <= MAX_SIZE ->
  ReadCompactSize (WriteCompactSize n +:+ rest) = Some (n, rest).
Proof.
  unfold MAX_SIZE. intros Hn. unfold WriteCompactSize, ReadCompactSize.
  destruct (Z.ltb_spec n 253) as [H1|H1].
  { rewrite string_app_cons, string_app_nil, ord_chr by lia.
    destruct (Z.ltb_spec n 253); [|lia]. cbn.
    unfold MAX_SIZE. destruct (Z.ltb_spec 33554432 n); [lia|done]. }
  destruct (Z.leb_spec n 65535) as [H2|H2].
  { rewrite string_app_cons, ord_chr by lia.
    change (253 <? 253) with false. change (253 =? 253) with true.
    cbn iota. rewrite read_write_le by (change (256 ^ Z.of_nat 2) with 65536; lia).
    cbn. destruct (Z.ltb_spec n 253); [lia|]. cbn.
    unfold MAX_SIZE. destruct (Z.ltb_spec 33554432 n); [lia|done]. }
  destruct (Z.leb_spec n 4294967295) as [H3|H3]; [|lia].
  rewrite string_app_cons, ord_chr by lia.
  change (254 <? 253) with false. change (254 =? 253) with false.
  change (254 =? 254) with true.
  cbn iota.
  rewrite read_write_le by (change (256 ^ Z.of_nat 4) with 4294967296; lia).
  cbn. destruct (Z.ltb_spec n 65536); [lia|]. cbn.
  unfold MAX_SIZE. destruct (Z.ltb_spec 33554432 n); [lia|done].
Qed.

Lemma read_bytes_app (a rest : string) :
  read_bytes (String.length a) (a +:+ rest) = Some (a, rest).
Proof.
  induction a as [|c a IH]; [reflexivity|].
  rewrite string_app_cons. cbn [String.length read_bytes]. by rewrite IH.
Qed.

Lemma unser_ser_string (str rest : string) :
  strlen str <= MAX_SIZE ->
  unser_string (ser_string str +:+ rest) = Some (str, rest).
Proof.
  intros Hlen. unfold unser_string, ser_string.
  rewrite string_app_assoc, ReadCompactSize_Write by (unfold strlen in *; lia).
  cbn. unfold strlen. rewrite Nat2Z.id. apply read_bytes_app.
Qed.

Definition pair_fits (kv : string * string) : Prop :=
  strlen kv.1 <= MAX_SIZE /\ strlen kv.2 <= MAX_SIZE.

Lemma unser_ser_pair (kv : string * string) (rest : string) :
  pair_fits kv -> unser_pair (ser_pair kv +:+ rest) = Some (kv, rest).
Proof.
  intros [Hk Hv]. unfold unser_pair, ser_pair.
  rewrite string_app_assoc, unser_ser_string by done. cbn.
  rewrite unser_ser_string by done. by destruct kv.
Qed.

Lemma unser_ser_pairs (l : list (string * string)) :
  forall m rest, Forall pair_fits l ->
  unser_pairs (length l) (ser_pairs l +:+ rest) m =
  Some (foldl (fun acc kv => map_insert kv acc) m l, rest).
Proof.
  induction l as [|kv l IH]; intros m rest Hfit; [reflexivity|].
  apply Forall_cons in Hfit as [Hkv Hl].
  cbn [ser_pairs length unser_pairs foldl].
  rewrite string_app_assoc, unser_ser_pair by done. cbn.
  by apply IH.
Qed.

(** Inserting the entries of a map one by one rebuilds it. *)
Lemma foldl_map_insert (l : list (string * string)) :
  forall m : mapValue_t,
  NoDup l.*1 -> (forall k, k ∈ l.*1 -> m !! k = None) ->
  foldl (fun acc kv => map_insert kv acc) m l = list_to_map l ∪ m.
Proof.
  induction l as [|[k v] l IH]; intros m Hnd Hfresh.
  - cbn. by rewrite (left_id_L ∅ (∪)).
  - cbn [foldl]. cbn in Hnd. apply NoDup_cons in Hnd as [Hk Hnd].
    unfold map_insert at 2. cbn [fst snd].
    rewrite (Hfresh k) by (cbn; left).
    rewrite IH; [|done|].
    + change (list_to_map ((k, v) :: l) : mapValue_t)
        with (<[k := v]> (list_to_map l : mapValue_t)).
      apply map_eq; intros j. rewrite !lookup_union.
      destruct (decide (k = j)) as [<-|Hne].
      * rewrite !lookup_insert_eq.
        rewrite (not_elem_of_list_to_map_1 l k) by done.
        rewrite (Hfresh k) by (cbn; left). done.
      * rewrite !lookup_insert_ne by done. done.
    + intros j Hj. rewrite lookup_insert_ne; [|intros <-; done].
      apply Hfresh. cbn. by right.
Qed.

(** *** The order of the entries *)

Lemma insert_sorted_perm (kv : string * string) (l : list (string * string)) :
  insert_sorted kv l ≡ₚ kv :: l.
Proof.
  induction l as [|x l IH]; [done|]. cbn [insert_sorted].
  destruct (string_leb kv.1 x.1); [done|]. rewrite IH. apply Permutation_swap.
Qed.

Lemma sorted_entries_perm (m : mapValue_t) : sorted_entries m ≡ₚ map_to_list m.
Proof.
  unfold sorted_entries. induction (map_to_list m) as [|kv l IH]; [done|].
  cbn [foldr]. by rewrite insert_sorted_perm, IH.
Qed.

Lemma string_leb_total (a : string) :
  forall b, string_leb a b = true \/ string_leb b a = true.
Proof.
  induction a as [|x a IH]; intros [|y b]; cbn; auto.
  destruct (Z.ltb_spec (ord x) (ord y)); [by left|].
  destruct (Z.ltb_spec (ord y) (ord x)); [by right|]. apply IH.
Qed.

Lemma string_leb_trans (a : string) :
  forall b c, string_leb a b = true -> string_leb b c = true ->
              string_leb a c = true.
Proof.
  induction a as [|x a IH]; intros [|y b] [|z c]; cbn; try done.
  destruct (Z.ltb_spec (ord x) (ord y)), (Z.ltb_spec (ord y) (ord x)),
    (Z.ltb_spec (ord y) (ord z)), (Z.ltb_spec (ord z) (ord y)),
    (Z.ltb_spec (ord x) (ord z)), (Z.ltb_spec (ord z) (ord x));
    try done; try lia.
  apply IH.
Qed.

Definition key_le (p q : string * string) : Prop := string_leb p.1 q.1 = true.

Lemma insert_sorted_sorted (kv : string * string) (l : list (string * string)) :
  StronglySorted key_le l -> StronglySorted key_le (insert_sorted kv l).
Proof.
  induction 1 as [|x l Hl IH Hx]; cbn [insert_sorted].
  - by repeat constructor.
  - destruct (string_leb kv.1 x.1) eqn:Hle.
    + constructor; [by constructor|]. constructor; [done|].
      eapply Forall_impl; [exact Hx|]. intros y Hy. unfold key_le in *.
      by eapply string_leb_trans.
    + constructor; [done|]. rewrite insert_sorted_perm. constructor; [|done].
      unfold key_le. destruct (string_leb_total kv.1 x.1); congruence.
Qed.

(** The entries are written in increasing order of their keys. *)
Lemma sorted_entries_sorted (m : mapValue_t) :
  StronglySorted key_le (sorted_entries m).
Proof.
  unfold sorted_entries. induction (map_to_list m) as [|kv l IH];
    [constructor|]. cbn [foldr]. by apply insert_sorted_sorted.
Qed.

Example sorted_entries_sample :
  sorted_entries {["n" := "3"; "fromaccount" := ""; "B" := "x"]} =
  [("B", "x"); ("fromaccount", ""); ("n", "3")].
Proof. vm_compute. reflexivity. Qed.

Lemma unser_ser_map (m : mapValue_t) (rest : string) :
  Z.of_nat (size m) <= MAX_SIZE ->
  Forall pair_fits (map_to_list m) ->
  unser_map (ser_map m +:+ rest) = Some (m, rest).
Proof.
  intros Hsize Hfit. unfold unser_map, ser_map.
  rewrite string_app_assoc, ReadCompactSize_Write by lia. cbn.
  pose proof (sorted_entries_perm m) as Hperm.
  assert (Hlen : size m = length (sorted_entries m))
    by (by rewrite Hperm, length_map_to_list).
  assert (Hnd : NoDup (sorted_entries m).*1)
    by (rewrite Hperm; apply NoDup_fst_map_to_list).
  rewrite Nat2Z.id, Hlen.
  rewrite unser_ser_pairs by (by rewrite Hperm). do 2 f_equal.
  rewrite foldl_map_insert.
  - rewrite (list_to_map_proper _ _ Hnd Hperm), list_to_map_to_list.
    by rewrite (right_id_L ∅ (∪)).
  - done.
  - intros k _. apply lookup_empty.
Qed.

End Wire.

(** ** CAccountingEntry *)

Module AcctEntry.
Import Stream Wire.

Record CAccountingEntry := mk {
  strAccount : string;
  nCreditDebit : Z;
  nTime : Z;
  strOtherAccount : string;
  strComment : string;
  mapValue : mapValue_t;
  nOrderPos : Z;
  nEntryNo : Z;
  _ssExtra : string
}.

(** [CAccountingEntry()]: the containers start empty, [SetNull] sets the rest. *)
Definition fresh : CAccountingEntry :=
  {| strAccount := ""; nCreditDebit := 0; nTime := 0; strOtherAccount := "";
     strComment := ""; mapValue := ∅; nOrderPos := -1; nEntryNo := 0;
     _ssExtra := "" |}.

(** Modelled from the spec: the flag [SER_GETHASH] of serialize.h, which is
    not under src/; writer and reader test the same flag of the stream. *)
Definition SER_GETHASH : Z := 4.

Definition for_hash (s : CDataStream) : bool :=
  negb (Z.land (nType s) SER_GETHASH =? 0).

Definition NUL : ascii := Ascii.zero.

(** [str.find("\0", 0, 1)]: position of the first NUL, [None] for [npos]. *)
Fixpoint find_nul (s : string) : option nat :=
  match s with
  | EmptyString => None
  | String c r => if Ascii.eqb c NUL then Some O else S <$> find_nul r
  end.

Fixpoint string_take (n : nat) (s : string) : string :=
  match n, s with
  | S k, String c r => String c (string_take k r)
  | _, _ => ""
  end.

Fixpoint string_drop (n : nat) (s : string) : string :=
  match n, s with
  | S k, String c r => string_drop k r
  | _, _ => s
  end.

Definition is_empty (s : string) : bool :=
  match s with EmptyString => true | _ => false end.

(** The comment field on the wire: the comment, and when there is a map or
    extra data, a NUL followed by the sub-stream. *)
Definition strCommentCopy (e : CAccountingEntry) : string :=
  let mapValueCopy := WriteOrderPos (nOrderPos e) (mapValue e) in
  if negb (bool_decide (mapValueCopy = ∅)) || negb (is_empty (_ssExtra e))
  then
    let ss := String NUL (ser_map mapValueCopy +:+ _ssExtra e) in
    strComment e +:+ ss
  else strComment e.

Definition Serialize (e : CAccountingEntry) (s : CDataStream) : CDataStream :=
  let nVersion := Stream.nVersion s in
  let s := if for_hash s then s else put (it_int nVersion) s in
  let s :=
    put (it_string (strOtherAccount e))
      (put (it_int64 (nTime e)) (put (it_int64 (nCreditDebit e)) s)) in
  put (it_string (strCommentCopy e)) s.

Definition Unserialize (this : CAccountingEntry) (s : CDataStream)
  : option (CAccountingEntry * CDataStream) :=
  '(nVersion, s) ←
     (if for_hash s then Some (Stream.nVersion s, s) else get_int s);
  '(credit, s) ← get_int64 s;
  '(time, s) ← get_int64 s;
  '(other, s) ← get_limited_string 65536 s;
  '(comment, s) ← get_limited_string 65536 s;
  let nSepPos := find_nul comment in
  '(mv, extra) ←
     match nSepPos with
     | Some p => unser_map (string_drop (S p) comment)
     | None => Some (∅, _ssExtra this)
     end;
  let pos := ReadOrderPos mv in
  let comment :=
    match nSepPos with
    | Some p => string_take p comment
    | None => comment
    end in
  Some ({| strAccount := strAccount this;
           nCreditDebit := credit;
           nTime := time;
           strOtherAccount := other;
           strComment := comment;
           mapValue := delete "n" mv;
           nOrderPos := pos;
           nEntryNo := nEntryNo this;
           _ssExtra := extra |}, s).

(** *** Facts on the separator *)

Lemma find_nul_app (a b : string) :
  find_nul a = None -> find_nul (a +:+ String NUL b) = Some (String.length a).
Proof.
  induction a as [|c a IH]; intros Ha; [reflexivity|].
  rewrite string_app_cons. cbn [find_nul String.length] in *.
  destruct (Ascii.eqb c NUL); [discriminate|].
  destruct (find_nul a); [discriminate|]. by rewrite IH.
Qed.

Lemma string_drop_app (a b : string) (c : ascii) :
  string_drop (S (String.length a)) (a +:+ String c b) = b.
Proof.
  induction a as [|x a IH]; [reflexivity|].
  rewrite string_app_cons. cbn [String.length string_drop] in *. exact IH.
Qed.

Lemma string_take_app (a b : string) :
  string_take (String.length a) (a +:+ b) = a.
Proof.
  induction a as [|x a IH]; [by destruct b|].
  rewrite string_app_cons. cbn [String.length string_take]. by rewrite IH.
Qed.

(** *** The written map fits the reader's limits *)

Lemma WriteCompactSize_nonempty (n : Z) :
  (1 <= String.length (WriteCompactSize n))%nat.
Proof.
  unfold WriteCompactSize.
  destruct (n <? 253), (n <=? 65535), (n <=? 4294967295); cbn; lia.
Qed.

Lemma ser_string_length (str : string) :
  (1 + String.length str <= String.length (ser_string str))%nat.
Proof.
  unfold ser_string. rewrite string_length_app.
  pose proof (WriteCompactSize_nonempty (strlen str)). lia.
Qed.

Lemma ser_pairs_length (l : list (string * string)) :
  (length l <= String.length (ser_pairs l))%nat /\
  Forall (fun kv =>
            (String.length kv.1 <= String.length (ser_pairs l))%nat /\
            (String.length kv.2 <= String.length (ser_pairs l))%nat) l.
Proof.
  induction l as [|kv l [IHlen IHall]]; [split; [cbn; lia | constructor]|].
  cbn [ser_pairs length]. unfold ser_pair.
  rewrite !string_length_app.
  pose proof (ser_string_length kv.1). pose proof (ser_string_length kv.2).
  split; [lia|]. constructor; [lia|].
  eapply Forall_impl; [exact IHall|]. cbn. intros x [? ?]. lia.
Qed.

Lemma ser_map_fits (m : mapValue_t) :
  strlen (ser_map m) <= 65536 ->
  Z.of_nat (size m) <= MAX_SIZE /\ Forall pair_fits (map_to_list m).
Proof.
  unfold ser_map, strlen. rewrite string_length_app. intros Hlen.
  destruct (ser_pairs_length (sorted_entries m)) as [Hn Hall].
  set (n := String.length (ser_pairs (sorted_entries m))) in *.
  rewrite (sorted_entries_perm m) in Hn, Hall.
  rewrite length_map_to_list in Hn. unfold MAX_SIZE. split; [lia|].
  eapply Forall_impl; [exact Hall|]. cbn. intros kv [? ?].
  unfold pair_fits, strlen, MAX_SIZE. lia.
Qed.

(** *** Round trip *)

(** [r] carries the persistent fields of [e], the map without "n". *)
Definition restored (e r : CAccountingEntry) : Prop :=
  nCreditDebit r = nCreditDebit e /\ nTime r = nTime e /\
  strOtherAccount r = strOtherAccount e /\ strComment r = strComment e /\
  mapValue r = delete "n" (mapValue e) /\ nOrderPos r = nOrderPos e /\
  _ssExtra r = _ssExtra e.

(** The round trip as the claim words it, for one entry. *)
Definition roundtrip_restores (e : CAccountingEntry) : Prop :=
  find_nul (strComment e) = None ->
  forall type version,
  exists r s,
    Unserialize fresh (Serialize e (Stream.empty type version)) = Some (r, s) /\
    restored e r /\
    Serialize r (Stream.empty type version) =
    Serialize e (Stream.empty type version).

Definition header (type version : Z) : list item :=
  if for_hash (Stream.empty type version) then [] else [it_int version].

Lemma Serialize_items (e : CAccountingEntry) (type version : Z) :
  Serialize e (Stream.empty type version) =
  Stream.mk type version
    (header type version ++
     [it_int64 (nCreditDebit e); it_int64 (nTime e);
      it_string (strOtherAccount e); it_string (strCommentCopy e)]).
Proof.
  unfold Serialize, header.
  destruct (for_hash (Stream.empty type version)); reflexivity.
Qed.

(** The reader on a stream holding the four fields of an entry. *)
Definition read_fields (this : CAccountingEntry) (credit time : Z)
    (other comment : string) : option CAccountingEntry :=
  if 65536 <? strlen other then None
  else if 65536 <? strlen comment then None
  else
    '(mv, extra) ←
       match find_nul comment with
       | Some p => unser_map (string_drop (S p) comment)
       | None => Some (∅, _ssExtra this)
       end;
    Some {| strAccount := strAccount this;
            nCreditDebit := credit;
            nTime := time;
            strOtherAccount := other;
            strComment :=
              match find_nul comment with
              | Some p => string_take p comment
              | None => comment
              end;
            mapValue := delete "n" mv;
            nOrderPos := ReadOrderPos mv;
            nEntryNo := nEntryNo this;
            _ssExtra := extra |}.

Lemma Unserialize_items (this : CAccountingEntry) (type version : Z)
    (credit time : Z) (other comment : string) :
  Unserialize this
    (Stream.mk type version
       (header type version ++
        [it_int64 credit; it_int64 time; it_string other; it_string comment])) =
  (fun r => (r, Stream.empty type version)) <$>
    read_fields this credit time other comment.
Proof.
  unfold Unserialize, header, read_fields, strlen.
  change (for_hash (Stream.mk type version _))
    with (for_hash (Stream.empty type version)).
  destruct (for_hash (Stream.empty type version)); cbn;
    (destruct (_ <? _); [reflexivity|]); cbn;
    (destruct (_ <? _); [reflexivity|]); cbn;
    (destruct (find_nul comment);
       [destruct (unser_map _) as [[? ?]|]|]; reflexivity).
Qed.

(** The map written for an entry, and what the reader makes of it. *)
Definition mapValueCopy (e : CAccountingEntry) : mapValue_t :=
  WriteOrderPos (nOrderPos e) (mapValue e).

Lemma mapValueCopy_read (e : CAccountingEntry) :
  in_int64 (nOrderPos e) ->
  (nOrderPos e = -1 -> mapValue e !! "n" = None) ->
  ReadOrderPos (mapValueCopy e) = nOrderPos e /\
  delete "n" (mapValueCopy e) = delete "n" (mapValue e) /\
  WriteOrderPos (nOrderPos e) (delete "n" (mapValue e)) = mapValueCopy e.
Proof.
  intros Hpos Hn. unfold mapValueCopy.
  destruct (Z.eq_dec (nOrderPos e) (-1)) as [E|E].
  - rewrite E. unfold WriteOrderPos, ReadOrderPos. cbn.
    rewrite (Hn E). repeat split. by rewrite delete_id by auto.
  - split; [by apply ReadOrderPos_WriteOrderPos|].
    unfold WriteOrderPos. destruct (Z.eqb_spec (nOrderPos e) (-1)); [done|].
    split; [apply delete_insert_eq | apply insert_delete_eq].
Qed.

Lemma strCommentCopy_ext (r e : CAccountingEntry) :
  strComment r = strComment e -> mapValueCopy r = mapValueCopy e ->
  _ssExtra r = _ssExtra e -> strCommentCopy r = strCommentCopy e.
Proof.
  unfold strCommentCopy, mapValueCopy. by intros -> -> ->.
Qed.

Lemma restored_strCommentCopy (r e : CAccountingEntry) :
  in_int64 (nOrderPos e) ->
  (nOrderPos e = -1 -> mapValue e !! "n" = None) ->
  restored e r -> strCommentCopy r = strCommentCopy e.
Proof.
  intros Hpos Hn (_ & _ & _ & Hc & Hm & Hp & Hx).
  apply strCommentCopy_ext; [done| |done].
  unfold mapValueCopy at 1. rewrite Hm, Hp.
  by destruct (mapValueCopy_read e Hpos Hn) as (_ & _ & ->).
Qed.

Lemma read_fields_restored (this e : CAccountingEntry) :
  find_nul (strComment e) = None ->
  in_int64 (nOrderPos e) ->
  (nOrderPos e = -1 -> mapValue e !! "n" = None) ->
  strlen (strOtherAccount e) <= 65536 ->
  strlen (strCommentCopy e) <= 65536 ->
  _ssExtra this = "" ->
  exists r,
    read_fields this (nCreditDebit e) (nTime e) (strOtherAccount e)
      (strCommentCopy e) = Some r /\
    restored e r /\
    strAccount r = strAccount this /\ nEntryNo r = nEntryNo this.
Proof.
  intros Hnul Hpos Hn Hother Hcomment Hthis.
  destruct (mapValueCopy_read e Hpos Hn) as (Hread & Hdel & Hwrite).
  unfold read_fields.
  destruct (Z.ltb_spec 65536 (strlen (strOtherAccount e))); [lia|].
  destruct (Z.ltb_spec 65536 (strlen (strCommentCopy e))); [lia|].
  unfold strCommentCopy in *. fold (mapValueCopy e) in *.
  destruct (negb (bool_decide (mapValueCopy e = ∅))
            || negb (is_empty (_ssExtra e))) eqn:Hsub.
  - rewrite find_nul_app, string_drop_app, string_take_app by done.
    assert (Hfit : strlen (ser_map (mapValueCopy e)) <= 65536).
    { unfold strlen in *. rewrite string_length_app in Hcomment.
      cbn [String.length] in Hcomment. rewrite string_length_app in Hcomment.
      lia. }
    apply ser_map_fits in Hfit as [Hsize Hall].
    rewrite unser_ser_map by done. cbn.
    eexists. split; [reflexivity|]. unfold restored. cbn.
    rewrite Hread, Hdel. done.
  - apply orb_false_iff in Hsub as [Hmap Hextra].
    apply negb_false_iff, bool_decide_eq_true in Hmap.
    apply negb_false_iff in Hextra.
    assert (_ssExtra e = "") as Hx by (by destruct (_ssExtra e)).
    rewrite Hnul. cbn.
    eexists. split; [reflexivity|]. unfold restored. cbn.
    rewrite Hmap in Hread, Hdel.
    rewrite Hthis, Hx, <- Hread, <- Hdel. done.
Qed.

(** An entry whose comment is one byte over the reader's limit, and one
    whose map holds the reserved key "n" while its order position is unset. *)
Fixpoint string_repeat (c : ascii) (n : nat) : string :=
  match n with
  | O => ""
  | S k => String c (string_repeat c k)
  end.

Definition entry_long_comment : CAccountingEntry :=
  {| strAccount := ""; nCreditDebit := 0; nTime := 0; strOtherAccount := "";
     strComment := string_repeat "a" (Z.to_nat 65537);
     mapValue := ∅; nOrderPos := -1; nEntryNo := 0; _ssExtra := "" |}.

Definition entry_with_n : CAccountingEntry :=
  {| strAccount := ""; nCreditDebit := 0; nTime := 0; strOtherAccount := "";
     strComment := "gift";
     mapValue := {["n" := "5"]}; nOrderPos := -1; nEntryNo := 0;
     _ssExtra := "" |}.

(** C9, as stated, fails: a comment longer than 65536 bytes is written but
    refused by the reader, and a key "n" already in the map is read back as
    the order position (5 instead of -1). *)
Lemma entry_roundtrip_cex :
  ~ roundtrip_restores entry_long_comment /\ ~ roundtrip_restores entry_with_n.
Proof.
  split; intros H.
  - destruct (H ltac:(vm_compute; reflexivity) 0 0) as (r & s & Hread & _).
    vm_compute in Hread. discriminate Hread.
  - destruct (H ltac:(vm_compute; reflexivity) 0 0)
      as (r & s & Hread & (_ & _ & _ & _ & _ & Hpos & _) & _).
    vm_compute in Hread. injection Hread as <- _.
    vm_compute in Hpos. discriminate Hpos.
Qed.

(** C9, amended. Let the comment hold no NUL, the map not hold "n" while
    [nOrderPos] is -1, and [strOtherAccount] and the comment field as
    written (comment, separator, map and extra bytes) be at most 65536 bytes
    long. Then [Unserialize], run on an entry without extra bytes such as a
    new one, succeeds on what [Serialize] wrote and restores [nCreditDebit],
    [nTime], [strOtherAccount], [strComment], the map without "n",
    [nOrderPos] and the extra bytes, keeps [strAccount] and [nEntryNo] of the
    receiving entry, and a further [Serialize] writes the same values. *)
Theorem entry_roundtrip (e this : CAccountingEntry) (type version : Z) :
  find_nul (strComment e) = None ->
  in_int64 (nOrderPos e) ->
  (nOrderPos e = -1 -> mapValue e !! "n" = None) ->
  strlen (strOtherAccount e) <= 65536 ->
  strlen (strCommentCopy e) <= 65536 ->
  _ssExtra this = "" ->
  exists r,
    Unserialize this (Serialize e (Stream.empty type version)) =
      Some (r, Stream.empty type version) /\
    restored e r /\
    strAccount r = strAccount this /\ nEntryNo r = nEntryNo this /\
    Serialize r (Stream.empty type version) =
    Serialize e (Stream.empty type version).
Proof.
  intros Hnul Hpos Hn Hother Hcomment Hthis.
  destruct (read_fields_restored this e Hnul Hpos Hn Hother Hcomment Hthis)
    as (r & Hread & Hres & Hacc & Hno).
  pose proof (restored_strCommentCopy r e Hpos Hn Hres) as Hcopy.
  exists r. rewrite Serialize_items, Unserialize_items, Hread.
  repeat split; try apply Hres; try done.
  rewrite !Serialize_items, Hcopy.
  destruct Hres as (-> & -> & -> & _). done.
Qed.

Definition entry_sample : CAccountingEntry :=
  {| strAccount := "savings"; nCreditDebit := -2500; nTime := 1540000000;
     strOtherAccount := "rent"; strComment := "gift";
     mapValue := {["k" := "v"; "n" := "stale"]}; nOrderPos := 3;
     nEntryNo := 8; _ssExtra := "xy" |}.

Example entry_sample_comment :
  strCommentCopy entry_sample =
  "gift" +:+ String NUL
    (String (chr 2) (String (chr 1) "k" +:+ String (chr 1) "v" +:+
                     String (chr 1) "n" +:+ String (chr 1) "3") +:+ "xy").
Proof. vm_compute. reflexivity. Qed.

Lemma entry_roundtrip_witness :
  exists r,
    Unserialize fresh (Serialize entry_sample (Stream.empty 0 0)) =
      Some (r, Stream.empty 0 0) /\
    restored entry_sample r /\
    strAccount r = strAccount fresh /\ nEntryNo r = nEntryNo fresh /\
    Serialize r (Stream.empty 0 0) = Serialize entry_sample (Stream.empty 0 0).
Proof.
  apply (entry_roundtrip entry_sample fresh 0 0).
  - vm_compute. reflexivity.
  - vm_compute. split; discriminate.
  - intros H. vm_compute in H. discriminate H.
  - vm_compute. discriminate.
  - vm_compute. discriminate.
  - reflexivity.
Defined.

End AcctEntry.

(** ** WalletRescanReserver

    Every method body runs under [mutexScanning], so a method is one atomic
    step on the wallet's flag [fScanningWallet] and the reserver's own
    [m_could_reserve]. *)

Module Rescan.

Record WalletRescanReserver := mk { m_could_reserve : bool }.

(** [explicit WalletRescanReserver(CWalletRef w)] *)
Definition make : WalletRescanReserver := {| m_could_reserve := false |}.

(** [reserve()]: the result, the reserver and the wallet flag afterwards;
    [None] when the assertion [!m_could_reserve] fails. *)
Definition reserve (r : WalletRescanReserver) (fScanningWallet : bool)
  : option (bool * WalletRescanReserver * bool) :=
  if m_could_reserve r then None
  else if fScanningWallet then Some (false, r, fScanningWallet)
  else Some (true, {| m_could_reserve := true |}, true).

Definition isReserved (r : WalletRescanReserver) (fScanningWallet : bool) : bool :=
  m_could_reserve r && fScanningWallet.

(** [~WalletRescanReserver()]: the wallet flag afterwards. *)
Definition destroy (r : WalletRescanReserver) (fScanningWallet : bool) : bool :=
  if m_could_reserve r then false else fScanningWallet.

(** A wallet together with the reservers alive for it, named by number. *)
Record system := mkSystem {
  fScanningWallet : bool;
  reservers : gmap nat WalletRescanReserver
}.

(** [CWallet::SetNull] clears the flag; no reserver exists yet. *)
Definition initial : system := {| fScanningWallet := false; reservers := ∅ |}.

Inductive op := New (id : nat) | Reserve (id : nat) | Destroy (id : nat).

Definition exec (o : op) (s : system) : option system :=
  match o with
  | New id =>
      match reservers s !! id with
      | Some _ => None
      | None =>
          Some {| fScanningWallet := fScanningWallet s;
                  reservers := <[id := make]> (reservers s) |}
      end
  | Reserve id =>
      r ← reservers s !! id;
      '(res, r', w') ← reserve r (fScanningWallet s);
      Some {| fScanningWallet := w'; reservers := <[id := r']> (reservers s) |}
  | Destroy id =>
      r ← reservers s !! id;
      Some {| fScanningWallet := destroy r (fScanningWallet s);
              reservers := delete id (reservers s) |}
  end.

Fixpoint run (ops : list op) (s : system) : option system :=
  match ops with
  | [] => Some s
  | o :: ops' => s' ← exec o s; run ops' s'
  end.

Definition reachable (s : system) : Prop := exists ops, run ops initial = Some s.

(** Reserver [id] is alive and has reserved. *)
Definition holds (s : system) (id : nat) : Prop :=
  exists r, reservers s !! id = Some r /\ m_could_reserve r = true.

(** The flag is set exactly when some reserver holds, and holders coincide. *)
Definition exclusive (s : system) : Prop :=
  (fScanningWallet s = true <-> exists id, holds s id) /\
  (forall i j, holds s i -> holds s j -> i = j).

Lemma exclusive_initial : exclusive initial.
Proof.
  split; [split|].
  - discriminate.
  - intros (id & r & Hr & _). cbn in Hr. by rewrite lookup_empty in Hr.
  - intros i j (r & Hr & _). cbn in Hr. by rewrite lookup_empty in Hr.
Qed.

Lemma holds_insert (s : system) (w : bool) (id i : nat)
    (r : WalletRescanReserver) :
  holds {| fScanningWallet := w; reservers := <[id := r]> (reservers s) |} i <->
  (i = id /\ m_could_reserve r = true) \/ (i <> id /\ holds s i).
Proof.
  unfold holds; cbn. destruct (decide (id = i)) as [->|Hne].
  - rewrite lookup_insert_eq. split.
    + intros (r' & [= <-] & Hr). by left.
    + intros [[_ Hr]|[Hne _]]; [eauto|done].
  - rewrite lookup_insert_ne by done. split.
    + intros H. right. split; [congruence|done].
    + intros [[-> _]|[_ H]]; done.
Qed.

Lemma holds_delete (s : system) (w : bool) (id i : nat) :
  holds {| fScanningWallet := w; reservers := delete id (reservers s) |} i <->
  i <> id /\ holds s i.
Proof.
  unfold holds; cbn. destruct (decide (id = i)) as [->|Hne].
  - rewrite lookup_delete_eq. split; [intros (r & [=] & _)|intros [? _]; done].
  - rewrite lookup_delete_ne by done. split; [intros H; split; congruence|tauto].
Qed.

Lemma exclusive_exec (o : op) (s s' : system) :
  exclusive s -> exec o s = Some s' -> exclusive s'.
Proof.
  intros [Hflag Huniq] Hexec. destruct o as [id|id|id]; cbn in Hexec.
  - destruct (reservers s !! id) eqn:Hid; [discriminate|].
    injection Hexec as <-. split; [split|].
    + cbn. intros Hw. destruct (proj1 Hflag Hw) as (i & Hi).
      exists i. apply holds_insert. right. split; [|done].
      intros ->. destruct Hi as (r & Hr & _). congruence.
    + intros (i & Hi). apply holds_insert in Hi as [[_ Hi]|[_ Hi]];
        [discriminate|]. apply Hflag. eauto.
    + intros i j Hi Hj.
      apply holds_insert in Hi as [[_ Hi]|[_ Hi]]; [discriminate|].
      apply holds_insert in Hj as [[_ Hj]|[_ Hj]]; [discriminate|]. auto.
  - destruct (reservers s !! id) as [r|] eqn:Hid; [|discriminate]. cbn in Hexec.
    unfold reserve in Hexec.
    destruct (m_could_reserve r) eqn:Hr; [discriminate|].
    destruct (fScanningWallet s) eqn:Hw; injection Hexec as <-.
    + rewrite insert_id by done. destruct s; cbn in *. subst. by split.
    + assert (Hnone : forall i, ~ holds s i).
      { intros i Hi. assert (false = true) by (apply Hflag; eauto). done. }
      split; [split|].
      * intros _. exists id. apply holds_insert. by left.
      * done.
      * intros i j Hi Hj.
        apply holds_insert in Hi as [[-> _]|[_ Hi]]; [|by destruct (Hnone i)].
        apply holds_insert in Hj as [[-> _]|[_ Hj]]; [|by destruct (Hnone j)].
        done.
  - destruct (reservers s !! id) as [r|] eqn:Hid; [|discriminate].
    injection Hexec as <-. unfold destroy.
    destruct (m_could_reserve r) eqn:Hr.
    + assert (Hid' : holds s id) by (exists r; done).
      assert (Hnone : forall i w, ~ holds
                {| fScanningWallet := w; reservers := delete id (reservers s) |} i).
      { intros i w Hi. apply holds_delete in Hi as [Hne Hi].
        apply Hne. by apply Huniq. }
      split; [split|].
      * discriminate.
      * intros (i & Hi). by destruct (Hnone i false).
      * intros i j Hi. by destruct (Hnone i false).
    + split; [split|].
      * cbn. intros Hw. destruct (proj1 Hflag Hw) as (i & Hi).
        exists i. apply holds_delete. split; [|done].
        intros ->. destruct Hi as (r' & Hr' & Hc). congruence.
      * intros (i & Hi). apply holds_delete in Hi as [_ Hi]. apply Hflag. eauto.
      * intros i j Hi Hj. apply holds_delete in Hi as [_ Hi].
        apply holds_delete in Hj as [_ Hj]. auto.
Qed.

Lemma exclusive_run (ops : list op) :
  forall s s', exclusive s -> run ops s = Some s' -> exclusive s'.
Proof.
  induction ops as [|o ops IH]; intros s s' Hs Hrun; cbn in Hrun.
  - by injection Hrun as <-.
  - destruct (exec o s) as [s1|] eqn:Hexec; [|discriminate]. cbn in Hrun.
    eapply IH; [|exact Hrun]. by eapply exclusive_exec.
Qed.

Lemma reachable_exclusive (s : system) : reachable s -> exclusive s.
Proof. intros [ops Hrun]. eapply exclusive_run; [apply exclusive_initial|done]. Qed.

(** What one call of [reserve] does. *)
Lemma reserve_spec (r r' : WalletRescanReserver) (w w' res : bool) :
  reserve r w = Some (res, r', w') ->
  (res = true <-> w = false) /\
  (res = true -> w' = true /\ m_could_reserve r' = true) /\
  (res = false -> r' = r /\ w' = w).
Proof.
  unfold reserve. destruct (m_could_reserve r); [discriminate|].
  destruct w; intros [= <- <- <-]; repeat split; done.
Qed.

(** C6. [reserve] returns true, setting the wallet flag, only when the flag
    was clear. In every state reached by creating, reserving and destroying
    reservers of one wallet, at most one reserver holds the reservation;
    while reserver [i] holds it, [reserve] on any other live reserver returns
    false and changes nothing; and destroying the holder clears the flag. *)
Theorem rescan_reservation_exclusive (s : system) :
  reachable s ->
  (forall r w res r' w',
     reserve r w = Some (res, r', w') ->
     (res = true <-> w = false) /\
     (res = true -> w' = true /\ m_could_reserve r' = true) /\
     (res = false -> r' = r /\ w' = w)) /\
  (forall i j ri rj,
     reservers s !! i = Some ri -> reservers s !! j = Some rj ->
     isReserved ri (fScanningWallet s) = true ->
     isReserved rj (fScanningWallet s) = true -> i = j) /\
  (forall i j ri rj,
     reservers s !! i = Some ri -> isReserved ri (fScanningWallet s) = true ->
     reservers s !! j = Some rj -> j <> i ->
     reserve rj (fScanningWallet s) = Some (false, rj, fScanningWallet s) /\
     exec (Reserve j) s = Some s) /\
  (forall i ri,
     reservers s !! i = Some ri -> isReserved ri (fScanningWallet s) = true ->
     destroy ri (fScanningWallet s) = false /\
     exists s', exec (Destroy i) s = Some s' /\ fScanningWallet s' = false /\
                forall j, ~ holds s' j).
Proof.
  intros Hreach. destruct (reachable_exclusive s Hreach) as [Hflag Huniq].
  split; [intros; by eapply reserve_spec|]. split; [|split].
  - intros i j ri rj Hi Hj [Hci _]%andb_true_iff [Hcj _]%andb_true_iff.
    apply Huniq; eexists; eauto.
  - intros i j ri rj Hi [Hci Hw]%andb_true_iff Hj Hne.
    assert (Hcj : m_could_reserve rj = false).
    { destruct (m_could_reserve rj) eqn:E; [|done].
      destruct Hne. apply Huniq; eexists; eauto. }
    assert (Hres : reserve rj (fScanningWallet s)
                   = Some (false, rj, fScanningWallet s)).
    { unfold reserve. by rewrite Hcj, Hw. }
    split; [done|]. unfold exec. rewrite Hj. cbn [mbind option_bind].
    rewrite Hres. cbn [mbind option_bind].
    rewrite insert_id by done. by destruct s.
  - intros i ri Hi [Hci Hw]%andb_true_iff.
    split; [unfold destroy; by rewrite Hci|].
    eexists. split; [cbn; rewrite Hi; reflexivity|].
    unfold destroy. rewrite Hci. split; [done|].
    intros j Hj. apply holds_delete in Hj as [Hne Hj].
    apply Hne. apply Huniq; [done|]. eexists; eauto.
Qed.

Definition two_reservers : system :=
  {| fScanningWallet := true;
     reservers := {[ 1%nat := mk true; 2%nat := mk false ]} |}.

Lemma rescan_reservation_exclusive_witness :
  reachable two_reservers /\
  reserve (mk false) true = Some (false, mk false, true) /\
  destroy (mk true) true = false.
Proof.
  assert (Hreach : reachable two_reservers).
  { exists [New 2%nat; New 1%nat; Reserve 1%nat]. vm_compute. reflexivity. }
  split; [exact Hreach|].
  destruct (rescan_reservation_exclusive two_reservers Hreach)
    as (_ & _ & Hother & Hdestroy).
  split.
  - apply (Hother 1%nat 2%nat (mk true) (mk false)); [reflexivity.. | lia].
  - apply (Hdestroy 1%nat (mk true)); reflexivity.
Defined.

End Rescan.

(** ** Key pool

    The header declares the key pool members and methods of [CWallet]
    ([setInternalKeyPool], [setExternalKeyPool], [m_max_keypool_index],
    [GetKeyPoolSize]) and the handle [CReserveKey]; the bodies of the other
    methods are in wallet.cpp, which is not under src/, and are modelled from
    section 4.2 of the specification. *)

Module KeyPool.

(** [CKeyPool] (wallet.h); a public key is a number, 0 being the invalid
    key [CPubKey()]. *)
Record CKeyPool := mkKeyPool { nTime : Z; vchPubKey : Z; fInternal : bool }.

Record wallet := mkWallet {
  setInternalKeyPool : gset Z;
  setExternalKeyPool : gset Z;
  m_max_keypool_index : Z;
  pool_db : gmap Z CKeyPool;      (* the "pool" records of the database *)
  locked : bool                   (* encrypted and locked *)
}.

(** [CWallet::GetKeyPoolSize] (wallet.h): the sum of two [size_t] returned
    as [unsigned int]. *)
Definition GetKeyPoolSize (w : wallet) : Z :=
  to_uint32 (Z.of_nat (size (setInternalKeyPool w)) +
             Z.of_nat (size (setExternalKeyPool w))).

(** The set of one chain. *)
Definition pool (internal : bool) (w : wallet) : gset Z :=
  if internal then setInternalKeyPool w else setExternalKeyPool w.

Definition set_pool (internal : bool) (s : gset Z) (w : wallet) : wallet :=
  if internal
  then mkWallet s (setExternalKeyPool w) (m_max_keypool_index w) (pool_db w)
         (locked w)
  else mkWallet (setInternalKeyPool w) s (m_max_keypool_index w) (pool_db w)
         (locked w).

Definition set_db (db : gmap Z CKeyPool) (w : wallet) : wallet :=
  mkWallet (setInternalKeyPool w) (setExternalKeyPool w)
    (m_max_keypool_index w) db (locked w).

Definition set_max (m : Z) (w : wallet) : wallet :=
  mkWallet (setInternalKeyPool w) (setExternalKeyPool w) m (pool_db w)
    (locked w).

(** [*set.begin()]: the lowest index of a set. *)
Definition lowest (s : gset Z) : option Z :=
  match elements s with
  | [] => None
  | x :: l => Some (foldr Z.min x l)
  end.

Section Operations.
(** The child key of a chain at a pool index (HD derivation, section 4.2)
    and the creation time stamped on new entries come from outside. *)
Variable derive : bool -> Z -> Z.
Variable now : Z.

(** Modelled from the spec: [CWallet::LoadKeyPool] (body not under src/);
    the loader's visitor for one "pool" record: the index enters the set its
    record names, and the highest index seen is kept. *)
Definition LoadKeyPool (nIndex : Z) (keypool : CKeyPool) (w : wallet) : wallet :=
  set_max (Z.max (m_max_keypool_index w) nIndex)
    (set_pool (fInternal keypool)
       ({[nIndex]} ∪ pool (fInternal keypool) w) w).

(** [CWallet::SetNull] (wallet.h), for the members modelled here. *)
Definition SetNull (is_locked : bool) : wallet :=
  mkWallet ∅ ∅ 0 ∅ is_locked.

(** Modelled from the spec: [CWallet::LoadWallet] (body not under src/);
    "load(visitor) streams every record to the visitor", one record per
    database key. *)
Definition LoadWallet (db : gmap Z CKeyPool) (is_locked : bool) : wallet :=
  map_fold LoadKeyPool (set_db db (SetNull is_locked)) db.

(** Modelled from the spec: one round of top-up on a chain, "derive the next
    child key on that chain, persist the entry, insert into the in-memory
    index set"; the pool is "indexed by a monotonically increasing 64-bit
    integer", and the round fails once that integer is exhausted. *)
Definition add_key (internal : bool) (w : wallet) : option wallet :=
  if INT64_MAX <=? m_max_keypool_index w then None
  else
    let index := m_max_keypool_index w + 1 in
    let entry := mkKeyPool now (derive internal index) internal in
    Some (set_db (<[index := entry]> (pool_db w))
            (set_pool internal ({[index]} ∪ pool internal w)
               (set_max index w))).

Definition pool_size (internal : bool) (w : wallet) : Z :=
  Z.of_nat (size (pool internal w)).

Fixpoint top_up_loop (fuel : nat) (target_size : Z) (w : wallet)
  : option wallet :=
  match fuel with
  | O => Some w
  | S n =>
      if pool_size true w <? target_size then
        w' ← add_key true w; top_up_loop n target_size w'
      else if pool_size false w <? target_size then
        w' ← add_key false w; top_up_loop n target_size w'
      else Some w
  end.

(** Modelled from the spec: [CWallet::TopUpKeyPool] (body not under src/);
    "while either pool size < target_size" a key is added to that chain;
    "fails with Locked if the wallet is encrypted and locked". The loop runs
    once per missing key. *)
Definition TopUpKeyPool (target_size : Z) (w : wallet) : option wallet :=
  if locked w then None
  else
    let missing :=
      Z.max 0 (target_size - pool_size true w) +
      Z.max 0 (target_size - pool_size false w) in
    top_up_loop (Z.to_nat missing) target_size w.

(** The entries of both sets with index at most [id] are dropped, with
    their records. *)
Definition drop_upto (id : Z) (w : wallet) : wallet :=
  let used i := bool_decide (i ∈ setInternalKeyPool w ∪ setExternalKeyPool w)
                && (i <=? id) in
  mkWallet (filter (fun i => id < i) (setInternalKeyPool w))
    (filter (fun i => id < i) (setExternalKeyPool w))
    (m_max_keypool_index w)
    (filter (fun kv => used kv.1 = false) (pool_db w))
    (locked w).

(** Modelled from the spec: [CWallet::MarkReserveKeysAsUsed] (body not under
    src/); "mark all pool entries with index <= index as used (deleted)". *)
Definition MarkReserveKeysAsUsed (keypool_id : Z) (w : wallet) : wallet :=
  drop_upto keypool_id w.

(** Modelled from the spec: [CWallet::NewKeyPool] (body not under src/). The
    specification names no separate behaviour for it; it is taken to discard
    every pool entry and top the pool up again. *)
Definition NewKeyPool (target_size : Z) (w : wallet) : option wallet :=
  TopUpKeyPool target_size (drop_upto (m_max_keypool_index w) w).

(** The record of a pool index, read into a [CKeyPool] that starts with the
    invalid key. *)
Definition entry_of (w : wallet) (i : Z) : CKeyPool :=
  default (mkKeyPool 0 0 false) (pool_db w !! i).

(** Modelled from the spec: [CWallet::ReserveKeyFromKeyPool] (body not under
    src/); "pop the lowest-indexed entry from the requested set; if the
    requested set is empty, fall back to the other"; "returns a sentinel
    pubkey if no keys remain" (index -1, invalid key). The result is the
    index, the entry handed out through the [CKeyPool&] parameter of the
    header and the wallet afterwards. The entry carries the time and key of
    its record and, as [fInternal], the chain of the set it was popped from:
    an entry of the internal set is an internal entry (in every reachable
    state that is the chain its record names, [reserved_entry_is_record]). *)
Definition ReserveKeyFromKeyPool (fRequestedInternal : bool) (w : wallet)
  : Z * CKeyPool * wallet :=
  let entry chain i :=
    mkKeyPool (nTime (entry_of w i)) (vchPubKey (entry_of w i)) chain in
  match lowest (pool fRequestedInternal w) with
  | Some i =>
      (i, entry fRequestedInternal i,
       set_pool fRequestedInternal (pool fRequestedInternal w ∖ {[i]}) w)
  | None =>
      match lowest (pool (negb fRequestedInternal) w) with
      | Some i =>
          (i, entry (negb fRequestedInternal) i,
           set_pool (negb fRequestedInternal)
             (pool (negb fRequestedInternal) w ∖ {[i]}) w)
      | None => (-1, mkKeyPool 0 0 false, w)
      end
  end.

(** Modelled from the spec: [CWallet::KeepKey] (body not under src/);
    "permanently consume the reserved index; delete from database". *)
Definition KeepKey (nIndex : Z) (w : wallet) : wallet :=
  set_db (delete nIndex (pool_db w)) w.

(** Modelled from the spec: [CWallet::ReturnKey] (body not under src/);
    "put it back into the chosen set, making it available for the next
    reserve". *)
Definition ReturnKey (nIndex : Z) (internal : bool) (pubkey : Z) (w : wallet)
  : wallet :=
  set_pool internal ({[nIndex]} ∪ pool internal w) w.

End Operations.

(** *** The handle [CReserveKey]

    The members [nIndex], [vchPubKey] and [fInternal] of the class carry the
    prefix [rk_] to keep them apart from those of [CKeyPool]. *)

Record CReserveKey := mkReserveKey {
  rk_nIndex : Z;
  rk_vchPubKey : Z;
  rk_fInternal : bool
}.

(** [explicit CReserveKey(CWallet* pwalletIn)] (wallet.h). *)
Definition new_handle : CReserveKey :=
  {| rk_nIndex := -1; rk_vchPubKey := 0; rk_fInternal := false |}.

(** Modelled from the spec: [CReserveKey::GetReservedKey] (body not under
    src/); a handle without a key reserves one and keeps the index, the key
    and the chain of the entry it was handed. The header names the handle's
    flag and the parameter of [CWallet::ReturnKey] [fInternal], as the field
    of the [CKeyPool] that [ReserveKeyFromKeyPool] fills, and keeps
    [fRequestedInternal] for the request alone; so "return re-inserts into
    the right set" is read as the set the entry belongs to. *)
Definition GetReservedKey (internal : bool) (h : CReserveKey) (w : wallet)
  : bool * CReserveKey * wallet :=
  if rk_nIndex h =? -1 then
    let '(i, keypool, w') := ReserveKeyFromKeyPool internal w in
    if i =? -1 then (false, h, w')
    else (true, mkReserveKey i (vchPubKey keypool) (fInternal keypool), w')
  else (true, h, w).

(** Modelled from the spec: [CReserveKey::ReturnKey] (body not under src/);
    "the caller drops the handle, returning the key to the pool". *)
Definition handle_ReturnKey (h : CReserveKey) (w : wallet) : CReserveKey * wallet :=
  (new_handle,
   if rk_nIndex h =? -1 then w
   else ReturnKey (rk_nIndex h) (rk_fInternal h) (rk_vchPubKey h) w).

(** Modelled from the spec: [CReserveKey::KeepKey] (body not under src/);
    the caller "calls keep() on the reserve key". *)
Definition handle_KeepKey (h : CReserveKey) (w : wallet) : CReserveKey * wallet :=
  (new_handle, if rk_nIndex h =? -1 then w else KeepKey (rk_nIndex h) w).

(** [~CReserveKey()] (wallet.h): [ReturnKey()]. *)
Definition destroy_handle (h : CReserveKey) (w : wallet) : wallet :=
  (handle_ReturnKey h w).2.

(** *** The lowest index of a set *)

Lemma foldr_min_elem (x : Z) (l : list Z) : foldr Z.min x l ∈ x :: l.
Proof.
  induction l as [|y l IH]; cbn; [set_solver|].
  destruct (Z.min_spec y (foldr Z.min x l)) as [[_ ->]|[_ ->]]; set_solver.
Qed.

Lemma foldr_min_le (x : Z) (l : list Z) (y : Z) :
  y ∈ x :: l -> foldr Z.min x l <= y.
Proof.
  induction l as [|z l IH]; cbn; intros Hy.
  - apply list_elem_of_singleton in Hy. lia.
  - assert (y = z \/ y ∈ x :: l) as [->|Hin] by set_solver; [lia|].
    specialize (IH Hin). lia.
Qed.

Lemma lowest_Some (s : gset Z) (x : Z) :
  lowest s = Some x <-> x ∈ s /\ forall y, y ∈ s -> x <= y.
Proof.
  unfold lowest. split.
  - destruct (elements s) as [|z l] eqn:E; [discriminate|].
    intros [= <-]. split.
    + apply elem_of_elements. rewrite E. apply foldr_min_elem.
    + intros y Hy. apply foldr_min_le. rewrite <- E. by apply elem_of_elements.
  - intros [Hx Hmin]. destruct (elements s) as [|z l] eqn:E.
    + apply elem_of_elements in Hx. rewrite E in Hx. by apply elem_of_nil in Hx.
    + f_equal. apply Z.le_antisymm.
      * apply foldr_min_le. rewrite <- E. by apply elem_of_elements.
      * apply Hmin. apply elem_of_elements. rewrite E. apply foldr_min_elem.
Qed.

Lemma lowest_None (s : gset Z) : lowest s = None <-> s = ∅.
Proof.
  unfold lowest. split.
  - destruct (elements s) eqn:E; [|discriminate].
    intros _. by apply elements_empty_inv in E; apply leibniz_equiv in E.
  - intros ->. by rewrite elements_empty.
Qed.

Lemma lowest_reinsert (s : gset Z) (i : Z) :
  lowest s = Some i -> {[i]} ∪ s ∖ {[i]} = s.
Proof.
  intros [Hi _]%lowest_Some. apply set_eq. intros y.
  destruct (decide (y = i)) as [->|]; set_solver.
Qed.

Lemma set_pool_pool (internal : bool) (w : wallet) :
  set_pool internal (pool internal w) w = w.
Proof. by destruct w, internal. Qed.

Lemma pool_set_pool (internal : bool) (s : gset Z) (w : wallet) :
  pool internal (set_pool internal s w) = s /\
  pool (negb internal) (set_pool internal s w) = pool (negb internal) w /\
  pool_db (set_pool internal s w) = pool_db w.
Proof. by destruct internal. Qed.

Lemma set_pool_twice (internal : bool) (s t : gset Z) (w : wallet) :
  set_pool internal s (set_pool internal t w) = set_pool internal s w.
Proof. by destruct internal. Qed.

(** *** Reserve, then drop the handle *)

(** The chain whose set [ReserveKeyFromKeyPool] takes the index from. *)
Definition drawn_from (fRequestedInternal : bool) (w : wallet) : bool :=
  match lowest (pool fRequestedInternal w) with
  | Some _ => fRequestedInternal
  | None => negb fRequestedInternal
  end.

(** [ReserveKeyFromKeyPool] pops the lowest index of the set it draws from,
    and reports -1 only when both sets are empty. *)
Lemma ReserveKeyFromKeyPool_drawn (internal : bool) (w : wallet) :
  let d := drawn_from internal w in
  match lowest (pool d w) with
  | Some i =>
      ReserveKeyFromKeyPool internal w =
      (i, mkKeyPool (nTime (entry_of w i)) (vchPubKey (entry_of w i)) d,
       set_pool d (pool d w ∖ {[i]}) w)
  | None =>
      ReserveKeyFromKeyPool internal w = (-1, mkKeyPool 0 0 false, w) /\
      pool internal w = ∅ /\ pool (negb internal) w = ∅
  end.
Proof.
  unfold drawn_from, ReserveKeyFromKeyPool.
  destruct (lowest (pool internal w)) as [i|] eqn:Hreq; cbn zeta.
  - by rewrite Hreq.
  - destruct (lowest (pool (negb internal) w)) as [i|] eqn:Hother; [done|].
    by apply lowest_None in Hreq, Hother.
Qed.

Lemma GetReservedKey_new (internal : bool) (w w1 : wallet) (h : CReserveKey) :
  GetReservedKey internal new_handle w = (true, h, w1) ->
  exists kp,
    ReserveKeyFromKeyPool internal w = (rk_nIndex h, kp, w1) /\
    rk_nIndex h <> -1 /\
    rk_vchPubKey h = vchPubKey kp /\ rk_fInternal h = fInternal kp.
Proof.
  unfold GetReservedKey. cbn [new_handle rk_nIndex].
  change (-1 =? -1) with true. cbn iota.
  destruct (ReserveKeyFromKeyPool internal w) as [[i kp] w'].
  destruct (Z.eqb_spec i (-1)); [discriminate|].
  intros [= <- <-]. by exists kp.
Qed.

(** C7. For every wallet: when a new handle reserves a key, for either
    chain, the handle holds the chain of the set the index was drawn from
    (the requested one, or the other when the requested set was empty), the
    index has left that set, and destroying the handle without [KeepKey]
    puts the index back into that set and restores the wallet exactly; so
    the next reserve for the same request returns the same index and key,
    and a reserve on the chain the index was drawn from returns that index
    too. *)
Theorem reserve_drop_roundtrip (internal : bool) (w w1 : wallet)
    (h : CReserveKey) :
  GetReservedKey internal new_handle w = (true, h, w1) ->
  rk_fInternal h = drawn_from internal w /\
  rk_nIndex h ∈ pool (drawn_from internal w) w /\
  (rk_nIndex h ∉ pool (drawn_from internal w) w1) /\
  rk_nIndex h ∈ pool (drawn_from internal w) (destroy_handle h w1) /\
  destroy_handle h w1 = w /\
  GetReservedKey internal new_handle (destroy_handle h w1) = (true, h, w1) /\
  (ReserveKeyFromKeyPool (drawn_from internal w) (destroy_handle h w1)).1.1 =
    rk_nIndex h.
Proof.
  intros Hget.
  destruct (GetReservedKey_new _ _ _ _ Hget) as (kp & Hres & Hne & _ & Hf).
  pose proof (ReserveKeyFromKeyPool_drawn internal w) as Hdrawn.
  cbn zeta in Hdrawn. set (d := drawn_from internal w) in *.
  destruct (lowest (pool d w)) as [j|] eqn:Hlow;
    [|destruct Hdrawn as (Hnone & _); congruence].
  rewrite Hdrawn in Hres. injection Hres as Hj <- <-. subst j.
  cbn [fInternal] in Hf.
  destruct (pool_set_pool d (pool d w ∖ {[rk_nIndex h]}) w) as (Hp & _ & _).
  assert (Hin : rk_nIndex h ∈ pool d w) by (by apply lowest_Some in Hlow as [? _]).
  assert (Hback : destroy_handle h
                    (set_pool d (pool d w ∖ {[rk_nIndex h]}) w) = w).
  { unfold destroy_handle, handle_ReturnKey, ReturnKey. cbn [snd].
    destruct (Z.eqb_spec (rk_nIndex h) (-1)) as [|_]; [done|].
    by rewrite Hf, Hp, set_pool_twice, (lowest_reinsert _ _ Hlow),
      set_pool_pool. }
  rewrite Hback, Hp.
  split; [done|]. split; [done|]. split; [set_solver|]. split; [done|].
  split; [done|]. split; [done|].
  pose proof (ReserveKeyFromKeyPool_drawn d w) as Hagain. cbn zeta in Hagain.
  assert (Hd : drawn_from d w = d) by (unfold drawn_from; by rewrite Hlow).
  rewrite Hd, Hlow in Hagain. by rewrite Hagain.
Qed.

(** One external key, no internal key: a request for an internal key falls
    back to the external set. *)
Definition only_external : wallet :=
  mkWallet ∅ {[5]} 5 {[5 := mkKeyPool 1540000000 11 false]} false.

Definition two_chains : wallet :=
  mkWallet {[4; 6]} {[3; 5]} 6
    {[3 := mkKeyPool 1540000000 13 false; 4 := mkKeyPool 1540000000 14 true;
      5 := mkKeyPool 1540000000 15 false; 6 := mkKeyPool 1540000000 16 true]}
    false.

Example reserve_two_chains :
  GetReservedKey true new_handle two_chains =
  (true, mkReserveKey 4 14 true,
   mkWallet {[6]} {[3; 5]} 6 (pool_db two_chains) false).
Proof. vm_compute. reflexivity. Qed.

Lemma reserve_drop_roundtrip_witness :
  let h := mkReserveKey 5 11 false in
  let w1 := mkWallet ∅ ∅ 5 (pool_db only_external) false in
  GetReservedKey true new_handle only_external = (true, h, w1) /\
  destroy_handle h w1 = only_external /\
  GetReservedKey true new_handle (destroy_handle h w1) = (true, h, w1).
Proof.
  intros h w1.
  assert (Hget : GetReservedKey true new_handle only_external = (true, h, w1)).
  { vm_compute. reflexivity. }
  split; [exact Hget|].
  destruct (reserve_drop_roundtrip true only_external w1 h Hget)
    as (_ & _ & _ & _ & Hsame & Hnext & _).
  split; [exact Hsame|exact Hnext].
Defined.

(** *** Reachable key pool states *)

Section Reachability.
Variable derive : bool -> Z -> Z.

(** A wallet with the handles that currently hold a reserved key. Loading
    the database starts a run; the wallet methods and the handles' methods
    are its steps. *)
Inductive step : wallet * list CReserveKey -> wallet * list CReserveKey -> Prop :=
| step_NewKeyPool now n w w' hs :
    NewKeyPool derive now n w = Some w' -> step (w, hs) (w', hs)
| step_TopUpKeyPool now n w w' hs :
    TopUpKeyPool derive now n w = Some w' -> step (w, hs) (w', hs)
| step_GetReservedKey internal w h w' hs :
    GetReservedKey internal new_handle w = (true, h, w') ->
    step (w, hs) (w', h :: hs)
| step_GetReservedKey_none internal w h w' hs :
    GetReservedKey internal new_handle w = (false, h, w') ->
    step (w, hs) (w', hs)
| step_KeepKey w h (hs1 hs2 : list CReserveKey) :
    step (w, (hs1 ++ h :: hs2)%list) ((handle_KeepKey h w).2, (hs1 ++ hs2)%list)
| step_ReturnKey w h (hs1 hs2 : list CReserveKey) :
    step (w, (hs1 ++ h :: hs2)%list)
         ((handle_ReturnKey h w).2, (hs1 ++ hs2)%list)
| step_MarkReserveKeysAsUsed id w hs :
    step (w, hs) (MarkReserveKeysAsUsed id w, hs).

Inductive reachable : wallet * list CReserveKey -> Prop :=
| reach_load db is_locked : reachable (LoadWallet db is_locked, [])
| reach_step s s' : reachable s -> step s s' -> reachable s'.

(** The two sets are disjoint and below the high-water mark; a held index
    is below the mark and in neither set, and no index is held twice. *)
Definition good (int ext : gset Z) (mx : Z) (hs : list CReserveKey) : Prop :=
  int ## ext /\
  (forall i, i ∈ int ∪ ext -> i <= mx) /\
  Forall (fun h => rk_nIndex h <= mx /\ (rk_nIndex h ∉ int) /\
                   (rk_nIndex h ∉ ext)) hs /\
  NoDup (rk_nIndex <$> hs).

Definition pool_inv (s : wallet * list CReserveKey) : Prop :=
  good (setInternalKeyPool s.1) (setExternalKeyPool s.1)
    (m_max_keypool_index s.1) s.2.

Lemma good_swap (int ext : gset Z) (mx : Z) (hs : list CReserveKey) :
  good int ext mx hs -> good ext int mx hs.
Proof.
  intros (Hd & Hb & Hh & Hn). split; [|split; [|split]]; [done| |..|done].
  - intros i Hi. apply Hb. set_solver.
  - eapply Forall_impl; [exact Hh|]. cbn. tauto.
Qed.

Lemma good_shrink (int ext int' ext' : gset Z) (mx mx' : Z)
    (hs : list CReserveKey) :
  good int ext mx hs -> int' ⊆ int -> ext' ⊆ ext -> mx <= mx' ->
  good int' ext' mx' hs.
Proof.
  intros (Hd & Hb & Hh & Hn) Hi He Hm. split; [|split; [|split]]; [|..|done].
  - set_solver.
  - intros i Hin. assert (i <= mx) by (apply Hb; set_solver). lia.
  - eapply Forall_impl; [exact Hh|]. cbn. intros h (? & ? & ?).
    split; [lia|]. set_solver.
Qed.

Lemma good_fresh (int ext : gset Z) (mx i : Z) (hs : list CReserveKey) :
  good int ext mx hs -> mx < i -> good ({[i]} ∪ int) ext i hs.
Proof.
  intros (Hd & Hb & Hh & Hn) Hi. split; [|split; [|split]]; [|..|done].
  - intros j [->%elem_of_singleton|Hj]%elem_of_union He.
    + assert (i <= mx) by (apply Hb; set_solver). lia.
    + by apply (Hd j).
  - intros j Hj. destruct (decide (j = i)) as [->|Hne]; [lia|].
    assert (j <= mx) by (apply Hb; set_solver). lia.
  - eapply Forall_impl; [exact Hh|]. cbn. intros h (? & ? & ?).
    split; [lia|]. split; [|done].
    intros [E%elem_of_singleton|?]%elem_of_union; [lia|done].
Qed.

Lemma good_reserve (int ext : gset Z) (mx i key : Z) (f : bool)
    (hs : list CReserveKey) :
  good int ext mx hs -> i ∈ int ->
  good (int ∖ {[i]}) ext mx (mkReserveKey i key f :: hs).
Proof.
  intros (Hd & Hb & Hh & Hn) Hi. split; [|split; [|split]].
  - set_solver.
  - intros j Hj. apply Hb. set_solver.
  - constructor; cbn.
    + split; [apply Hb; set_solver|]. split; [set_solver|].
      intros He. by apply (Hd i).
    + eapply Forall_impl; [exact Hh|]. cbn. intros h (? & ? & ?). set_solver.
  - cbn. constructor; [|done].
    intros (h & Hidx & Hin)%list_elem_of_fmap.
    rewrite Forall_forall in Hh. destruct (Hh h Hin) as (_ & Hni & _).
    cbn in Hidx. congruence.
Qed.

Lemma good_drop (int ext : gset Z) (mx : Z) (h : CReserveKey)
    (hs1 hs2 : list CReserveKey) :
  good int ext mx (hs1 ++ h :: hs2)%list -> good int ext mx (hs1 ++ hs2)%list.
Proof.
  intros (Hd & Hb & Hh & Hn). split; [|split; [|split]]; [done..| |].
  - apply Forall_app in Hh as [H1 H2]. apply Forall_cons in H2 as [_ H2].
    by apply Forall_app.
  - rewrite fmap_app in *. cbn in Hn.
    apply NoDup_app in Hn as (N1 & N2 & N3).
    apply NoDup_cons in N3 as [_ N3]. apply NoDup_app.
    split; [done|]. split; [|done]. intros x Hx Hx2. apply (N2 x Hx).
    by right.
Qed.

Lemma good_return (int ext : gset Z) (mx : Z) (h : CReserveKey)
    (hs1 hs2 : list CReserveKey) :
  good int ext mx (hs1 ++ h :: hs2)%list ->
  good ({[rk_nIndex h]} ∪ int) ext mx (hs1 ++ hs2)%list.
Proof.
  intros Hgood. pose proof (good_drop _ _ _ _ _ _ Hgood) as (_ & _ & Hh' & Hn').
  destruct Hgood as (Hd & Hb & Hh & Hn).
  assert (Hheld : rk_nIndex h <= mx /\ (rk_nIndex h ∉ int) /\
                  (rk_nIndex h ∉ ext)).
  { apply Forall_app in Hh as [_ H2]. by apply Forall_cons in H2 as [H2 _]. }
  destruct Hheld as (Hle & Hni & Hne).
  assert (Hother : forall h', h' ∈ (hs1 ++ hs2)%list -> rk_nIndex h' <> rk_nIndex h).
  { intros h' Hin Heq. rewrite fmap_app in Hn. cbn in Hn.
    apply NoDup_app in Hn as (N1 & N2 & N3). apply NoDup_cons in N3 as [N3 _].
    apply elem_of_app in Hin as [Hin|Hin].
    - apply (N2 (rk_nIndex h')); [by apply list_elem_of_fmap_2|].
      rewrite Heq. by left.
    - apply N3. rewrite <- Heq. by apply list_elem_of_fmap_2. }
  split; [|split; [|split]]; [| | |done].
  - intros j [->%elem_of_singleton|Hj]%elem_of_union He; [done|].
    by apply (Hd j).
  - intros j Hj. destruct (decide (j = rk_nIndex h)) as [->|Hneq]; [done|].
    apply Hb. set_solver.
  - rewrite Forall_forall in Hh' |- *. intros h' Hin.
    destruct (Hh' h' Hin) as (? & ? & ?). split; [done|]. split; [|done].
    intros [E%elem_of_singleton|?]%elem_of_union; [|done].
    by apply (Hother h' Hin).
Qed.

(** Loading: an index is in the set its record names. *)
Lemma LoadWallet_sets (db : gmap Z CKeyPool) (is_locked : bool) :
  (forall i, i ∈ setInternalKeyPool (LoadWallet db is_locked) <->
             exists kp, db !! i = Some kp /\ fInternal kp = true) /\
  (forall i, i ∈ setExternalKeyPool (LoadWallet db is_locked) <->
             exists kp, db !! i = Some kp /\ fInternal kp = false) /\
  (forall i, is_Some (db !! i) ->
             i <= m_max_keypool_index (LoadWallet db is_locked)).
Proof.
  unfold LoadWallet.
  apply (map_fold_weak_ind
    (fun (w : wallet) (m : gmap Z CKeyPool) =>
       (forall i, i ∈ setInternalKeyPool w <->
                  exists kp, m !! i = Some kp /\ fInternal kp = true) /\
       (forall i, i ∈ setExternalKeyPool w <->
                  exists kp, m !! i = Some kp /\ fInternal kp = false) /\
       (forall i, is_Some (m !! i) -> i <= m_max_keypool_index w))).
  - cbn. split; [|split].
    + intros i. split; [set_solver|].
      intros (kp & Hkp & _). by rewrite lookup_empty in Hkp.
    + intros i. split; [set_solver|].
      intros (kp & Hkp & _). by rewrite lookup_empty in Hkp.
    + intros i [kp Hkp]. by rewrite lookup_empty in Hkp.
  - intros i kp m w Hfresh (Hint & Hext & Hmax).
    unfold LoadKeyPool.
    split; [|split].
    + intros j. destruct (fInternal kp) eqn:Hf; cbn.
      * rewrite elem_of_union, elem_of_singleton, Hint. split.
        -- intros [->|(kp' & Hj & Hk)].
           ++ exists kp. by rewrite lookup_insert_eq.
           ++ exists kp'. rewrite lookup_insert_ne; [done|congruence].
        -- intros (kp' & Hj & Hk). destruct (decide (i = j)) as [->|Hne].
           ++ by left.
           ++ right. rewrite lookup_insert_ne in Hj by done. eauto.
      * rewrite Hint. split.
        -- intros (kp' & Hj & Hk). exists kp'.
           rewrite lookup_insert_ne; [done|congruence].
        -- intros (kp' & Hj & Hk). destruct (decide (i = j)) as [->|Hne].
           ++ rewrite lookup_insert_eq in Hj. congruence.
           ++ rewrite lookup_insert_ne in Hj by done. eauto.
    + intros j. destruct (fInternal kp) eqn:Hf; cbn.
      * rewrite Hext. split.
        -- intros (kp' & Hj & Hk). exists kp'.
           rewrite lookup_insert_ne; [done|congruence].
        -- intros (kp' & Hj & Hk). destruct (decide (i = j)) as [->|Hne].
           ++ rewrite lookup_insert_eq in Hj. congruence.
           ++ rewrite lookup_insert_ne in Hj by done. eauto.
      * rewrite elem_of_union, elem_of_singleton, Hext. split.
        -- intros [->|(kp' & Hj & Hk)].
           ++ exists kp. by rewrite lookup_insert_eq.
           ++ exists kp'. rewrite lookup_insert_ne; [done|congruence].
        -- intros (kp' & Hj & Hk). destruct (decide (i = j)) as [->|Hne].
           ++ by left.
           ++ right. rewrite lookup_insert_ne in Hj by done. eauto.
    + intros j Hj.
      assert (Hm : m_max_keypool_index
                (set_max (Z.max (m_max_keypool_index w) i)
                   (set_pool (fInternal kp)
                      ({[i]} ∪ pool (fInternal kp) w) w)) =
              Z.max (m_max_keypool_index w) i) by (by destruct (fInternal kp)).
      rewrite Hm. destruct (decide (i = j)) as [->|Hne]; [lia|].
      rewrite lookup_insert_ne in Hj by done. specialize (Hmax j Hj). lia.
Qed.

Lemma pool_inv_load (db : gmap Z CKeyPool) (is_locked : bool) :
  pool_inv (LoadWallet db is_locked, []).
Proof.
  destruct (LoadWallet_sets db is_locked) as (Hint & Hext & Hmax).
  unfold pool_inv, good; cbn [fst snd]. split; [|split; [|split]].
  - intros i [kp [H1 H2]]%Hint [kp' [H1' H2']]%Hext. congruence.
  - intros i [[kp [H1 _]]%Hint | [kp [H1 _]]%Hext]%elem_of_union;
      apply Hmax; eauto.
  - constructor.
  - constructor.
Qed.

Lemma pool_inv_add_key (now : Z) (internal : bool) (w w' : wallet)
    (hs : list CReserveKey) :
  pool_inv (w, hs) -> add_key derive now internal w = Some w' ->
  pool_inv (w', hs).
Proof.
  unfold add_key, pool_inv. cbn [fst snd]. intros Hg.
  destruct (INT64_MAX <=? m_max_keypool_index w); [discriminate|].
  intros [= <-]. destruct internal; cbn.
  - eapply good_fresh; [exact Hg|lia].
  - apply good_swap. eapply good_fresh; [apply good_swap, Hg|lia].
Qed.

Lemma pool_inv_top_up_loop (now target : Z) (hs : list CReserveKey)
    (fuel : nat) :
  forall w w', pool_inv (w, hs) ->
  top_up_loop derive now fuel target w = Some w' -> pool_inv (w', hs).
Proof.
  induction fuel as [|n IH]; intros w w' Hinv Hloop; cbn in Hloop.
  - by injection Hloop as <-.
  - destruct (pool_size true w <? target).
    + destruct (add_key derive now true w) as [w1|] eqn:Hadd; [|discriminate].
      cbn in Hloop. eapply IH; [|exact Hloop]. by eapply pool_inv_add_key.
    + destruct (pool_size false w <? target).
      * destruct (add_key derive now false w) as [w1|] eqn:Hadd;
          [|discriminate].
        cbn in Hloop. eapply IH; [|exact Hloop]. by eapply pool_inv_add_key.
      * by injection Hloop as <-.
Qed.

Lemma pool_inv_TopUpKeyPool (now target : Z) (w w' : wallet)
    (hs : list CReserveKey) :
  pool_inv (w, hs) -> TopUpKeyPool derive now target w = Some w' ->
  pool_inv (w', hs).
Proof.
  unfold TopUpKeyPool. intros Hinv. destruct (locked w); [discriminate|].
  by apply pool_inv_top_up_loop.
Qed.

(** The top-up loop does not run out of rounds: an unlocked wallet whose
    index counter has room ends with both sets at the target size. *)
Definition missing (target : Z) (w : wallet) : Z :=
  Z.max 0 (target - pool_size true w) + Z.max 0 (target - pool_size false w).

Definition below_mark (w : wallet) : Prop :=
  forall i, i ∈ setInternalKeyPool w ∪ setExternalKeyPool w ->
            i <= m_max_keypool_index w.

Lemma add_key_grows (now : Z) (internal : bool) (w : wallet) :
  below_mark w -> m_max_keypool_index w < INT64_MAX ->
  exists w',
    add_key derive now internal w = Some w' /\
    pool_size internal w' = pool_size internal w + 1 /\
    pool_size (negb internal) w' = pool_size (negb internal) w /\
    m_max_keypool_index w' = m_max_keypool_index w + 1 /\
    below_mark w'.
Proof.
  intros Hb Hroom. unfold add_key.
  destruct (Z.leb_spec INT64_MAX (m_max_keypool_index w)); [lia|].
  eexists. split; [reflexivity|].
  assert (Hfresh : forall s : gset Z,
            s ⊆ setInternalKeyPool w ∪ setExternalKeyPool w ->
            size ({[m_max_keypool_index w + 1]} ∪ s) = S (size s)).
  { intros s Hs. rewrite size_union, size_singleton; [done|].
    intros i ->%elem_of_singleton Hi. specialize (Hb _ (Hs _ Hi)). lia. }
  unfold pool_size, below_mark.
  destruct internal; cbn; (rewrite Hfresh by set_solver);
    (repeat split; [lia|]);
    intros i Hi;
    (destruct (decide (i = m_max_keypool_index w + 1)) as [->|Hne]; [lia|]);
    (assert (i <= m_max_keypool_index w) by (apply Hb; set_solver)); lia.
Qed.

Lemma top_up_loop_reaches (now target : Z) (fuel : nat) :
  forall w,
  below_mark w -> missing target w <= Z.of_nat fuel ->
  m_max_keypool_index w + missing target w <= INT64_MAX ->
  exists w',
    top_up_loop derive now fuel target w = Some w' /\
    target <= pool_size true w' /\ target <= pool_size false w'.
Proof.
  induction fuel as [|n IH]; intros w Hb Hfuel Hroom; unfold missing in *.
  - exists w. split; [done|]. lia.
  - cbn [top_up_loop].
    destruct (Z.ltb_spec (pool_size true w) target) as [Hint|Hint].
    + destruct (add_key_grows now true w Hb ltac:(lia))
        as (w1 & -> & Hs & Ho & Hm & Hb1). cbn [negb] in Ho. cbn.
      apply IH; [done| |]; unfold missing; lia.
    + destruct (Z.ltb_spec (pool_size false w) target) as [Hext|Hext].
      * destruct (add_key_grows now false w Hb ltac:(lia))
          as (w1 & -> & Hs & Ho & Hm & Hb1). cbn [negb] in Ho. cbn.
        apply IH; [done| |]; unfold missing; lia.
      * exists w. split; [done|]. lia.
Qed.

Lemma TopUpKeyPool_reaches (now target : Z) (w : wallet) :
  below_mark w -> locked w = false ->
  m_max_keypool_index w + missing target w <= INT64_MAX ->
  exists w',
    TopUpKeyPool derive now target w = Some w' /\
    target <= pool_size true w' /\ target <= pool_size false w'.
Proof.
  intros Hb Hl Hroom. unfold TopUpKeyPool. rewrite Hl.
  apply top_up_loop_reaches; [done| |done].
  fold (missing target w). unfold missing. lia.
Qed.

Lemma pool_inv_drop_upto (id : Z) (w : wallet) (hs : list CReserveKey) :
  pool_inv (w, hs) -> pool_inv (drop_upto id w, hs).
Proof.
  unfold pool_inv, drop_upto. cbn [fst snd]. intros Hg.
  eapply good_shrink; [exact Hg| | |cbn; lia];
    cbn; intros i Hi; by apply elem_of_filter in Hi as [_ ?].
Qed.

Lemma pool_inv_reserve (internal : bool) (w w' : wallet) (h : CReserveKey)
    (hs : list CReserveKey) :
  pool_inv (w, hs) -> GetReservedKey internal new_handle w = (true, h, w') ->
  pool_inv (w', h :: hs).
Proof.
  intros Hinv (kp & Hres & Hne & _ & _)%GetReservedKey_new.
  destruct h as [i key f]; cbn in *.
  unfold ReserveKeyFromKeyPool in Hres. unfold pool_inv in *. cbn [fst snd] in *.
  destruct (lowest (pool internal w)) as [j|] eqn:Hlow.
  - injection Hres as <- _ <-. apply lowest_Some in Hlow as [Hin _].
    destruct internal; cbn in *.
    + by apply good_reserve.
    + by apply good_swap, good_reserve; [apply good_swap|].
  - destruct (lowest (pool (negb internal) w)) as [j|] eqn:Hother.
    + injection Hres as <- _ <-. apply lowest_Some in Hother as [Hin _].
      destruct internal; cbn in *.
      * by apply good_swap, good_reserve; [apply good_swap|].
      * by apply good_reserve.
    + injection Hres as <- _ _. done.
Qed.

Lemma pool_inv_reserve_none (internal : bool) (w w' : wallet)
    (h : CReserveKey) (hs : list CReserveKey) :
  pool_inv (w, hs) -> GetReservedKey internal new_handle w = (false, h, w') ->
  pool_inv (w', hs).
Proof.
  unfold GetReservedKey, ReserveKeyFromKeyPool, pool_inv.
  cbn [new_handle rk_nIndex fst snd]. change (-1 =? -1) with true. cbn iota.
  intros Hg.
  destruct (lowest (pool internal w)) as [j|];
    [|destruct (lowest (pool (negb internal) w)) as [j|]];
    (destruct (_ =? -1); intros [= _ <-]); try done;
    destruct internal; cbn;
    (eapply good_shrink; [exact Hg|set_solver..|lia]).
Qed.

Lemma pool_inv_keep (w : wallet) (h : CReserveKey)
    (hs1 hs2 : list CReserveKey) :
  pool_inv (w, (hs1 ++ h :: hs2)%list) ->
  pool_inv ((handle_KeepKey h w).2, (hs1 ++ hs2)%list).
Proof.
  unfold pool_inv, handle_KeepKey. cbn [fst snd]. intros Hg.
  destruct (rk_nIndex h =? -1); by eapply good_drop.
Qed.

Lemma pool_inv_return (w : wallet) (h : CReserveKey)
    (hs1 hs2 : list CReserveKey) :
  pool_inv (w, (hs1 ++ h :: hs2)%list) ->
  pool_inv ((handle_ReturnKey h w).2, (hs1 ++ hs2)%list).
Proof.
  unfold pool_inv, handle_ReturnKey, ReturnKey. cbn [fst snd]. intros Hg.
  destruct (rk_nIndex h =? -1); [by eapply good_drop|].
  destruct (rk_fInternal h); cbn.
  - by apply good_return.
  - by apply good_swap, good_return, good_swap.
Qed.

Lemma pool_inv_step (s s' : wallet * list CReserveKey) :
  pool_inv s -> step s s' -> pool_inv s'.
Proof.
  intros Hinv Hstep. destruct Hstep.
  - unfold NewKeyPool in *. eapply pool_inv_TopUpKeyPool; [|eassumption].
    by apply pool_inv_drop_upto.
  - by eapply pool_inv_TopUpKeyPool.
  - by eapply pool_inv_reserve.
  - by eapply pool_inv_reserve_none.
  - by apply pool_inv_keep.
  - by apply pool_inv_return.
  - by apply pool_inv_drop_upto.
Qed.

Lemma reachable_pool_inv (s : wallet * list CReserveKey) :
  reachable s -> pool_inv s.
Proof.
  induction 1 as [db lk|s s' _ IH Hstep].
  - apply pool_inv_load.
  - by eapply pool_inv_step.
Qed.


End Reachability.

(** *** The entry handed out is the record of its index *)

Section Records.
Variable derive : bool -> Z -> Z.

(** Every pooled index has a record naming the set it is in, and every held
    index has a record naming the chain its handle keeps. *)
Definition matched (int ext : gset Z) (db : gmap Z CKeyPool)
    (hs : list CReserveKey) : Prop :=
  (forall i, i ∈ int -> exists kp, db !! i = Some kp /\ fInternal kp = true) /\
  (forall i, i ∈ ext -> exists kp, db !! i = Some kp /\ fInternal kp = false) /\
  Forall (fun h => exists kp, db !! rk_nIndex h = Some kp /\
                              fInternal kp = rk_fInternal h) hs.

Definition records_inv (s : wallet * list CReserveKey) : Prop :=
  matched (setInternalKeyPool s.1) (setExternalKeyPool s.1) (pool_db s.1) s.2.

Lemma matched_swap (int ext : gset Z) (db : gmap Z CKeyPool)
    (hs : list CReserveKey) (c : bool) :
  matched int ext db hs ->
  forall i, i ∈ (if c then int else ext) ->
            exists kp, db !! i = Some kp /\ fInternal kp = c.
Proof. intros (Hi & He & _) i. destruct c; auto. Qed.

Lemma LoadWallet_db (db : gmap Z CKeyPool) (is_locked : bool) :
  pool_db (LoadWallet db is_locked) = db.
Proof.
  unfold LoadWallet.
  apply (map_fold_weak_ind (fun (w : wallet) (_ : gmap Z CKeyPool) =>
                              pool_db w = db)); [done|].
  intros i kp m w _ Hw. unfold LoadKeyPool. by destruct (fInternal kp).
Qed.

Lemma records_inv_load (db : gmap Z CKeyPool) (is_locked : bool) :
  records_inv (LoadWallet db is_locked, []).
Proof.
  destruct (LoadWallet_sets db is_locked) as (Hint & Hext & _).
  unfold records_inv, matched. cbn [fst snd]. rewrite LoadWallet_db.
  split; [by intros i ?%Hint|]. split; [by intros i ?%Hext|]. constructor.
Qed.

Lemma records_inv_add_key (now : Z) (internal : bool) (w w' : wallet)
    (hs : list CReserveKey) :
  pool_inv (w, hs) -> records_inv (w, hs) ->
  add_key derive now internal w = Some w' -> records_inv (w', hs).
Proof.
  unfold add_key, pool_inv, records_inv. cbn [fst snd].
  intros (_ & Hb & Hh & _) (Hi & He & Hm).
  destruct (INT64_MAX <=? m_max_keypool_index w); [discriminate|].
  intros [= <-].
  assert (Hold : forall i c,
            i <= m_max_keypool_index w ->
            (exists kp, pool_db w !! i = Some kp /\ fInternal kp = c) ->
            exists kp, <[m_max_keypool_index w + 1 :=
                           mkKeyPool now
                             (derive internal (m_max_keypool_index w + 1))
                             internal]> (pool_db w) !! i = Some kp /\
                       fInternal kp = c).
  { intros i c Hle H. rewrite lookup_insert_ne by lia. done. }
  assert (Hnew : exists kp, <[m_max_keypool_index w + 1 :=
                           mkKeyPool now
                             (derive internal (m_max_keypool_index w + 1))
                             internal]> (pool_db w) !!
                            (m_max_keypool_index w + 1) = Some kp /\
                       fInternal kp = internal).
  { eexists. by rewrite lookup_insert_eq. }
  assert (Hhs : Forall (fun h => exists kp,
             <[m_max_keypool_index w + 1 :=
                 mkKeyPool now (derive internal (m_max_keypool_index w + 1))
                   internal]> (pool_db w) !! rk_nIndex h = Some kp /\
             fInternal kp = rk_fInternal h) hs).
  { rewrite Forall_forall in Hm, Hh |- *. intros h Hin.
    apply Hold; [by apply Hh|by apply Hm]. }
  destruct internal; cbn; (split; [|split; [|exact Hhs]]).
  - intros i [->%elem_of_singleton|Hin]%elem_of_union; [done|].
    apply Hold; [apply Hb; set_solver|auto].
  - intros i Hin. apply Hold; [apply Hb; set_solver|auto].
  - intros i Hin. apply Hold; [apply Hb; set_solver|auto].
  - intros i [->%elem_of_singleton|Hin]%elem_of_union; [done|].
    apply Hold; [apply Hb; set_solver|auto].
Qed.

Lemma records_inv_top_up_loop (now target : Z) (hs : list CReserveKey)
    (fuel : nat) :
  forall w w', pool_inv (w, hs) -> records_inv (w, hs) ->
  top_up_loop derive now fuel target w = Some w' -> records_inv (w', hs).
Proof.
  induction fuel as [|n IH]; intros w w' Hinv Hrec Hloop; cbn in Hloop.
  - by injection Hloop as <-.
  - destruct (pool_size true w <? target).
    + destruct (add_key derive now true w) as [w1|] eqn:Hadd; [|discriminate].
      cbn in Hloop. eapply IH; [| |exact Hloop].
      * by eapply pool_inv_add_key.
      * by eapply records_inv_add_key.
    + destruct (pool_size false w <? target).
      * destruct (add_key derive now false w) as [w1|] eqn:Hadd;
          [|discriminate].
        cbn in Hloop. eapply IH; [| |exact Hloop].
        -- by eapply pool_inv_add_key.
        -- by eapply records_inv_add_key.
      * by injection Hloop as <-.
Qed.

Lemma records_inv_TopUpKeyPool (now target : Z) (w w' : wallet)
    (hs : list CReserveKey) :
  pool_inv (w, hs) -> records_inv (w, hs) ->
  TopUpKeyPool derive now target w = Some w' -> records_inv (w', hs).
Proof.
  unfold TopUpKeyPool. intros Hinv Hrec. destruct (locked w); [discriminate|].
  by apply records_inv_top_up_loop.
Qed.

Lemma records_inv_drop_upto (id : Z) (w : wallet) (hs : list CReserveKey) :
  pool_inv (w, hs) -> records_inv (w, hs) -> records_inv (drop_upto id w, hs).
Proof.
  unfold pool_inv, records_inv, drop_upto. cbn [fst snd].
  intros (_ & _ & Hh & _) (Hi & He & Hm).
  assert (Hkeep : forall i c,
            (id < i \/ i ∉ setInternalKeyPool w ∪ setExternalKeyPool w) ->
            (exists kp, pool_db w !! i = Some kp /\ fInternal kp = c) ->
            exists kp,
              filter (fun kv : Z * CKeyPool =>
                        bool_decide (kv.1 ∈ setInternalKeyPool w ∪
                                           setExternalKeyPool w)
                        && (kv.1 <=? id) = false) (pool_db w) !! i = Some kp /\
              fInternal kp = c).
  { intros i c Hcase (kp & Hkp & Hf). exists kp. split; [|done].
    apply map_lookup_filter_Some. split; [done|]. cbn.
    destruct Hcase as [Hlt|Hnot].
    - destruct (Z.leb_spec i id); [lia|]. by rewrite andb_false_r.
    - by rewrite bool_decide_eq_false_2. }
  split; [|split].
  - intros i [Hlt Hin]%elem_of_filter. apply Hkeep; auto.
  - intros i [Hlt Hin]%elem_of_filter. apply Hkeep; auto.
  - rewrite Forall_forall in Hm, Hh |- *. intros h Hin.
    apply Hkeep; [|by apply Hm]. right.
    destruct (Hh h Hin) as (_ & ? & ?). set_solver.
Qed.

Lemma records_inv_shrink (int ext int' ext' : gset Z) (db : gmap Z CKeyPool)
    (hs : list CReserveKey) :
  matched int ext db hs -> int' ⊆ int -> ext' ⊆ ext -> matched int' ext' db hs.
Proof. intros (Hi & He & Hm) ? ?. split; [|split]; [| |done]; auto. Qed.

(** What a successful reserve through a new handle did. *)
Lemma GetReservedKey_drawn (internal : bool) (w w1 : wallet) (h : CReserveKey) :
  GetReservedKey internal new_handle w = (true, h, w1) ->
  let d := drawn_from internal w in
  lowest (pool d w) = Some (rk_nIndex h) /\
  rk_fInternal h = d /\
  w1 = set_pool d (pool d w ∖ {[rk_nIndex h]}) w.
Proof.
  intros (kp & Hres & Hne & _ & Hf)%GetReservedKey_new.
  pose proof (ReserveKeyFromKeyPool_drawn internal w) as Hdrawn.
  cbn zeta in *.
  destruct (lowest (pool (drawn_from internal w) w)) as [j|];
    [|destruct Hdrawn as (Hnone & _); congruence].
  rewrite Hdrawn in Hres. injection Hres as Hj <- <-. subst j. done.
Qed.

Lemma records_inv_reserve (internal : bool) (w w' : wallet) (h : CReserveKey)
    (hs : list CReserveKey) :
  records_inv (w, hs) -> GetReservedKey internal new_handle w = (true, h, w') ->
  records_inv (w', h :: hs).
Proof.
  intros Hrec (Hlow & Hf & ->)%GetReservedKey_drawn.
  apply lowest_Some in Hlow as [Hin _].
  unfold records_inv in *. cbn [fst snd] in *.
  assert (Hrecord : exists kp', pool_db w !! rk_nIndex h = Some kp' /\
                                fInternal kp' = rk_fInternal h).
  { rewrite Hf. eapply matched_swap; [exact Hrec|].
    by destruct (drawn_from internal w). }
  destruct Hrec as (Hi & He & Hm).
  destruct (drawn_from internal w); cbn;
    (split; [|split; [|by constructor]]); intros i Hi'; set_solver.
Qed.

Lemma records_inv_reserve_none (internal : bool) (w w' : wallet)
    (h : CReserveKey) (hs : list CReserveKey) :
  records_inv (w, hs) ->
  GetReservedKey internal new_handle w = (false, h, w') ->
  records_inv (w', hs).
Proof.
  unfold GetReservedKey, ReserveKeyFromKeyPool, records_inv.
  cbn [new_handle rk_nIndex fst snd]. change (-1 =? -1) with true. cbn iota.
  intros Hg.
  destruct (lowest (pool internal w)) as [j|];
    [|destruct (lowest (pool (negb internal) w)) as [j|]];
    (destruct (_ =? -1); intros [= _ <-]); try done;
    destruct internal; cbn;
    (eapply records_inv_shrink; [exact Hg|set_solver..]).
Qed.

Lemma records_inv_keep (w : wallet) (h : CReserveKey)
    (hs1 hs2 : list CReserveKey) :
  pool_inv (w, (hs1 ++ h :: hs2)%list) ->
  records_inv (w, (hs1 ++ h :: hs2)%list) ->
  records_inv ((handle_KeepKey h w).2, (hs1 ++ hs2)%list).
Proof.
  unfold pool_inv, records_inv, handle_KeepKey. cbn [fst snd].
  intros (_ & _ & Hh & Hn) (Hi & He & Hm).
  assert (Hrest : Forall (fun h' => exists kp,
                    pool_db w !! rk_nIndex h' = Some kp /\
                    fInternal kp = rk_fInternal h') (hs1 ++ hs2)%list).
  { apply Forall_app in Hm as [H1 H2]. apply Forall_cons in H2 as [_ H2].
    by apply Forall_app. }
  destruct (rk_nIndex h =? -1); [done|]. cbn.
  assert (Hheld : (rk_nIndex h ∉ setInternalKeyPool w) /\
                  (rk_nIndex h ∉ setExternalKeyPool w)).
  { apply Forall_app in Hh as [_ H2]. apply Forall_cons in H2 as [H2 _].
    tauto. }
  assert (Hother : forall h', h' ∈ (hs1 ++ hs2)%list ->
                              rk_nIndex h' <> rk_nIndex h).
  { intros h' Hin Heq. rewrite fmap_app in Hn. cbn in Hn.
    apply NoDup_app in Hn as (N1 & N2 & N3). apply NoDup_cons in N3 as [N3 _].
    apply elem_of_app in Hin as [Hin|Hin].
    - apply (N2 (rk_nIndex h')); [by apply list_elem_of_fmap_2|].
      rewrite Heq. by left.
    - apply N3. rewrite <- Heq. by apply list_elem_of_fmap_2. }
  split; [|split].
  - intros i Hin. rewrite lookup_delete_ne by set_solver. auto.
  - intros i Hin. rewrite lookup_delete_ne by set_solver. auto.
  - rewrite Forall_forall in Hrest |- *. intros h' Hin.
    rewrite lookup_delete_ne; [by apply Hrest|].
    intros Heq. by apply (Hother h' Hin).
Qed.

Lemma records_inv_return (w : wallet) (h : CReserveKey)
    (hs1 hs2 : list CReserveKey) :
  records_inv (w, (hs1 ++ h :: hs2)%list) ->
  records_inv ((handle_ReturnKey h w).2, (hs1 ++ hs2)%list).
Proof.
  unfold records_inv, handle_ReturnKey, ReturnKey. cbn [fst snd].
  intros (Hi & He & Hm).
  apply Forall_app in Hm as [H1 H2]. apply Forall_cons in H2 as [Hh H2].
  assert (Hrest : Forall (fun h' => exists kp,
                    pool_db w !! rk_nIndex h' = Some kp /\
                    fInternal kp = rk_fInternal h') (hs1 ++ hs2)%list)
    by (by apply Forall_app).
  destruct (rk_nIndex h =? -1); [done|].
  destruct (rk_fInternal h); cbn; (split; [|split; [|done]]); try done.
  - intros i [->%elem_of_singleton|Hin]%elem_of_union; auto.
  - intros i [->%elem_of_singleton|Hin]%elem_of_union; auto.
Qed.

Lemma records_inv_step (s s' : wallet * list CReserveKey) :
  pool_inv s -> records_inv s -> step derive s s' -> records_inv s'.
Proof.
  intros Hinv Hrec Hstep. destruct Hstep.
  - unfold NewKeyPool in *. eapply records_inv_TopUpKeyPool; [| |eassumption].
    + by apply pool_inv_drop_upto.
    + by apply records_inv_drop_upto.
  - by eapply records_inv_TopUpKeyPool.
  - by eapply records_inv_reserve.
  - by eapply records_inv_reserve_none.
  - by apply records_inv_keep.
  - by apply records_inv_return.
  - by apply records_inv_drop_upto.
Qed.

Lemma reachable_records_inv (s : wallet * list CReserveKey) :
  reachable derive s -> records_inv s.
Proof.
  induction 1 as [db lk|s s' Hreach IH Hstep].
  - apply records_inv_load.
  - eapply records_inv_step; [|exact IH|exact Hstep].
    by eapply reachable_pool_inv.
Qed.

(** In every reachable state the entry that [ReserveKeyFromKeyPool] hands
    out is the database record of its index: the chain of the set an index
    is popped from is the chain its record names. *)
Lemma reserved_entry_is_record (internal : bool) (w w1 : wallet)
    (hs : list CReserveKey) (i : Z) (kp : CKeyPool) :
  reachable derive (w, hs) ->
  ReserveKeyFromKeyPool internal w = (i, kp, w1) -> i <> -1 ->
  pool_db w !! i = Some kp.
Proof.
  intros Hrec%reachable_records_inv Hres Hne.
  unfold records_inv in Hrec. cbn [fst snd] in Hrec.
  pose proof (ReserveKeyFromKeyPool_drawn internal w) as Hdrawn.
  cbn zeta in Hdrawn.
  destruct (lowest (pool (drawn_from internal w) w)) as [j|] eqn:Hlow;
    [|destruct Hdrawn as (Hnone & _); congruence].
  rewrite Hdrawn in Hres. injection Hres as <- <- _.
  apply lowest_Some in Hlow as [Hin _].
  destruct (matched_swap _ _ _ _ (drawn_from internal w) Hrec j)
    as (kp' & Hkp & Hf).
  { by destruct (drawn_from internal w). }
  unfold entry_of. rewrite Hkp. cbn. rewrite <- Hf. by destruct kp'.
Qed.

End Records.

Definition stored_pool : gmap Z CKeyPool :=
  {[3 := mkKeyPool 1540000000 13 false; 4 := mkKeyPool 1540000000 14 true;
    5 := mkKeyPool 1540000000 15 false]}.

Example LoadWallet_stored_pool :
  LoadWallet stored_pool false = mkWallet {[4]} {[3; 5]} 5 stored_pool false.
Proof. vm_compute. reflexivity. Qed.


End KeyPool.

(** ** Wallet transactions and the spend index

    The header declares [mapWallet], [mapTxSpends], [nOrderPosNext] and the
    methods below; their bodies are in wallet.cpp, which is not under src/,
    and are modelled from sections 4.4, 4.5, 4.6 and 4.10 of the
    specification. *)

Module Spends.
Import MerkleTx WalletTx.

(** [mapTxSpends] is a multimap: a list of (outpoint, spender) entries. *)
Record wallet := mkWallet {
  mapWallet : gmap uint256 CWalletTx;
  mapTxSpends : list (COutPoint * uint256);
  nOrderPosNext : Z
}.

(** [CWallet::SetNull] (wallet.h), for the members modelled here. *)
Definition SetNull : wallet := mkWallet ∅ [] 0.

Definition GetHash (wtx : CWalletTx) : uint256 := MerkleTx.GetHash (merkle wtx).

Definition inputs (wtx : CWalletTx) : list COutPoint := vin (tx (merkle wtx)).

(** A wallet transaction with its block link, metadata map, smart time,
    from-me flag and order position replaced. *)
Definition with_fields (w : CWalletTx) (hb : uint256) (idx : Z)
    (mv : mapValue_t) (smart from pos : Z) : CWalletTx :=
  WalletTx.mk (MerkleTx.mk (tx (merkle w)) hb idx) (pwallet w) mv
    (vOrderForm w) (fTimeReceivedIsTxTime w) (nTimeReceived w) smart from
    (strFromAccount w) pos (fDebitCached w) (fCreditCached w)
    (fImmatureCreditCached w) (fAvailableCreditCached w)
    (fAnonymizedCreditCached w) (fDenomUnconfCreditCached w)
    (fDenomConfCreditCached w) (fWatchDebitCached w) (fWatchCreditCached w)
    (fImmatureWatchCreditCached w) (fAvailableWatchCreditCached w)
    (fChangeCached w) (fInMempool w) (nDebitCached w) (nCreditCached w)
    (nImmatureCreditCached w) (nAvailableCreditCached w)
    (nAnonymizedCreditCached w) (nDenomUnconfCreditCached w)
    (nDenomConfCreditCached w) (nWatchDebitCached w) (nWatchCreditCached w)
    (nImmatureWatchCreditCached w) (nAvailableWatchCreditCached w)
    (nChangeCached w).

Definition set_block (hb : uint256) (idx : Z) (w : CWalletTx) : CWalletTx :=
  with_fields w hb idx (mapValue w) (nTimeSmart w) (fFromMe w) (nOrderPos w).

Definition set_order (pos smart : Z) (w : CWalletTx) : CWalletTx :=
  with_fields w (hashBlock (merkle w)) (nIndex (merkle w)) (mapValue w) smart
    (fFromMe w) pos.

Definition set_meta (mv : mapValue_t) (from pos : Z) (w : CWalletTx) : CWalletTx :=
  with_fields w (hashBlock (merkle w)) (nIndex (merkle w)) mv (nTimeSmart w)
    from pos.

Definition set_mapWallet (m : gmap uint256 CWalletTx) (w : wallet) : wallet :=
  mkWallet m (mapTxSpends w) (nOrderPosNext w).

(** [mapTxSpends.equal_range(outpoint)]: the spenders of an outpoint. *)
Definition spenders (outpoint : COutPoint) (w : wallet) : list uint256 :=
  (filter (fun e => e.1 = outpoint) (mapTxSpends w)).*2.

(** The earliest order position that is set, -1 when none is. *)
Definition earliest (l : list Z) : Z :=
  match filter (fun p => p <> -1) l with
  | [] => -1
  | p :: r => foldr Z.min p r
  end.

(** Modelled from the spec: [CWallet::SyncMetaData] (body not under src/);
    "for every txid in the group, union their mapValue/order_pos/from_me
    fields": every member receives the union of the maps, the disjunction of
    the from-me flags and the earliest order position of the group. *)
Definition SyncMetaData (group : list uint256) (w : wallet) : wallet :=
  let members := omap (fun h => mapWallet w !! h) group in
  let mv := foldr (fun t acc => mapValue t ∪ acc) ∅ members in
  let from := foldr (fun t acc => Z.lor (fFromMe t) acc) 0 members in
  let pos := earliest (nOrderPos <$> members) in
  set_mapWallet
    (foldr (fun h m => alter (set_meta mv from pos) h m) (mapWallet w) group) w.

(** Modelled from the spec: [CWallet::AddToSpends(outpoint, wtxid)] (body
    not under src/); "add(outpoint, txid) inserts into the multi-map. After
    insertion, if more than one txid is associated with the outpoint, sync
    metadata". *)
Definition AddToSpends (outpoint : COutPoint) (wtxid : uint256) (w : wallet)
  : wallet :=
  let w := mkWallet (mapWallet w) (mapTxSpends w ++ [(outpoint, wtxid)])
             (nOrderPosNext w) in
  let group := spenders outpoint w in
  if (1 <? length (remove_dups group))%nat then SyncMetaData group w else w.

(** Modelled from the spec: [CWallet::AddToSpends(wtxid)] (body not under
    src/); "add each input's outpoint to the spend index". *)
Definition AddToSpends_tx (wtxid : uint256) (w : wallet) : wallet :=
  match mapWallet w !! wtxid with
  | None => w
  | Some wtx => foldl (fun w op => AddToSpends op wtxid w) w (inputs wtx)
  end.

Definition mark_dirty (h : uint256) (w : wallet) : wallet :=
  set_mapWallet (alter MarkDirty h (mapWallet w)) w.

(** *** Metadata changes keep the transactions *)

Definition the_tx (t : CWalletTx) : CTransaction := tx (merkle t).

(** Two tables hold the same transactions under the same ids. *)
Definition meta_eq (m m' : gmap uint256 CWalletTx) : Prop :=
  forall h, the_tx <$> m !! h = the_tx <$> m' !! h.

Lemma meta_eq_refl (m : gmap uint256 CWalletTx) : meta_eq m m.
Proof. by intros h. Qed.

Lemma meta_eq_trans (m1 m2 m3 : gmap uint256 CWalletTx) :
  meta_eq m1 m2 -> meta_eq m2 m3 -> meta_eq m1 m3.
Proof. intros H12 H23 h. by rewrite H12. Qed.

Lemma meta_eq_alter (f : CWalletTx -> CWalletTx) (h : uint256)
    (m : gmap uint256 CWalletTx) :
  (forall t, the_tx (f t) = the_tx t) -> meta_eq m (alter f h m).
Proof.
  intros Hf j. rewrite lookup_alter. case_decide as E; [|done].
  subst j. destruct (m !! h) as [t|]; cbn; [by rewrite Hf|done].
Qed.

Lemma meta_eq_foldr_alter (f : CWalletTx -> CWalletTx) (ids : list uint256)
    (m : gmap uint256 CWalletTx) :
  (forall t, the_tx (f t) = the_tx t) ->
  meta_eq m (foldr (fun h m => alter f h m) m ids).
Proof.
  intros Hf. induction ids as [|h ids IH]; cbn; [apply meta_eq_refl|].
  eapply meta_eq_trans; [exact IH|]. by apply meta_eq_alter.
Qed.

Lemma meta_eq_insert (h : uint256) (t t' : CWalletTx)
    (m : gmap uint256 CWalletTx) :
  m !! h = Some t -> the_tx t' = the_tx t -> meta_eq m (<[h := t']> m).
Proof.
  intros Hm Ht j. destruct (decide (h = j)) as [<-|Hne].
  - rewrite lookup_insert_eq, Hm. cbn. by rewrite Ht.
  - by rewrite lookup_insert_ne.
Qed.

(** Every input of every wallet transaction is in the spend index under the
    transaction's id, which is the key it is stored under. *)
Definition complete (m : gmap uint256 CWalletTx)
    (sp : list (COutPoint * uint256)) : Prop :=
  forall h wtx, m !! h = Some wtx ->
    GetHash wtx = h /\ forall op, op ∈ inputs wtx -> (op, h) ∈ sp.

Lemma complete_meta (m m' : gmap uint256 CWalletTx)
    (sp sp' : list (COutPoint * uint256)) :
  complete m sp -> meta_eq m m' -> (forall e, e ∈ sp -> e ∈ sp') ->
  complete m' sp'.
Proof.
  intros Hc Hm Hsp h wtx' Hh. specialize (Hm h). rewrite Hh in Hm. cbn in Hm.
  destruct (m !! h) as [wtx|] eqn:E; [|discriminate]. injection Hm as Ht.
  destruct (Hc h wtx E) as [Hhash Hin].
  unfold GetHash, MerkleTx.GetHash, inputs, the_tx in *. rewrite <- Ht.
  split; [done|]. intros op Hop. apply Hsp. by apply Hin.
Qed.

Lemma SyncMetaData_meta (group : list uint256) (w : wallet) :
  meta_eq (mapWallet w) (mapWallet (SyncMetaData group w)) /\
  mapTxSpends (SyncMetaData group w) = mapTxSpends w.
Proof. split; [|done]. by apply meta_eq_foldr_alter. Qed.

Lemma AddToSpends_spec (op : COutPoint) (h : uint256) (w : wallet) :
  meta_eq (mapWallet w) (mapWallet (AddToSpends op h w)) /\
  mapTxSpends (AddToSpends op h w) = (mapTxSpends w ++ [(op, h)])%list.
Proof.
  unfold AddToSpends. destruct (_ <? _)%nat; [|by split].
  split; [|done]. by apply meta_eq_foldr_alter.
Qed.

Lemma AddToSpends_fold (h : uint256) (l : list COutPoint) :
  forall w,
  meta_eq (mapWallet w)
    (mapWallet (foldl (fun w op => AddToSpends op h w) w l)) /\
  (forall e, e ∈ mapTxSpends w ->
     e ∈ mapTxSpends (foldl (fun w op => AddToSpends op h w) w l)) /\
  (forall op, op ∈ l ->
     (op, h) ∈ mapTxSpends (foldl (fun w op => AddToSpends op h w) w l)).
Proof.
  induction l as [|op l IH]; intros w; cbn [foldl].
  - split; [apply meta_eq_refl|]. split; [done|]. intros op Hop.
    by apply elem_of_nil in Hop.
  - destruct (AddToSpends_spec op h w) as [Hm Hsp].
    destruct (IH (AddToSpends op h w)) as (Hm' & Hincl & Hnew).
    split; [by eapply meta_eq_trans|]. split.
    + intros e He. apply Hincl. rewrite Hsp. apply elem_of_app. by left.
    + intros op' [->|Hop']%elem_of_cons; [|by apply Hnew].
      apply Hincl. rewrite Hsp. apply elem_of_app. right. by left.
Qed.

Lemma AddToSpends_tx_spec (h : uint256) (w : wallet) :
  meta_eq (mapWallet w) (mapWallet (AddToSpends_tx h w)) /\
  (forall e, e ∈ mapTxSpends w -> e ∈ mapTxSpends (AddToSpends_tx h w)) /\
  (forall wtx op, mapWallet w !! h = Some wtx -> op ∈ inputs wtx ->
     (op, h) ∈ mapTxSpends (AddToSpends_tx h w)).
Proof.
  unfold AddToSpends_tx. destruct (mapWallet w !! h) as [wtx|] eqn:E.
  - destruct (AddToSpends_fold h (inputs wtx) w) as (Hm & Hincl & Hnew).
    split; [done|]. split; [done|]. intros wtx' op [= <-]. apply Hnew.
  - split; [apply meta_eq_refl|]. split; [done|]. intros wtx op [=].
Qed.

Lemma mark_dirty_meta (h : uint256) (w : wallet) :
  meta_eq (mapWallet w) (mapWallet (mark_dirty h w)) /\
  mapTxSpends (mark_dirty h w) = mapTxSpends w.
Proof. split; [|done]. by apply meta_eq_alter. Qed.

Lemma mark_dirty_fold (l : list COutPoint) (w : wallet) :
  meta_eq (mapWallet w)
    (mapWallet (foldr (fun op w => mark_dirty op.1 w) w l)) /\
  mapTxSpends (foldr (fun op w => mark_dirty op.1 w) w l) = mapTxSpends w.
Proof.
  induction l as [|op l [IHm IHs]]; cbn [foldr]; [by split|].
  split; [|done]. eapply meta_eq_trans; [exact IHm|]. by apply meta_eq_alter.
Qed.

(** Inserting a transaction under its id together with its inputs. *)
Lemma complete_insert (m : gmap uint256 CWalletTx)
    (sp : list (COutPoint * uint256)) (n : Z) (wtx : CWalletTx) :
  complete m sp ->
  complete
    (mapWallet (AddToSpends_tx (GetHash wtx)
                  (mkWallet (<[GetHash wtx := wtx]> m) sp n)))
    (mapTxSpends (AddToSpends_tx (GetHash wtx)
                    (mkWallet (<[GetHash wtx := wtx]> m) sp n))).
Proof.
  intros Hc.
  set (w0 := mkWallet (<[GetHash wtx := wtx]> m) sp n).
  destruct (AddToSpends_tx_spec (GetHash wtx) w0) as (Hm & Hincl & Hnew).
  apply (complete_meta (mapWallet w0) _
           (mapTxSpends (AddToSpends_tx (GetHash wtx) w0)));
    [|exact Hm|done].
  intros h t Hh. subst w0. cbn in Hh.
  destruct (decide (GetHash wtx = h)) as [<-|Hne].
  - rewrite lookup_insert_eq in Hh. injection Hh as <-. split; [done|].
    intros op Hop. apply (Hnew wtx op); [|done]. cbn. apply lookup_insert_eq.
  - rewrite lookup_insert_ne in Hh by done. destruct (Hc h t Hh) as [? Hin].
    split; [done|]. intros op Hop. apply Hincl. cbn. by apply Hin.
Qed.

Lemma complete_relabel (w w' : wallet) :
  complete (mapWallet w) (mapTxSpends w) ->
  meta_eq (mapWallet w) (mapWallet w') -> mapTxSpends w' = mapTxSpends w ->
  complete (mapWallet w') (mapTxSpends w').
Proof.
  intros Hc Hm Hsp. eapply complete_meta; [exact Hc|exact Hm|].
  by rewrite Hsp.
Qed.

Section Operations.
(** The chain view, the key store and the time source are outside the
    wallet core (section 6): the depth of a linked transaction in the main
    chain, whether an output is the wallet's, the smart time of a new
    transaction, and the value of the abandoned sentinel. *)
Variable GetDepthInMainChain : CMerkleTx -> Z.
Variable IsMine : CTxOut -> bool.
Variable ComputeTimeSmart : wallet -> CWalletTx -> Z.
Variable ABANDON_HASH : uint256.

(** Modelled from the spec: [CWallet::AddToWallet] (body not under src/);
    section 4.4 for a new transaction (order position from the counter,
    smart time, inputs into the spend index, caches of the transaction and
    of the transactions its inputs reference invalidated), and for a known
    one the "upsert" of section 4.6: the block link of the stored record is
    updated when the incoming copy names a block. *)
Definition AddToWallet (wtxIn : CWalletTx) (w : wallet) : wallet :=
  let hash := GetHash wtxIn in
  match mapWallet w !! hash with
  | None =>
      let wtx := set_order (nOrderPosNext w) (ComputeTimeSmart w wtxIn) wtxIn in
      let w := mkWallet (<[hash := wtx]> (mapWallet w)) (mapTxSpends w)
                 (nOrderPosNext w + 1) in
      let w := AddToSpends_tx hash w in
      foldr (fun op w => mark_dirty op.1 w) (mark_dirty hash w) (inputs wtxIn)
  | Some old =>
      if IsNull (hashBlock (merkle wtxIn)) then w
      else
        set_mapWallet
          (<[hash := MarkDirty (set_block (hashBlock (merkle wtxIn))
                                  (nIndex (merkle wtxIn)) old)]> (mapWallet w))
          w
  end.

(** Modelled from the spec: [CWallet::LoadToWallet] (body not under src/);
    the loader's visitor for a "tx" record: the record enters the table and
    its inputs enter the spend index. *)
Definition LoadToWallet (wtxIn : CWalletTx) (w : wallet) : wallet :=
  let hash := GetHash wtxIn in
  AddToSpends_tx hash
    (set_mapWallet (<[hash := BindWallet (Some 0%nat) wtxIn]> (mapWallet w)) w).

(** The spenders of the outputs of transaction [h]. *)
Definition output_spenders (h : uint256) (wtx : CWalletTx) (w : wallet)
  : list uint256 :=
  (filter (fun e => e.1.1 = h /\ 0 <= e.1.2 < Z.of_nat (length (vout (tx (merkle wtx)))))
     (mapTxSpends w)).*2.

(** The forward closure over the spend index, "tx_hash -> its outputs ->
    spenders": a work list with the list of transactions already visited.
    Every entry of the index is pushed at most once, so the work list runs
    empty within [length mapTxSpends + 1] rounds ([descendants_enough]). *)
Fixpoint closure (fuel : nat) (todo seen : list uint256) (w : wallet)
  : list uint256 :=
  match fuel with
  | O => seen
  | S n =>
      match todo with
      | [] => seen
      | h :: rest =>
          if bool_decide (h ∈ seen) then closure n rest seen w
          else
            match mapWallet w !! h with
            | None => closure n rest seen w
            | Some wtx =>
                closure n (rest ++ output_spenders h wtx w) (h :: seen) w
            end
      end
  end.

Definition descendants (hashTx : uint256) (w : wallet) : list uint256 :=
  closure (length (mapTxSpends w) + 2) [hashTx] [] w.

Definition relink (hb : uint256) (idx : option Z) (wtx : CWalletTx) : CWalletTx :=
  MarkDirty (set_block hb (default (nIndex (merkle wtx)) idx) wtx).

Definition relink_all (ids : list uint256) (hb : uint256) (idx : option Z)
    (w : wallet) : wallet :=
  set_mapWallet (foldr (fun h m => alter (relink hb idx) h m) (mapWallet w) ids) w.

(** Modelled from the spec: [CWallet::MarkConflicted] (body not under src/);
    "walk the forward closure over the spend index and set each transitive
    descendant's block_hash to block_hash with index_in_block = -1"; the
    header: "mark a transaction (and its in-wallet descendants)". *)
Definition MarkConflicted (hashBlock hashTx : uint256) (w : wallet) : wallet :=
  relink_all (descendants hashTx w) hashBlock (Some (-1)) w.

(** Modelled from the spec: [CWallet::AbandonTransaction] (body not under
    src/); "only legal if the tx is currently unconfirmed and has no
    confirmed descendants" (section 4.10 adds: not in the mempool); "walk
    the forward closure and set each block_hash = ABANDONED"; [None] is
    NotAbandonable. *)
Definition AbandonTransaction (hashTx : uint256) (w : wallet) : option wallet :=
  wtx ← mapWallet w !! hashTx;
  let ids := descendants hashTx w in
  let unconfirmed h :=
    match mapWallet w !! h with
    | Some t => GetDepthInMainChain (merkle t) <? 1
    | None => true
    end in
  if unconfirmed hashTx && negb (fInMempool wtx) && forallb unconfirmed ids
  then Some (relink_all ids ABANDON_HASH None w)
  else None.

(** Modelled from the spec: [CWallet::BlockDisconnected] (body not under
    src/); "for each tx in the block, set its block_hash = null,
    index_in_block = -1, invalidate caches". *)
Definition BlockDisconnected (vtx : list CTransaction) (w : wallet) : wallet :=
  relink_all (tx_hash <$> vtx) 0 (Some (-1)) w.

(** A new wallet transaction for [t], linked to block [hb] at [pos]. *)
Definition new_wtx (t : CTransaction) (hb : uint256) (pos : Z) : CWalletTx :=
  set_block hb pos (WalletTx.make (Some 0%nat) t wtx_blank).

(** Modelled from the spec: [CWallet::AddToWalletIfInvolvingMe] (body not
    under src/); relevant iff "(a) any output is IsMine, or (b) any input
    references an outpoint already in the spend index, or (c) update and an
    existing WalletTx matches by id"; relevant transactions are upserted,
    others discarded. *)
Definition AddToWalletIfInvolvingMe (t : CTransaction) (hb : uint256) (pos : Z)
    (fUpdate : bool) (w : wallet) : wallet :=
  let relevant :=
    existsb IsMine (vout t)
    || existsb (fun op => negb (bool_decide (spenders op w = []))) (vin t)
    || (fUpdate && bool_decide (is_Some (mapWallet w !! tx_hash t))) in
  if relevant then AddToWallet (new_wtx t hb pos) w else w.

Fixpoint sync_block (vtx : list CTransaction) (hb : uint256) (pos : Z)
    (w : wallet) : wallet :=
  match vtx with
  | [] => w
  | t :: rest =>
      sync_block rest hb (pos + 1) (AddToWalletIfInvolvingMe t hb pos true w)
  end.

(** Modelled from the spec: [CWallet::BlockConnected] (body not under src/);
    "for each tx in conflicted_txs call mark_conflicted(block.hash, txid);
    then for each tx in the block call add_if_involves_me". *)
Definition BlockConnected (hb : uint256) (vtx vtxConflicted : list CTransaction)
    (w : wallet) : wallet :=
  sync_block vtx hb 0
    (foldl (fun w t => MarkConflicted hb (tx_hash t) w) w vtxConflicted).

(** The wallet states reached from an empty wallet by the operations. *)
Inductive reachable : wallet -> Prop :=
| reach_SetNull : reachable SetNull
| reach_AddToWallet wtxIn w :
    reachable w -> reachable (AddToWallet wtxIn w)
| reach_LoadToWallet wtxIn w :
    reachable w -> reachable (LoadToWallet wtxIn w)
| reach_BlockConnected hb vtx vtxConflicted w :
    reachable w -> reachable (BlockConnected hb vtx vtxConflicted w)
| reach_BlockDisconnected vtx w :
    reachable w -> reachable (BlockDisconnected vtx w)
| reach_AbandonTransaction hashTx w w' :
    reachable w -> AbandonTransaction hashTx w = Some w' -> reachable w'
| reach_MarkConflicted hashBlock hashTx w :
    reachable w -> reachable (MarkConflicted hashBlock hashTx w).

(** *** The closure walk has rounds to spare *)

(** Entries of the index whose transaction has not been visited yet. *)
Definition pending (seen : list uint256) (w : wallet) : nat :=
  length (filter (fun e : COutPoint * uint256 => e.1.1 ∉ seen) (mapTxSpends w)).

Lemma filter_split_length {A : Type} (P Q R : A -> Prop)
    `{!forall x, Decision (P x), !forall x, Decision (Q x),
      !forall x, Decision (R x)} (l : list A) :
  (forall x, P x -> R x) -> (forall x, Q x -> R x) ->
  (forall x, P x -> Q x -> False) ->
  (length (filter P l) + length (filter Q l) <= length (filter R l))%nat.
Proof.
  intros HP HQ HPQ. induction l as [|x l IH]; [done|].
  rewrite !filter_cons.
  destruct (decide (P x)) as [p|np], (decide (Q x)) as [q|nq],
    (decide (R x)) as [r|nr]; cbn; try lia.
  - destruct (HPQ x p q).
  - destruct (nr (HP x p)).
  - destruct (nr (HP x p)).
  - destruct (nr (HQ x q)).
Qed.

Lemma pending_visit (h : uint256) (wtx : CWalletTx) (seen : list uint256)
    (w : wallet) :
  h ∉ seen ->
  (length (output_spenders h wtx w) + pending (h :: seen) w <= pending seen w)%nat.
Proof.
  intros Hh. unfold output_spenders, pending. rewrite length_fmap.
  apply filter_split_length.
  - intros e [-> _]. done.
  - intros e He Hin. apply He. by right.
  - intros e [<- _] He. apply He. by left.
Qed.

Lemma closure_enough (w : wallet) (n : nat) :
  forall todo seen k,
  (length todo + pending seen w <= n)%nat ->
  closure (n + k) todo seen w = closure n todo seen w.
Proof.
  induction n as [|n IH]; intros todo seen k Hn.
  - destruct todo; [|cbn in Hn; lia]. by destruct k.
  - cbn [Nat.add closure]. destruct todo as [|h rest]; [done|].
    cbn [length] in Hn. case_bool_decide as Hseen.
    + apply IH. lia.
    + destruct (mapWallet w !! h) as [wtx|]; [|apply IH; lia].
      apply IH. rewrite length_app.
      pose proof (pending_visit h wtx seen w Hseen). lia.
Qed.

Lemma descendants_enough (hashTx : uint256) (w : wallet) (k : nat) :
  closure (length (mapTxSpends w) + 2 + k) [hashTx] [] w = descendants hashTx w.
Proof.
  unfold descendants. apply closure_enough. unfold pending. cbn [length].
  pose proof (length_filter (fun e : COutPoint * uint256 => e.1.1 ∉ [])
                (mapTxSpends w)).
  lia.
Qed.

(** *** Every operation keeps the spend index complete *)

Lemma relink_all_complete (ids : list uint256) (hb : uint256) (idx : option Z)
    (w : wallet) :
  complete (mapWallet w) (mapTxSpends w) ->
  complete (mapWallet (relink_all ids hb idx w))
    (mapTxSpends (relink_all ids hb idx w)).
Proof.
  intros Hc. apply (complete_relabel w); [done| |done].
  by apply meta_eq_foldr_alter.
Qed.

Lemma AddToWallet_complete (wtxIn : CWalletTx) (w : wallet) :
  complete (mapWallet w) (mapTxSpends w) ->
  complete (mapWallet (AddToWallet wtxIn w)) (mapTxSpends (AddToWallet wtxIn w)).
Proof.
  intros Hc. unfold AddToWallet.
  destruct (mapWallet w !! GetHash wtxIn) as [old|] eqn:Hold.
  - destruct (IsNull _); [done|].
    apply (complete_relabel w); [done| |done]. cbn.
    by apply (meta_eq_insert _ old).
  - set (wtx := set_order (nOrderPosNext w) (ComputeTimeSmart w wtxIn) wtxIn).
    assert (Hhash : GetHash wtxIn = GetHash wtx) by done.
    assert (Hin : inputs wtxIn = inputs wtx) by done.
    rewrite Hhash, Hin.
    set (w1 := AddToSpends_tx (GetHash wtx) _).
    assert (Hc1 : complete (mapWallet w1) (mapTxSpends w1))
      by (by apply complete_insert).
    destruct (mark_dirty_meta (GetHash wtx) w1) as [Hm1 Hs1].
    destruct (mark_dirty_fold (inputs wtx) (mark_dirty (GetHash wtx) w1))
      as [Hm2 Hs2].
    eapply complete_relabel; [exact Hc1| |congruence].
    by eapply meta_eq_trans.
Qed.

Lemma LoadToWallet_complete (wtxIn : CWalletTx) (w : wallet) :
  complete (mapWallet w) (mapTxSpends w) ->
  complete (mapWallet (LoadToWallet wtxIn w)) (mapTxSpends (LoadToWallet wtxIn w)).
Proof.
  intros Hc. unfold LoadToWallet.
  change (GetHash wtxIn) with (GetHash (BindWallet (Some 0%nat) wtxIn)).
  by apply (complete_insert (mapWallet w) (mapTxSpends w)).
Qed.

Lemma AddToWalletIfInvolvingMe_complete (t : CTransaction) (hb : uint256)
    (pos : Z) (fUpdate : bool) (w : wallet) :
  complete (mapWallet w) (mapTxSpends w) ->
  complete (mapWallet (AddToWalletIfInvolvingMe t hb pos fUpdate w))
    (mapTxSpends (AddToWalletIfInvolvingMe t hb pos fUpdate w)).
Proof.
  intros Hc. unfold AddToWalletIfInvolvingMe.
  destruct (_ || _); [by apply AddToWallet_complete|done].
Qed.

Lemma sync_block_complete (vtx : list CTransaction) (hb : uint256) :
  forall pos w,
  complete (mapWallet w) (mapTxSpends w) ->
  complete (mapWallet (sync_block vtx hb pos w))
    (mapTxSpends (sync_block vtx hb pos w)).
Proof.
  induction vtx as [|t vtx IH]; intros pos w Hc; cbn; [done|].
  by apply IH, AddToWalletIfInvolvingMe_complete.
Qed.

Lemma BlockConnected_complete (hb : uint256)
    (vtx vtxConflicted : list CTransaction) (w : wallet) :
  complete (mapWallet w) (mapTxSpends w) ->
  complete (mapWallet (BlockConnected hb vtx vtxConflicted w))
    (mapTxSpends (BlockConnected hb vtx vtxConflicted w)).
Proof.
  intros Hc. unfold BlockConnected. apply sync_block_complete.
  revert w Hc. induction vtxConflicted as [|t l IH]; intros w Hc; cbn; [done|].
  by apply IH, relink_all_complete.
Qed.

Lemma reachable_complete (w : wallet) :
  reachable w -> complete (mapWallet w) (mapTxSpends w).
Proof.
  induction 1 as [|wtxIn w _ IH|wtxIn w _ IH|hb vtx vc w _ IH|vtx w _ IH
                  |hashTx w w' _ IH Hab|hb hashTx w _ IH].
  - intros h wtx Hh. cbn in Hh. by rewrite lookup_empty in Hh.
  - by apply AddToWallet_complete.
  - by apply LoadToWallet_complete.
  - by apply BlockConnected_complete.
  - by apply relink_all_complete.
  - unfold AbandonTransaction in Hab.
    destruct (mapWallet w !! hashTx) as [wtx|]; [|discriminate]. cbn in Hab.
    destruct (_ && _); [|discriminate]. injection Hab as <-.
    by apply relink_all_complete.
  - by apply relink_all_complete.
Qed.

(** C2. In every wallet state reached from an empty wallet by [AddToWallet],
    [LoadToWallet], [BlockConnected], [BlockDisconnected],
    [AbandonTransaction] and [MarkConflicted], every outpoint referenced by
    an input of a transaction in [mapWallet] has that transaction's id among
    its spenders in [mapTxSpends]. *)
Theorem spend_index_complete (w : wallet) :
  reachable w ->
  forall h wtx op,
    mapWallet w !! h = Some wtx -> op ∈ inputs wtx ->
    GetHash wtx ∈ spenders op w.
Proof.
  intros Hreach h wtx op Hh Hop.
  destruct (reachable_complete w Hreach h wtx Hh) as [Hhash Hin].
  unfold spenders. apply list_elem_of_fmap. exists (op, h).
  split; [done|]. apply list_elem_of_filter. split; [done|]. by apply Hin.
Qed.

End Operations.

(** A payment spending outputs 0 and 1 of transaction 5. *)
Definition payment : CWalletTx :=
  WalletTx.mk (MerkleTx.mk (mkTx 7 [(5, 0); (5, 1)] [mkTxOut 100 1]) 0 (-1)) None
    ∅ [] 0 0 0 1 "" (-1)
    false false false false false false false false false false false false
    false 0 0 0 0 0 0 0 0 0 0 0 0.

Definition wallet_with_payment : wallet :=
  AddToWallet (fun _ _ => 0) payment SetNull.

Example wallet_with_payment_spends :
  mapTxSpends wallet_with_payment = [((5, 0), 7); ((5, 1), 7)] /\
  nOrderPos <$> mapWallet wallet_with_payment !! 7 = Some 0 /\
  nOrderPosNext wallet_with_payment = 1.
Proof. vm_compute. done. Qed.

Lemma spend_index_complete_witness :
  match mapWallet wallet_with_payment !! 7 with
  | Some wtx => GetHash wtx ∈ spenders (5, 1) wallet_with_payment
  | None => False
  end.
Proof.
  destruct (mapWallet wallet_with_payment !! 7) as [wtx|] eqn:E.
  - assert (Hreach : reachable (fun _ => 0) (fun _ => true) (fun _ _ => 0) 1
                       wallet_with_payment)
      by apply reach_AddToWallet, reach_SetNull.
    apply (spend_index_complete _ _ _ _ wallet_with_payment Hreach 7 wtx
             (5, 1) E).
    vm_compute in E. injection E as <-. right. left.
  - vm_compute in E. discriminate E.
Defined.

End Spends.

(** * Further properties of the header's code *)

(** ** Order position: what a write leaves behind *)

Lemma WriteOrderPos_other (n : Z) (m : mapValue_t) (k : string) :
  k <> "n" -> WriteOrderPos n m !! k = m !! k.
Proof.
  intros Hk. unfold WriteOrderPos. destruct (n =? -1); [done|].
  by rewrite lookup_insert_ne.
Qed.

(** X1. For every 64-bit position other than -1, [WriteOrderPos] followed by
    [ReadOrderPos] yields the position whatever the map held under "n"
    (negative positions included), a second write changes nothing and no
    other key is touched. Writing -1 does not erase an older "n": the read
    then still yields the older position. *)
Theorem order_pos_write_then_read (n : Z) (m : mapValue_t) :
  in_int64 n ->
  (n <> -1 -> ReadOrderPos (WriteOrderPos n m) = n) /\
  (n = -1 -> ReadOrderPos (WriteOrderPos n m) = ReadOrderPos m) /\
  (forall k, k <> "n" -> WriteOrderPos n m !! k = m !! k) /\
  WriteOrderPos n (WriteOrderPos n m) = WriteOrderPos n m.
Proof.
  intros Hn. split; [|split; [|split]].
  - intros Hne. unfold WriteOrderPos, ReadOrderPos.
    destruct (Z.eqb_spec n (-1)); [done|].
    rewrite lookup_insert_eq. by apply atoi64_i64tostr.
  - intros ->. reflexivity.
  - intros k Hk. by apply WriteOrderPos_other.
  - unfold WriteOrderPos. destruct (n =? -1); [done|].
    apply insert_insert_eq.
Qed.

Lemma order_pos_write_then_read_witness :
  ReadOrderPos (WriteOrderPos (-2) {["n" := "7"]}) = -2 /\
  ReadOrderPos (WriteOrderPos (-1) {["n" := "7"]}) = 7.
Proof.
  split.
  - apply (order_pos_write_then_read (-2) {["n" := "7"]}); [|lia].
    vm_compute. split; discriminate.
  - transitivity (ReadOrderPos ({["n" := "7"]} : mapValue_t)); [|reflexivity].
    apply (order_pos_write_then_read (-1) {["n" := "7"]}); [|reflexivity].
    vm_compute. split; discriminate.
Defined.

(** ** Wallet transactions: construction, rebinding, streams *)

Module WalletTxFacts.
Import Stream WalletTxSer.

(** X2. [CMerkleTx] on its own: writing appends the transaction, the block
    hash, an empty merkle branch and the index to whatever the stream holds;
    reading gives the record back, drops any merkle branch found in the
    stream and leaves the values that follow. *)
Theorem merkle_roundtrip (m : MerkleTx.CMerkleTx) (s : CDataStream)
    (mb : list uint256) (later : list item) :
  vch (SerializeMerkleTx m s) =
    (vch s ++ [it_tx (MerkleTx.tx m); it_uint256 (MerkleTx.hashBlock m);
               it_vec_uint256 []; it_int (MerkleTx.nIndex m)])%list /\
  nType (SerializeMerkleTx m s) = nType s /\
  UnserializeMerkleTx
    (Stream.mk (nType s) (nVersion s)
       ([it_tx (MerkleTx.tx m); it_uint256 (MerkleTx.hashBlock m);
         it_vec_uint256 mb; it_int (MerkleTx.nIndex m)] ++ later)%list) =
  Some (m, Stream.mk (nType s) (nVersion s) later).
Proof.
  split; [|split; [done|by destruct m]].
  unfold SerializeMerkleTx, put. cbn. by rewrite <- !app_assoc.
Qed.

(** X3. Both constructors initialise every member: the object built does not
    depend on what the memory held before. A new wallet transaction is
    unlinked (null block hash, index -1), has no order position, an empty
    map, invalid caches and is not in the mempool. *)
Theorem constructors_initialise (p : option nat) (arg : CTransaction)
    (start1 start2 : WalletTx.CWalletTx) :
  WalletTx.make p arg start1 = WalletTx.make p arg start2 /\
  MerkleTx.make arg (WalletTx.merkle start1) =
    MerkleTx.make arg (WalletTx.merkle start2) /\
  WalletTx.merkle (WalletTx.make p arg start1) = MerkleTx.mk arg 0 (-1) /\
  WalletTx.pwallet (WalletTx.make p arg start1) = p /\
  WalletTx.nOrderPos (WalletTx.make p arg start1) = -1 /\
  WalletTx.mapValue (WalletTx.make p arg start1) = ∅ /\
  WalletTx.caches_invalid (WalletTx.make p arg start1) /\
  WalletTx.fInMempool (WalletTx.make p arg start1) = false.
Proof. unfold WalletTx.caches_invalid. repeat split. Qed.

(** X4. [MarkDirty] is idempotent and changes nothing on a record fresh from
    [Init]; [BindWallet] is [MarkDirty] with the back pointer replaced, so it
    keeps the mempool flag that [Init] clears, and binding twice is binding
    to the last wallet. *)
Theorem rebinding (p q : option nat) (w : WalletTx.CWalletTx) :
  WalletTx.MarkDirty (WalletTx.MarkDirty w) = WalletTx.MarkDirty w /\
  WalletTx.MarkDirty (WalletTx.Init p w) = WalletTx.Init p w /\
  WalletTx.BindWallet p w =
    WalletTx.set_pwallet p (WalletTx.MarkDirty w) /\
  WalletTx.fInMempool (WalletTx.BindWallet p w) = WalletTx.fInMempool w /\
  WalletTx.fInMempool (WalletTx.Init p w) = false /\
  WalletTx.BindWallet p (WalletTx.BindWallet q w) = WalletTx.BindWallet p w.
Proof. repeat split. Qed.

(** The reader on any stream: when it succeeds the stream began with the
    eleven values of a record. *)
Lemma Unserialize_inv (this r : WalletTx.CWalletTx) (s s' : CDataStream) :
  Unserialize this s = Some (r, s') ->
  exists t h mb i vu mv form a b f spent,
    vch s = ([it_tx t; it_uint256 h; it_vec_uint256 mb; it_int i;
              it_vec_merkletx vu; it_mapValue mv; it_vec_pair form;
              it_uint a; it_uint b; it_char f; it_char spent] ++ vch s')%list /\
    nType s' = nType s /\ nVersion s' = nVersion s /\
    r = finish_read (WalletTx.Init None this) (MerkleTx.mk t h i) mv form a b f.
Proof.
  destruct s as [ty ve items]. unfold Unserialize, UnserializeMerkleTx.
  unfold get_tx, get_uint256, get_vec_uint256, get_int, get_vec_merkletx,
    get_mapValue, get_vec_pair, get_uint, get_char.
  cbn [vch mbind option_bind rest nType nVersion].
  intros H.
  repeat match type of H with
  | context [match ?l with [] => _ | _ :: _ => _ end] =>
      destruct l as [|[] ?]; cbn [vch mbind option_bind rest nType nVersion] in H;
        try discriminate H
  end.
  injection H as <- <-. cbn. repeat eexists.
Qed.

Lemma Unserialize_items_later (this w : WalletTx.CWalletTx) (type version : Z)
    (mb : list uint256) (vu : list MerkleTx.CMerkleTx) (spent : Z)
    (later : list item) :
  Unserialize this (Stream.mk type version (wire w mb vu spent ++ later)%list) =
  Some (finish_read (WalletTx.Init None this) (WalletTx.merkle w)
          (mapValueCopy w) (WalletTx.vOrderForm w)
          (WalletTx.fTimeReceivedIsTxTime w) (WalletTx.nTimeReceived w)
          (WalletTx.fFromMe w),
        Stream.mk type version later).
Proof. destruct w as [[t h i]]; reflexivity. Qed.

Lemma Serialize_append (w : WalletTx.CWalletTx) (s : CDataStream) :
  Serialize w s =
  Stream.mk (nType s) (nVersion s) (vch s ++ wire w [] [] 0)%list.
Proof.
  unfold Serialize, SerializeMerkleTx, put. cbn. by rewrite <- !app_assoc.
Qed.

Lemma finish_read_any (this this' : WalletTx.CWalletTx)
    (m : MerkleTx.CMerkleTx) (mv : mapValue_t) (form : list (string * string))
    (a b f : Z) :
  finish_read (WalletTx.Init None this) m mv form a b f =
  finish_read (WalletTx.Init None this') m mv form a b f.
Proof. reflexivity. Qed.

Lemma clamp_int64_range (z : Z) : in_int64 (clamp_int64 z).
Proof.
  unfold clamp_int64, in_int64, INT64_MIN, INT64_MAX.
  destruct (Z.ltb_spec z (-9223372036854775808)); [lia|].
  destruct (Z.ltb_spec 9223372036854775807 z); lia.
Qed.

Lemma atoi64_range (str : string) : in_int64 (atoi64 str).
Proof.
  unfold atoi64.
  destruct (skip_space str) as [|[[] [] [] [] [] [] [] []] r];
    apply clamp_int64_range.
Qed.

Lemma ReadOrderPos_range (m : mapValue_t) : in_int64 (ReadOrderPos m).
Proof.
  unfold ReadOrderPos. destruct (m !! "n"); [apply atoi64_range|].
  unfold in_int64, INT64_MIN, INT64_MAX. lia.
Qed.

Lemma to_uint32_range (z : Z) : 0 <= to_uint32 z < UINT32_MOD.
Proof. unfold to_uint32, UINT32_MOD. apply Z.mod_pos_bound. lia. Qed.

Definition reserved (k : string) : Prop :=
  k = "fromaccount" \/ k = "spent" \/ k = "n" \/ k = "timesmart".

Lemma user_map_reserved (m : mapValue_t) (k : string) :
  reserved k -> user_map m !! k = None.
Proof.
  intros Hk. rewrite user_map_lookup. by rewrite decide_True.
Qed.

Lemma user_map_idem (m : mapValue_t) : user_map (user_map m) = user_map m.
Proof.
  apply map_eq. intros k. rewrite !user_map_lookup. by case_decide.
Qed.

(** What every record that came out of the reader satisfies. *)
Definition clean (r : WalletTx.CWalletTx) : Prop :=
  WalletTx.pwallet r = None /\
  WalletTx.caches_invalid r /\
  WalletTx.fInMempool r = false /\
  (forall k, reserved k -> WalletTx.mapValue r !! k = None) /\
  in_int64 (WalletTx.nOrderPos r) /\
  0 <= WalletTx.nTimeSmart r < UINT32_MOD.

Lemma finish_read_clean (this : WalletTx.CWalletTx) (m : MerkleTx.CMerkleTx)
    (mv : mapValue_t) (form : list (string * string)) (a b f : Z) :
  clean (finish_read (WalletTx.Init None this) m mv form a b f).
Proof.
  unfold clean, WalletTx.caches_invalid, finish_read.
  cbn [WalletTx.pwallet WalletTx.Init WalletTx.fDebitCached
       WalletTx.fCreditCached WalletTx.fImmatureCreditCached
       WalletTx.fAvailableCreditCached WalletTx.fAnonymizedCreditCached
       WalletTx.fDenomUnconfCreditCached WalletTx.fDenomConfCreditCached
       WalletTx.fWatchDebitCached WalletTx.fWatchCreditCached
       WalletTx.fImmatureWatchCreditCached
       WalletTx.fAvailableWatchCreditCached WalletTx.fChangeCached
       WalletTx.fInMempool WalletTx.mapValue WalletTx.nOrderPos
       WalletTx.nTimeSmart].
  repeat split; try done.
  - intros k Hk. by apply (user_map_reserved _ k).
  - apply ReadOrderPos_range.
  - apply ReadOrderPos_range.
  - destruct (_ !! "timesmart"); [apply to_uint32_range|done].
  - destruct (_ !! "timesmart");
      [apply to_uint32_range|unfold UINT32_MOD; lia].
Qed.

Lemma Unserialize_values (this : WalletTx.CWalletTx) (type version : Z)
    (t : CTransaction) (h : uint256) (mb : list uint256) (i : Z)
    (vu : list MerkleTx.CMerkleTx) (mv : mapValue_t)
    (form : list (string * string)) (a b f spent : Z) (later : list item) :
  Unserialize this
    (Stream.mk type version
       ([it_tx t; it_uint256 h; it_vec_uint256 mb; it_int i;
         it_vec_merkletx vu; it_mapValue mv; it_vec_pair form;
         it_uint a; it_uint b; it_char f; it_char spent] ++ later)%list) =
  Some (finish_read (WalletTx.Init None this) (MerkleTx.mk t h i) mv form a b f,
        Stream.mk type version later).
Proof. reflexivity. Qed.

(** X5. [Unserialize] overwrites the whole object: its result does not
    depend on the receiving object, and every record it returns has a null
    back pointer, invalid caches, a clear mempool flag, none of the four
    reserved keys in its map, an order position within 64 bits and a smart
    time within 32 bits. *)
Theorem Unserialize_result_clean (this this' r : WalletTx.CWalletTx)
    (s s' : CDataStream) :
  Unserialize this s = Some (r, s') ->
  Unserialize this' s = Some (r, s') /\ clean r.
Proof.
  intros (t & h & mb & i & vu & mv & form & a & b & f & spent &
          Hs & Hty & Hve & ->)%Unserialize_inv.
  split; [|apply finish_read_clean].
  destruct s as [ty ve items], s' as [ty' ve' later].
  cbn [vch nType nVersion] in Hs, Hty, Hve. subst.
  rewrite (finish_read_any this this'). apply Unserialize_values.
Qed.

Lemma Unserialize_result_clean_witness :
  exists r,
    Unserialize wtx_with_n (Serialize wtx_sample (Stream.empty 0 0)) =
      Some (r, Stream.empty 0 0) /\ clean r.
Proof.
  destruct (Unserialize WalletTx.wtx_blank (Serialize wtx_sample (Stream.empty 0 0)))
    as [[r s']|] eqn:E.
  - exists r.
    assert (s' = Stream.empty 0 0) as ->
      by (vm_compute in E; by injection E as _ <-).
    exact (Unserialize_result_clean WalletTx.wtx_blank wtx_with_n r _ _ E).
  - vm_compute in E. discriminate E.
Defined.

(** X6. Load, save, load: a record that came out of the reader is written
    and read back exactly, field for field, into any receiving object. *)
Theorem load_save_load (this this' r : WalletTx.CWalletTx)
    (s s' : CDataStream) (type version : Z) :
  Unserialize this s = Some (r, s') ->
  Unserialize this' (Serialize r (Stream.empty type version)) =
  Some (r, Stream.empty type version).
Proof.
  intros (t & h & mb & i & vu & mv & form & a & b & f & spent &
          _ & _ & _ & Hr)%Unserialize_inv.
  rewrite Serialize_wire, Unserialize_wire.
  do 2 f_equal.
  destruct (finish_read_clean this (MerkleTx.mk t h i) mv form a b f)
    as (_ & _ & _ & Hkeys & Hpos & Hsmart).
  rewrite <- Hr in Hkeys, Hpos, Hsmart.
  destruct (finish_read_restored (WalletTx.Init None this') r Hpos Hsmart
              (fun _ => Hkeys "n" ltac:(unfold reserved; tauto))
              (fun _ => Hkeys "timesmart" ltac:(unfold reserved; tauto)))
    as (_ & Hmap & _ & _ & _ & _ & Hfrom & Hp & Hts).
  assert (Huser : user_map (WalletTx.mapValue r) = WalletTx.mapValue r).
  { rewrite Hr. unfold finish_read. cbn [WalletTx.mapValue].
    apply user_map_idem. }
  rewrite Huser in Hmap.
  unfold finish_read in Hmap, Hfrom, Hp, Hts |- *.
  cbn [WalletTx.mapValue WalletTx.strFromAccount WalletTx.nOrderPos
       WalletTx.nTimeSmart] in Hmap, Hfrom, Hp, Hts.
  rewrite Hmap, Hfrom, Hp, Hts.
  rewrite Hr. unfold finish_read. reflexivity.
Qed.

Lemma load_save_load_witness :
  exists r,
    Unserialize WalletTx.wtx_blank (Serialize wtx_with_n (Stream.empty 0 0)) =
      Some (r, Stream.empty 0 0) /\
    Unserialize wtx_sample (Serialize r (Stream.empty 0 0)) =
      Some (r, Stream.empty 0 0).
Proof.
  destruct (Unserialize WalletTx.wtx_blank (Serialize wtx_with_n (Stream.empty 0 0)))
    as [[r s']|] eqn:E.
  - exists r.
    assert (s' = Stream.empty 0 0) as ->
      by (vm_compute in E; by injection E as _ <-).
    split; [reflexivity|].
    exact (load_save_load WalletTx.wtx_blank wtx_sample r _ _ 0 0 E).
  - vm_compute in E. discriminate E.
Defined.

(** X7. Records follow one another on a stream: [Serialize] appends to what
    the stream holds, and after two records were written the reader returns
    what it makes of the first one alone and leaves exactly the second. *)
Theorem records_in_sequence (w1 w2 this : WalletTx.CWalletTx)
    (type version : Z) :
  (forall s, vch (Serialize w1 s) = (vch s ++ wire w1 [] [] 0)%list) /\
  exists r1,
    Unserialize this (Serialize w1 (Stream.empty type version)) =
      Some (r1, Stream.empty type version) /\
    Unserialize this
      (Serialize w2 (Serialize w1 (Stream.empty type version))) =
      Some (r1, Serialize w2 (Stream.empty type version)).
Proof.
  split; [intros s; by rewrite Serialize_append|].
  eexists. split; [by rewrite Serialize_wire, Unserialize_wire|].
  rewrite (Serialize_append w2), Serialize_wire.
  cbn [nType nVersion vch]. rewrite Unserialize_items_later.
  by rewrite Serialize_wire.
Qed.

(** X8. A stream that ends inside a record is refused: the reader fails on
    every proper prefix of what [Serialize] writes. *)
Theorem truncated_record_refused (w this : WalletTx.CWalletTx)
    (type version : Z) (k : nat) :
  (k < 11)%nat ->
  Unserialize this (Stream.mk type version (take k (wire w [] [] 0))) = None.
Proof.
  intros Hk. destruct w as [[t h i]].
  do 11 (destruct k as [|k]; [reflexivity|]). lia.
Qed.

Lemma truncated_record_refused_witness :
  Unserialize WalletTx.wtx_blank
    (Stream.mk 0 0 (take 10 (wire wtx_sample [] [] 0))) = None.
Proof. apply (truncated_record_refused wtx_sample WalletTx.wtx_blank 0 0 10). lia. Defined.

End WalletTxFacts.

(** ** Accounting entries: what the reader returns and refuses *)

Module AcctEntryFacts.
Import Stream Wire AcctEntry.

(** [CAccountingEntry::SetNull]: the map and the extra bytes are not among
    the members it resets. *)
Definition SetNull (e : CAccountingEntry) : CAccountingEntry :=
  {| strAccount := ""; nCreditDebit := 0; nTime := 0; strOtherAccount := "";
     strComment := ""; mapValue := mapValue e; nOrderPos := -1; nEntryNo := 0;
     _ssExtra := _ssExtra e |}.

Lemma find_nul_take (str : string) :
  forall p, find_nul str = Some p ->
  find_nul (string_take p str) = None /\
  String.length (string_take p str) = p /\ (p < String.length str)%nat.
Proof.
  induction str as [|c str IH]; intros p Hp; [discriminate|].
  cbn [find_nul] in Hp. destruct (Ascii.eqb c NUL) eqn:Hc.
  - injection Hp as <-. cbn. split; [done|]. split; lia.
  - destruct (find_nul str) as [q|]; [|discriminate]. injection Hp as <-.
    destruct (IH q eq_refl) as (Hn & Hl & Hlt).
    cbn [string_take find_nul String.length]. rewrite Hc, Hn, Hl.
    split; [done|]. split; lia.
Qed.

Lemma find_nul_app_l (a b : string) (p : nat) :
  find_nul a = Some p ->
  find_nul (a +:+ b) = Some p /\ string_take p (a +:+ b) = string_take p a.
Proof.
  revert p. induction a as [|c a IH]; intros p Hp; [discriminate|].
  rewrite string_app_cons. cbn [find_nul] in *.
  destruct (Ascii.eqb c NUL); [by injection Hp as <-|].
  destruct (find_nul a) as [q|]; [|discriminate]. injection Hp as <-.
  destruct (IH q eq_refl) as [-> Ht]. cbn. by rewrite Ht.
Qed.

Lemma read_fields_inv (this r : CAccountingEntry) (credit time : Z)
    (other comment : string) :
  read_fields this credit time other comment = Some r ->
  strlen other <= 65536 /\ strlen comment <= 65536 /\
  nCreditDebit r = credit /\ nTime r = time /\ strOtherAccount r = other /\
  strAccount r = strAccount this /\ nEntryNo r = nEntryNo this /\
  mapValue r !! "n" = None /\
  in_int64 (nOrderPos r) /\
  strComment r =
    match find_nul comment with
    | Some p => string_take p comment
    | None => comment
    end /\
  (find_nul comment = None -> mapValue r = ∅ /\ _ssExtra r = _ssExtra this).
Proof.
  unfold read_fields.
  destruct (Z.ltb_spec 65536 (strlen other)); [discriminate|].
  destruct (Z.ltb_spec 65536 (strlen comment)); [discriminate|].
  destruct (find_nul comment) as [p|].
  - destruct (unser_map _) as [[mv extra]|]; [|discriminate]. cbn.
    intros [= <-]. cbn. repeat split; try done; try lia.
    + apply lookup_delete_eq.
    + apply WalletTxFacts.ReadOrderPos_range.
    + apply WalletTxFacts.ReadOrderPos_range.
  - cbn. intros [= <-]. cbn. by repeat split; try lia.
Qed.

Lemma get_limited_string_inv (Limit : Z) (s s' : CDataStream) (v : string) :
  get_limited_string Limit s = Some (v, s') -> (Limit <? strlen v) = false.
Proof.
  unfold get_limited_string, strlen.
  destruct (vch s) as [|[] ?]; try discriminate.
  destruct (Limit <? _) eqn:E; [discriminate|]. by intros [= <- _].
Qed.

Lemma entry_Unserialize_inv (this r : CAccountingEntry) (s s' : CDataStream) :
  Unserialize this s = Some (r, s') ->
  exists credit time other comment,
    read_fields this credit time other comment = Some r.
Proof.
  unfold Unserialize. intros H.
  destruct (if for_hash s then _ else _) as [[nv s1]|];
    cbn [mbind option_bind] in H; [|discriminate].
  destruct (get_int64 s1) as [[credit s2]|];
    cbn [mbind option_bind] in H; [|discriminate].
  destruct (get_int64 s2) as [[time s3]|];
    cbn [mbind option_bind] in H; [|discriminate].
  destruct (get_limited_string 65536 s3) as [[other s4]|] eqn:Eo;
    cbn [mbind option_bind] in H; [|discriminate].
  destruct (get_limited_string 65536 s4) as [[comment s5]|] eqn:Ec;
    cbn [mbind option_bind] in H; [|discriminate].
  exists credit, time, other, comment. unfold read_fields.
  rewrite (get_limited_string_inv _ _ _ _ Eo),
    (get_limited_string_inv _ _ _ _ Ec).
  destruct (find_nul comment) as [p|];
    [destruct (unser_map _) as [[mv extra]|]|];
    cbn [mbind option_bind] in H |- *; try discriminate;
    by injection H as <- _.
Qed.

(** X9. Every entry the reader returns has a comment without NUL, a map
    without the key "n", both strings within 65536 bytes and an order
    position within 64 bits; [strAccount] and [nEntryNo] are those of the
    receiving object, which the reader does not write. *)
Theorem entry_read_invariants (this r : CAccountingEntry)
    (s s' : CDataStream) :
  Unserialize this s = Some (r, s') ->
  find_nul (strComment r) = None /\
  mapValue r !! "n" = None /\
  strlen (strOtherAccount r) <= 65536 /\
  strlen (strComment r) <= 65536 /\
  in_int64 (nOrderPos r) /\
  strAccount r = strAccount this /\ nEntryNo r = nEntryNo this.
Proof.
  intros (credit & time & other & comment & Hread)%entry_Unserialize_inv.
  destruct (read_fields_inv _ _ _ _ _ _ Hread)
    as (Ho & Hc & _ & _ & Hother & Hacc & Hno & Hn & Hpos & Hcomment & _).
  rewrite Hother, Hcomment.
  assert (Hcut : find_nul
            match find_nul comment with
            | Some p => string_take p comment
            | None => comment
            end = None /\
          strlen match find_nul comment with
                 | Some p => string_take p comment
                 | None => comment
                 end <= 65536).
  { destruct (find_nul comment) as [p|] eqn:E; [|done].
    destruct (find_nul_take comment p E) as (Hnn & Hl & Hlt).
    split; [done|]. unfold strlen in *. lia. }
  destruct Hcut as [Hnul Hlen], Hpos as [Hlo Hhi].
  split; [exact Hnul|]. split; [exact Hn|]. split; [exact Ho|].
  split; [exact Hlen|]. split; [by split|]. by split.
Qed.

Lemma entry_read_invariants_witness :
  exists r,
    Unserialize fresh (Serialize entry_sample (Stream.empty 0 0)) =
      Some (r, Stream.empty 0 0) /\
    find_nul (strComment r) = None /\ mapValue r !! "n" = None.
Proof.
  destruct (Unserialize fresh (Serialize entry_sample (Stream.empty 0 0)))
    as [[r s']|] eqn:E.
  - exists r.
    assert (s' = Stream.empty 0 0) as ->
      by (vm_compute in E; by injection E as _ <-).
    split; [reflexivity|].
    destruct (entry_read_invariants fresh r _ _ E) as (H1 & H2 & _).
    by split.
  - vm_compute in E. discriminate E.
Defined.

Lemma is_empty_spec (str : string) : is_empty str = true <-> str = "".
Proof. by destruct str. Qed.






(** X11. An entry whose other account, or whose comment field as written
    (comment, separator, map and extra bytes), is longer than 65536 bytes is
    written in full and refused by the reader, whatever the receiving
    object. *)
Theorem oversized_entry_unreadable (this e : CAccountingEntry)
    (type version : Z) :
  65536 < strlen (strOtherAccount e) \/ 65536 < strlen (strCommentCopy e) ->
  Unserialize this (Serialize e (Stream.empty type version)) = None.
Proof.
  intros H. rewrite Serialize_items, Unserialize_items. unfold read_fields.
  destruct (Z.ltb_spec 65536 (strlen (strOtherAccount e))); [done|].
  destruct (Z.ltb_spec 65536 (strlen (strCommentCopy e))); [done|]. lia.
Qed.

Definition entry_long_other : CAccountingEntry :=
  {| strAccount := ""; nCreditDebit := 0; nTime := 0;
     strOtherAccount := string_repeat "b" (Z.to_nat 65537);
     strComment := ""; mapValue := ∅; nOrderPos := -1; nEntryNo := 0;
     _ssExtra := "" |}.

Lemma oversized_entry_unreadable_witness :
  Unserialize fresh (Serialize entry_long_other (Stream.empty 0 0)) = None.
Proof.
  apply (oversized_entry_unreadable fresh entry_long_other 0 0).
  left. vm_compute. reflexivity.
Defined.

(** X12. A comment that holds a NUL byte does not survive: whenever the
    written entry can be read at all, the comment read is the part before
    the first NUL, which differs from the comment written. *)
Theorem comment_cut_at_nul (this e r : CAccountingEntry) (type version : Z)
    (p : nat) (s : CDataStream) :
  find_nul (strComment e) = Some p ->
  Unserialize this (Serialize e (Stream.empty type version)) = Some (r, s) ->
  strComment r = string_take p (strComment e) /\
  strComment r <> strComment e.
Proof.
  intros Hp. rewrite Serialize_items, Unserialize_items.
  destruct (read_fields _ _ _ _ _) as [r'|] eqn:Hread; [|discriminate].
  cbn. intros [= <- _].
  destruct (read_fields_inv _ _ _ _ _ _ Hread)
    as (_ & _ & _ & _ & _ & _ & _ & _ & _ & Hcomment & _).
  assert (Hcut : find_nul (strCommentCopy e) = Some p /\
                 string_take p (strCommentCopy e) =
                 string_take p (strComment e)).
  { unfold strCommentCopy. destruct (_ || _).
    - by apply find_nul_app_l.
    - done. }
  destruct Hcut as [Hfind Htake]. rewrite Hfind, Htake in Hcomment.
  split; [done|]. intros Heq.
  destruct (find_nul_take _ _ Hp) as (Hn & _). congruence.
Qed.

Definition entry_nul_comment : CAccountingEntry :=
  {| strAccount := ""; nCreditDebit := 0; nTime := 0; strOtherAccount := "";
     strComment := "ab" +:+ String NUL (String NUL "");
     mapValue := ∅; nOrderPos := -1; nEntryNo := 0; _ssExtra := "" |}.

Lemma comment_cut_at_nul_witness :
  exists r,
    Unserialize fresh (Serialize entry_nul_comment (Stream.empty 0 0)) =
      Some (r, Stream.empty 0 0) /\
    strComment r = "ab".
Proof.
  destruct (Unserialize fresh (Serialize entry_nul_comment (Stream.empty 0 0)))
    as [[r s']|] eqn:E.
  - exists r.
    assert (s' = Stream.empty 0 0) as ->
      by (vm_compute in E; by injection E as _ <-).
    split; [reflexivity|].
    by destruct (comment_cut_at_nul fresh entry_nul_comment r 0 0 2%nat _
                   eq_refl E) as [-> _].
  - vm_compute in E. discriminate E.
Defined.

(** X13. [SetNull] resets the scalar members and the strings but neither
    the map nor the extra bytes: it is idempotent, leaves a new entry as it
    is, and the comment field written for a nulled entry is empty exactly
    when the entry had no map and no extra bytes before. *)
Theorem SetNull_keeps_containers (e : CAccountingEntry) :
  SetNull (SetNull e) = SetNull e /\
  SetNull fresh = fresh /\
  strCommentCopy (SetNull e) =
    (if negb (bool_decide (mapValue e = ∅)) || negb (is_empty (_ssExtra e))
     then String NUL (ser_map (mapValue e) +:+ _ssExtra e) else "") /\
  (strCommentCopy (SetNull e) = "" <-> mapValue e = ∅ /\ _ssExtra e = "").
Proof.
  assert (Hcopy : strCommentCopy (SetNull e) =
    (if negb (bool_decide (mapValue e = ∅)) || negb (is_empty (_ssExtra e))
     then String NUL (ser_map (mapValue e) +:+ _ssExtra e) else ""))
    by (unfold strCommentCopy, SetNull, WriteOrderPos; cbn;
        by destruct (_ || _)).
  split; [done|]. split; [done|]. split; [exact Hcopy|].
  rewrite Hcopy. destruct (bool_decide_reflect (mapValue e = ∅)) as [Hm|Hm];
    destruct (_ssExtra e) as [|c x]; cbn; naive_solver.
Qed.

End AcctEntryFacts.

(** ** Rescan reservation: the flag follows the holder *)

Module RescanFacts.
Import Rescan.

(** [CWallet::IsScanning] *)
Definition IsScanning (s : system) : bool := fScanningWallet s.

Lemma holds_isReserved (s : system) (i : nat) :
  fScanningWallet s = true ->
  holds s i <->
  exists r, reservers s !! i = Some r /\
            isReserved r (fScanningWallet s) = true.
Proof.
  intros Hw. unfold holds, isReserved. rewrite Hw.
  split; intros (r & Hr & Hc); exists r; split; try done.
  - by rewrite Hc.
  - by apply andb_true_iff in Hc as [? _].
Qed.

(** X14. In every state reached by creating, reserving and destroying
    reservers, the wallet is scanning exactly when some live reserver
    reports [isReserved]; once every reserver has been destroyed the flag
    is clear. *)
Theorem scanning_iff_reserved (s : system) :
  reachable s ->
  (IsScanning s = true <->
   exists i r, reservers s !! i = Some r /\
               isReserved r (fScanningWallet s) = true) /\
  (reservers s = ∅ -> IsScanning s = false).
Proof.
  intros [Hflag _]%reachable_exclusive. unfold IsScanning. split; [split|].
  - intros Hw. destruct (proj1 Hflag Hw) as (i & Hi).
    exists i. by apply holds_isReserved.
  - intros (i & r & Hr & [_ Hw]%andb_true_iff). done.
  - intros Hempty. destruct (fScanningWallet s) eqn:Hw; [|done].
    destruct (proj1 Hflag eq_refl) as (i & r & Hr & _).
    by rewrite Hempty, lookup_empty in Hr.
Qed.

Lemma scanning_iff_reserved_witness :
  IsScanning two_reservers = true <->
  exists i r, reservers two_reservers !! i = Some r /\
              isReserved r (fScanningWallet two_reservers) = true.
Proof.
  apply (scanning_iff_reserved two_reservers).
  exists [New 2%nat; New 1%nat; Reserve 1%nat]. vm_compute. reflexivity.
Defined.

(** X15. In a reachable state whose flag is clear, [reserve] on any live
    reserver passes its assertion, returns true and sets the flag; a second
    [reserve] on the same reserver then fails the assertion. *)
Theorem reserve_when_idle (s : system) (j : nat) (rj : WalletRescanReserver) :
  reachable s -> fScanningWallet s = false -> reservers s !! j = Some rj ->
  reserve rj (fScanningWallet s) = Some (true, mk true, true) /\
  exists s', exec (Reserve j) s = Some s' /\
             fScanningWallet s' = true /\
             reservers s' = <[j := mk true]> (reservers s) /\
             exec (Reserve j) s' = None.
Proof.
  intros [Hflag _]%reachable_exclusive Hw Hj.
  assert (Hcj : m_could_reserve rj = false).
  { destruct (m_could_reserve rj) eqn:E; [|done].
    assert (fScanningWallet s = true) by (apply Hflag; exists j, rj; done).
    congruence. }
  assert (Hres : reserve rj (fScanningWallet s) = Some (true, mk true, true))
    by (unfold reserve; by rewrite Hcj, Hw).
  split; [done|]. eexists. split.
  - unfold exec. rewrite Hj. cbn [mbind option_bind]. rewrite Hres.
    reflexivity.
  - cbn. split; [done|]. split; [done|]. by rewrite lookup_insert_eq.
Qed.

Definition idle_reserver : system :=
  {| fScanningWallet := false; reservers := {[ 5%nat := mk false ]} |}.

Lemma reserve_when_idle_witness :
  reserve (mk false) false = Some (true, mk true, true).
Proof.
  apply (reserve_when_idle idle_reserver 5 (mk false)); [|reflexivity..].
  exists [New 5%nat]. vm_compute. reflexivity.
Defined.

(** X16. Destroying a live reserver that does not report [isReserved]
    changes neither the flag nor any other reserver, so the holder, if
    there is one, still reports [isReserved]. *)
Theorem destroy_non_holder (s : system) (j : nat) (rj : WalletRescanReserver) :
  reservers s !! j = Some rj -> isReserved rj (fScanningWallet s) = false ->
  exists s', exec (Destroy j) s = Some s' /\
             fScanningWallet s' = fScanningWallet s /\
             reservers s' !! j = None /\
             forall i, i <> j -> reservers s' !! i = reservers s !! i.
Proof.
  intros Hj Hnot.
  assert (Hkeep : destroy rj (fScanningWallet s) = fScanningWallet s).
  { unfold destroy, isReserved in *.
    by destruct (m_could_reserve rj), (fScanningWallet s). }
  eexists. split; [unfold exec; rewrite Hj; reflexivity|]. cbn.
  split; [done|]. split; [apply lookup_delete_eq|].
  intros i Hne. by apply lookup_delete_ne.
Qed.

Lemma destroy_non_holder_witness :
  exists s', exec (Destroy 2%nat) two_reservers = Some s' /\
             fScanningWallet s' = true /\
             reservers s' !! 1%nat = Some (mk true).
Proof.
  destruct (destroy_non_holder two_reservers 2 (mk false))
    as (s' & Hexec & Hw & _ & Hothers); [reflexivity.. |].
  exists s'. split; [done|]. split; [done|].
  rewrite Hothers by lia. reflexivity.
Defined.

End RescanFacts.

(** ** Wallet version and request counts *)

Module WalletState.

(** [enum WalletFeature], by its values; [FEATURE_LATEST] is another name of
    [FEATURE_COMPRPUBKEY]. *)
Inductive WalletFeature :=
  | FEATURE_BASE
  | FEATURE_WALLETCRYPT
  | FEATURE_COMPRPUBKEY
  | FEATURE_HD
  | FEATURE_HD_SPLIT
  | FEATURE_NO_DEFAULT_KEY.

Definition FEATURE_LATEST : WalletFeature := FEATURE_COMPRPUBKEY.

Definition feature_value (wf : WalletFeature) : Z :=
  match wf with
  | FEATURE_BASE => 10500
  | FEATURE_WALLETCRYPT => 40000
  | FEATURE_COMPRPUBKEY => 60000
  | FEATURE_HD => 130000
  | FEATURE_HD_SPLIT => 139900
  | FEATURE_NO_DEFAULT_KEY => 159900
  end.

Definition INT_MAX : Z := 2147483647.

(** The members of [CWallet] used below. *)
Record CWallet := mk {
  nWalletVersion : Z;
  nWalletMaxVersion : Z;
  mapRequestCount : gmap uint256 Z
}.

(** [CWallet::SetNull], on these members: the request counts are not
    among the members it resets. *)
Definition SetNull (w : CWallet) : CWallet :=
  {| nWalletVersion := feature_value FEATURE_BASE;
     nWalletMaxVersion := feature_value FEATURE_BASE;
     mapRequestCount := mapRequestCount w |}.

Definition CanSupportFeature (wf : WalletFeature) (w : CWallet) : bool :=
  feature_value wf <=? nWalletMaxVersion w.

Definition LoadMinVersion (nVersion : Z) (w : CWallet) : bool * CWallet :=
  (true,
   {| nWalletVersion := nVersion;
      nWalletMaxVersion := Z.max (nWalletMaxVersion w) nVersion;
      mapRequestCount := mapRequestCount w |}).

Definition GetVersion (w : CWallet) : Z := nWalletVersion w.

(** [LoadMinVersion] for each version of a list, in order. *)
Definition load_versions (vs : list Z) (w : CWallet) : CWallet :=
  foldl (fun w v => (LoadMinVersion v w).2) w vs.

(** [Inventory]: the count of a hash present in the map goes up by one;
    [None] where the increment would overflow the [int]. *)
Definition Inventory (hash : uint256) (w : CWallet) : option CWallet :=
  match mapRequestCount w !! hash with
  | Some c =>
      if c =? INT_MAX then None
      else Some {| nWalletVersion := nWalletVersion w;
                   nWalletMaxVersion := nWalletMaxVersion w;
                   mapRequestCount := <[hash := c + 1]> (mapRequestCount w) |}
  | None => Some w
  end.

Lemma foldr_max_start (a v : Z) (vs : list Z) :
  foldr Z.max (Z.max a v) vs = Z.max v (foldr Z.max a vs).
Proof. induction vs as [|x vs IH]; cbn; [lia|]. rewrite IH. lia. Qed.

Lemma load_versions_closed (vs : list Z) :
  forall w,
    nWalletVersion (load_versions vs w) = default (nWalletVersion w) (last vs) /\
    nWalletMaxVersion (load_versions vs w) =
      foldr Z.max (nWalletMaxVersion w) vs /\
    mapRequestCount (load_versions vs w) = mapRequestCount w.
Proof.
  induction vs as [|v vs IH]; intros w; [done|].
  unfold load_versions in *. cbn [foldl].
  destruct (IH (LoadMinVersion v w).2) as (Hv & Hm & Hc).
  rewrite Hv, Hm, Hc. cbn [LoadMinVersion snd nWalletVersion nWalletMaxVersion
                           mapRequestCount foldr].
  split; [|split; [apply foldr_max_start|done]].
  rewrite last_cons. by destruct (last vs).
Qed.

Lemma foldr_max_spec (a : Z) (vs : list Z) (x : Z) :
  x <= foldr Z.max a vs <-> exists v, v ∈ a :: vs /\ x <= v.
Proof.
  induction vs as [|v vs IH]; cbn.
  - split; [intros; exists a; split; [set_solver|lia]|].
    intros (v & Hv & ?). assert (v = a) as -> by set_solver. done.
  - split.
    + intros H. destruct (Z.max_spec v (foldr Z.max a vs)) as [[_ E]|[_ E]];
        rewrite E in H.
      * apply IH in H as (y & Hy & ?). exists y. split; [set_solver|done].
      * exists v. split; [set_solver|done].
    + intros (y & Hy & Hxy).
      assert (Hcase : y = v \/ y ∈ a :: vs) by set_solver.
      destruct Hcase as [->|Hin]; [lia|].
      assert (x <= foldr Z.max a vs) by (apply IH; eauto). lia.
Qed.

(** X17. After [SetNull] and any sequence of [LoadMinVersion] calls, the
    wallet version is the version loaded last (the base version when none
    was), the maximal version is the largest of the base version and all
    versions loaded, the version never exceeds the maximal version, and a
    feature is supported exactly when the base version or some loaded
    version reaches it. *)
Theorem loaded_versions (vs : list Z) (w : CWallet) :
  let w' := load_versions vs (SetNull w) in
  GetVersion w' = default 10500 (last vs) /\
  nWalletMaxVersion w' = foldr Z.max 10500 vs /\
  GetVersion w' <= nWalletMaxVersion w' /\
  CanSupportFeature FEATURE_BASE w' = true /\
  (forall wf, CanSupportFeature wf w' = true <->
              exists v, v ∈ 10500 :: vs /\ feature_value wf <= v) /\
  mapRequestCount w' = mapRequestCount w.
Proof.
  intros w'. unfold GetVersion, CanSupportFeature.
  destruct (load_versions_closed vs (SetNull w)) as (Hv & Hm & Hc).
  fold w' in Hv, Hm, Hc. cbn in Hv, Hm, Hc. rewrite Hv, Hm, Hc.
  assert (Hbase : 10500 <= foldr Z.max 10500 vs)
    by (apply foldr_max_spec; exists 10500; split; [set_solver|lia]).
  split; [done|]. split; [done|]. split; [|split; [|split; [|done]]].
  - destruct (last vs) as [v|] eqn:E; cbn; [|done].
    apply foldr_max_spec. exists v. split; [|lia].
    apply last_Some_elem_of in E. set_solver.
  - cbn. by apply Z.leb_le.
  - intros wf. rewrite Z.leb_le. apply foldr_max_spec.
Qed.

(** X18. Loading a version never takes a supported feature away, although
    the wallet version itself may go down. *)
Theorem support_never_lost (wf : WalletFeature) (v : Z) (w : CWallet) :
  CanSupportFeature wf w = true ->
  CanSupportFeature wf (LoadMinVersion v w).2 = true /\
  GetVersion (LoadMinVersion v w).2 = v.
Proof.
  unfold CanSupportFeature, LoadMinVersion, GetVersion. cbn.
  rewrite !Z.leb_le. lia.
Qed.

Definition wallet_hd : CWallet :=
  load_versions [130000] (SetNull (mk 0 0 ∅)).

Lemma support_never_lost_witness :
  CanSupportFeature FEATURE_HD wallet_hd = true /\
  CanSupportFeature FEATURE_HD (LoadMinVersion 60000 wallet_hd).2 = true /\
  GetVersion (LoadMinVersion 60000 wallet_hd).2 = 60000.
Proof.
  split; [reflexivity|].
  apply (support_never_lost FEATURE_HD 60000 wallet_hd). reflexivity.
Defined.

(** X19. [Inventory] counts only hashes already in the map: it never adds
    or removes a key, leaves the wallet as it is for an unknown hash, adds
    one to the count of a known hash and touches no other count or member. *)
Theorem Inventory_counts_known (hash : uint256) (w w' : CWallet) :
  Inventory hash w = Some w' ->
  dom (mapRequestCount w') = dom (mapRequestCount w) /\
  (mapRequestCount w !! hash = None -> w' = w) /\
  (forall c, mapRequestCount w !! hash = Some c ->
             c <> INT_MAX /\ mapRequestCount w' !! hash = Some (c + 1)) /\
  (forall k, k <> hash -> mapRequestCount w' !! k = mapRequestCount w !! k) /\
  nWalletVersion w' = nWalletVersion w /\
  nWalletMaxVersion w' = nWalletMaxVersion w.
Proof.
  unfold Inventory. destruct (mapRequestCount w !! hash) as [c|] eqn:Hc.
  - destruct (Z.eqb_spec c INT_MAX) as [|Hne]; [discriminate|].
    intros [= <-]. cbn. split; [|split; [done|split; [|split; [|done]]]].
    + apply set_eq. intros k. rewrite dom_insert, elem_of_union,
        elem_of_singleton, !elem_of_dom.
      split; [intros [->|]; [by rewrite Hc|done]|tauto].
    + intros c' [= <-]. split; [done|]. apply lookup_insert_eq.
    + intros k Hk. by apply lookup_insert_ne.
  - intros [= <-]. split; [done|]. split; [done|]. split; [done|]. done.
Qed.

Definition wallet_requests : CWallet := mk 10500 10500 {[ 7 := 2 ]}.

Lemma Inventory_counts_known_witness :
  exists w', Inventory 7 wallet_requests = Some w' /\
             mapRequestCount w' !! 7 = Some 3 /\
             Inventory 8 wallet_requests = Some wallet_requests.
Proof.
  destruct (Inventory 7 wallet_requests) as [w'|] eqn:E;
    [|vm_compute in E; discriminate E].
  exists w'. split; [reflexivity|].
  destruct (Inventory_counts_known 7 wallet_requests w' E)
    as (_ & _ & Hknown & _).
  split; [by apply (Hknown 2)|reflexivity].
Defined.

End WalletState.

(** ** Key records on the wire *)

Module KeyRecords.

(** The values the key records put on a stream; a public key and a private
    key are each one value, read back as written. *)
Inductive item :=
  | k_int (v : Z)
  | k_int64 (v : Z)
  | k_bool (v : bool)
  | k_pubkey (v : Z)
  | k_privkey (v : string)
  | k_string (v : string).

Record KeyStream := mkStream { nType : Z; nVersion : Z; vch : list item }.

Definition empty (type version : Z) : KeyStream := mkStream type version [].

Definition put (i : item) (s : KeyStream) : KeyStream :=
  mkStream (nType s) (nVersion s) (vch s ++ [i]).

Definition rest (r : list item) (s : KeyStream) : KeyStream :=
  mkStream (nType s) (nVersion s) r.

Definition for_hash (s : KeyStream) : bool :=
  negb (Z.land (nType s) AcctEntry.SER_GETHASH =? 0).

Definition get_int (s : KeyStream) : option (Z * KeyStream) :=
  match vch s with k_int v :: r => Some (v, rest r s) | _ => None end.

Definition get_int64 (s : KeyStream) : option (Z * KeyStream) :=
  match vch s with k_int64 v :: r => Some (v, rest r s) | _ => None end.

Definition get_pubkey (s : KeyStream) : option (Z * KeyStream) :=
  match vch s with k_pubkey v :: r => Some (v, rest r s) | _ => None end.

Definition get_privkey (s : KeyStream) : option (string * KeyStream) :=
  match vch s with k_privkey v :: r => Some (v, rest r s) | _ => None end.

Definition get_limited_string (Limit : Z) (s : KeyStream)
  : option (string * KeyStream) :=
  match vch s with
  | k_string v :: r =>
      if Limit <? Wire.strlen v then None else Some (v, rest r s)
  | _ => None
  end.

(** [try { READWRITE(fInternal); } catch (std::ios_base::failure&)
    { fInternal = false; }]: at the end of the data the read throws and
    the flag is set to false; a value of another kind after the key is
    outside this model. *)
Definition get_bool_or_false (s : KeyStream) : option (bool * KeyStream) :=
  match vch s with
  | k_bool v :: r => Some (v, rest r s)
  | [] => Some (false, s)
  | _ => None
  end.

(** [READWRITE(nVersion)] unless the stream is for hashing. *)
Definition put_version (s : KeyStream) : KeyStream :=
  if for_hash s then s else put (k_int (nVersion s)) s.

Definition get_version (s : KeyStream) : option (Z * KeyStream) :=
  if for_hash s then Some (nVersion s, s) else get_int s.

(** [CKeyPool::SerializationOp], writing and reading. *)
Definition SerializeKeyPool (k : KeyPool.CKeyPool) (s : KeyStream) : KeyStream :=
  put (k_bool (KeyPool.fInternal k))
    (put (k_pubkey (KeyPool.vchPubKey k))
       (put (k_int64 (KeyPool.nTime k)) (put_version s))).

Definition UnserializeKeyPool (s : KeyStream)
  : option (KeyPool.CKeyPool * KeyStream) :=
  '(nVersion, s) ← get_version s;
  '(time, s) ← get_int64 s;
  '(pubkey, s) ← get_pubkey s;
  '(internal, s) ← get_bool_or_false s;
  Some (KeyPool.mkKeyPool time pubkey internal, s).

(** A record as written before the chain split: no flag. *)
Definition SerializeKeyPoolLegacy (time pubkey : Z) (s : KeyStream) : KeyStream :=
  put (k_pubkey pubkey) (put (k_int64 time) (put_version s)).

Record CWalletKey := mkWalletKey {
  vchPrivKey : string;
  nTimeCreated : Z;
  nTimeExpires : Z;
  strComment : string
}.

(** [CWalletKey::SerializationOp], writing and reading. *)
Definition SerializeWalletKey (k : CWalletKey) (s : KeyStream) : KeyStream :=
  put (k_string (strComment k))
    (put (k_int64 (nTimeExpires k))
       (put (k_int64 (nTimeCreated k))
          (put (k_privkey (vchPrivKey k)) (put_version s)))).

Definition UnserializeWalletKey (s : KeyStream)
  : option (CWalletKey * KeyStream) :=
  '(nVersion, s) ← get_version s;
  '(priv, s) ← get_privkey s;
  '(created, s) ← get_int64 s;
  '(expires, s) ← get_int64 s;
  '(comment, s) ← get_limited_string 65536 s;
  Some (mkWalletKey priv created expires comment, s).

Record CAccount := mkAccount { acc_vchPubKey : Z }.

(** [CAccount::SetNull]: the invalid key [CPubKey()]. *)
Definition AccountSetNull (a : CAccount) : CAccount := mkAccount 0.

(** [CAccount::SerializationOp], writing and reading. *)
Definition SerializeAccount (a : CAccount) (s : KeyStream) : KeyStream :=
  put (k_pubkey (acc_vchPubKey a)) (put_version s).

Definition UnserializeAccount (s : KeyStream) : option (CAccount * KeyStream) :=
  '(nVersion, s) ← get_version s;
  '(pubkey, s) ← get_pubkey s;
  Some (mkAccount pubkey, s).

(** The version item, when there is one. *)
Definition header (type version : Z) : list item :=
  if for_hash (empty type version) then [] else [k_int version].

Lemma put_version_items (type version : Z) (l : list item) :
  put_version (mkStream type version l) =
  mkStream type version (l ++ header type version).
Proof.
  unfold put_version, header, for_hash. cbn.
  destruct (negb _); [by rewrite app_nil_r|done].
Qed.

Lemma get_version_header (type version : Z) (l : list item) :
  get_version (mkStream type version (header type version ++ l)) =
  Some (version, mkStream type version l).
Proof.
  unfold get_version, header, for_hash. cbn. by destruct (negb _).
Qed.

Lemma SerializeKeyPool_items (k : KeyPool.CKeyPool) (type version : Z)
    (l : list item) :
  SerializeKeyPool k (mkStream type version l) =
  mkStream type version
    (l ++ header type version ++
     [k_int64 (KeyPool.nTime k); k_pubkey (KeyPool.vchPubKey k);
      k_bool (KeyPool.fInternal k)]).
Proof.
  unfold SerializeKeyPool. rewrite put_version_items. unfold put. cbn.
  by rewrite <- !(assoc_L (++)).
Qed.

Lemma UnserializeKeyPool_items (type version time pubkey : Z) (b : bool)
    (l : list item) :
  UnserializeKeyPool
    (mkStream type version
       (header type version ++ k_int64 time :: k_pubkey pubkey :: k_bool b :: l)) =
  Some (KeyPool.mkKeyPool time pubkey b, mkStream type version l).
Proof. unfold UnserializeKeyPool. by rewrite get_version_header. Qed.

(** X20. A key pool entry written to a stream is read back unchanged, in
    hashing mode or not, and of two entries written one after the other the
    reader returns the first and leaves exactly the second. *)
Theorem keypool_entry_roundtrip (k1 k2 : KeyPool.CKeyPool) (type version : Z) :
  UnserializeKeyPool (SerializeKeyPool k1 (empty type version)) =
    Some (k1, empty type version) /\
  UnserializeKeyPool
    (SerializeKeyPool k2 (SerializeKeyPool k1 (empty type version))) =
    Some (k1, SerializeKeyPool k2 (empty type version)).
Proof.
  unfold empty. rewrite !SerializeKeyPool_items. cbn [app].
  rewrite <- (assoc_L (++)). cbn [app].
  rewrite !UnserializeKeyPool_items. by destruct k1.
Qed.

(** X21. A key pool entry cut short: with the flag missing (as written
    before the chain split) it is read as an external key; with the key or
    the time missing the read fails; otherwise the entry is read as
    written. *)
Theorem keypool_entry_truncated (k : KeyPool.CKeyPool) (type version : Z)
    (n : nat) :
  let h := length (header type version) in
  UnserializeKeyPool
    (mkStream type version
       (take n (vch (SerializeKeyPool k (empty type version))))) =
  if (n <? h + 2)%nat then None
  else if (n =? h + 2)%nat
       then Some (KeyPool.mkKeyPool (KeyPool.nTime k) (KeyPool.vchPubKey k)
                    false, empty type version)
       else Some (k, empty type version).
Proof.
  unfold empty. rewrite SerializeKeyPool_items. cbn [app vch].
  unfold UnserializeKeyPool, get_version, header, for_hash, empty.
  cbn [nType nVersion vch].
  destruct k as [time pubkey internal].
  destruct (negb _); cbn [length];
    do 5 (destruct n as [|n]; [reflexivity|]); reflexivity.
Qed.

(** X22. A wallet key written to a stream is read back unchanged when its
    comment has at most 65536 bytes, and is refused by the reader when the
    comment is longer, although the writer wrote it in full. *)
Theorem walletkey_roundtrip (k : CWalletKey) (type version : Z) :
  UnserializeWalletKey (SerializeWalletKey k (empty type version)) =
  if 65536 <? Wire.strlen (strComment k) then None
  else Some (k, empty type version).
Proof.
  unfold SerializeWalletKey, empty. rewrite put_version_items. unfold put.
  cbn [nType nVersion vch app]. rewrite <- !(assoc_L (++)). cbn [app].
  unfold UnserializeWalletKey. rewrite get_version_header.
  cbn [mbind option_bind get_privkey get_int64 vch rest nType nVersion].
  unfold get_limited_string, rest. cbn [vch nType nVersion].
  destruct (65536 <? _); [done|]. by destruct k.
Qed.

(** An account is read back as written, in hashing mode or not. *)
Lemma account_roundtrip (a : CAccount) (type version : Z) :
  UnserializeAccount (SerializeAccount a (empty type version)) =
  Some (a, empty type version).
Proof.
  unfold SerializeAccount, empty. rewrite put_version_items. unfold put.
  cbn [nType nVersion vch app]. unfold UnserializeAccount.
  rewrite get_version_header. by destruct a.
Qed.

(** X23. In hashing mode none of the three records writes the stream's
    version, so what is hashed does not depend on it; and an account is
    read back as written in either mode. *)
Theorem hash_mode_omits_version (type : Z) :
  Z.land type AcctEntry.SER_GETHASH <> 0 ->
  forall (v v' : Z) (kp : KeyPool.CKeyPool) (wk : CWalletKey) (a : CAccount),
    vch (SerializeKeyPool kp (empty type v)) =
      vch (SerializeKeyPool kp (empty type v')) /\
    vch (SerializeWalletKey wk (empty type v)) =
      vch (SerializeWalletKey wk (empty type v')) /\
    vch (SerializeAccount a (empty type v)) =
      vch (SerializeAccount a (empty type v')) /\
    UnserializeAccount (SerializeAccount a (empty type v)) =
      Some (a, empty type v).
Proof.
  intros Hty v v' kp wk a.
  split; [|split; [|split; [|apply account_roundtrip]]].
  all: unfold SerializeKeyPool, SerializeWalletKey, SerializeAccount,
         put_version, for_hash, empty; cbn [nType nVersion vch put].
  all: by destruct (Z.eqb_spec (Z.land type AcctEntry.SER_GETHASH) 0).
Qed.

Lemma hash_mode_omits_version_witness :
  vch (SerializeAccount (mkAccount 9) (empty 4 1)) =
  vch (SerializeAccount (mkAccount 9) (empty 4 2)).
Proof.
  apply (hash_mode_omits_version 4 ltac:(vm_compute; discriminate) 1 2
           (KeyPool.mkKeyPool 0 0 false) (mkWalletKey "" 0 0 "")
           (mkAccount 9)).
Defined.

End KeyRecords.

(** ** The size of the key pool *)

Module KeyPoolSize.
Import KeyPool.

Lemma size_union_le (X Y : gset Z) :
  (size (X ∪ Y) <= size X + size Y)%nat /\
  (size (X ∪ Y) = size X + size Y <-> X ## Y)%nat.
Proof.
  rewrite size_union_alt.
  assert (Hsub : Y ∖ X ⊆ Y) by set_solver.
  pose proof (subseteq_size _ _ Hsub) as Hle.
  split; [lia|]. split.
  - intros Heq. assert (Hsz : size Y = size (Y ∖ X)) by lia.
    assert (HY : Y ∖ X ≡ Y).
    { apply set_subseteq_size_equiv; [done|lia]. }
    set_solver.
  - intros Hdisj. assert (Y ∖ X = Y) as -> by set_solver. done.
Qed.

(** X24. [GetKeyPoolSize] is the sum of the two set sizes reduced to an
    [unsigned int]. While that sum fits, it is never below the number of
    distinct indices in the pool, equals it exactly when no index is in
    both sets, and is zero exactly when both sets are empty. *)
Theorem GetKeyPoolSize_counts (w : wallet) :
  Z.of_nat (size (setInternalKeyPool w)) +
    Z.of_nat (size (setExternalKeyPool w)) < UINT32_MOD ->
  0 <= GetKeyPoolSize w < UINT32_MOD /\
  Z.of_nat (size (setInternalKeyPool w ∪ setExternalKeyPool w)) <=
    GetKeyPoolSize w /\
  (GetKeyPoolSize w =
     Z.of_nat (size (setInternalKeyPool w ∪ setExternalKeyPool w)) <->
   setInternalKeyPool w ## setExternalKeyPool w) /\
  (GetKeyPoolSize w = 0 <->
   setInternalKeyPool w = ∅ /\ setExternalKeyPool w = ∅).
Proof.
  intros Hfit. unfold GetKeyPoolSize, to_uint32.
  rewrite Z.mod_small by lia.
  destruct (size_union_le (setInternalKeyPool w) (setExternalKeyPool w))
    as [Hle Hiff].
  split; [lia|]. split; [lia|]. split.
  - rewrite <- Hiff. lia.
  - split.
    + intros H0. split; apply leibniz_equiv, size_empty_inv; lia.
    + intros [-> ->]. by rewrite size_empty.
Qed.

Definition wallet_overlap : wallet :=
  mkWallet {[ 1; 2 ]} {[ 2; 3 ]} 3 ∅ false.

Lemma GetKeyPoolSize_counts_witness :
  GetKeyPoolSize wallet_overlap = 4 /\
  Z.of_nat (size (setInternalKeyPool wallet_overlap ∪
                  setExternalKeyPool wallet_overlap)) <=
    GetKeyPoolSize wallet_overlap.
Proof.
  split; [reflexivity|].
  apply (GetKeyPoolSize_counts wallet_overlap). vm_compute. reflexivity.
Defined.

End KeyPoolSize.
